(** * FitTrack landing page: carousel, analytics client, lazy image loader,
      link tracking and mobile navigation, embedded from the JavaScript
      sources.

    Every module of the page is modelled by explicit state passing over a
    record that holds the module-level [state] object together with the part
    of the browser it reads and writes (DOM nodes, timers, storage, the data
    layer).  A handler that would raise a [TypeError] returns [None]; where
    the source catches the error, or the error ends a timer callback, the
    state is the one reached before it.  JavaScript numbers that hold indices, pixel offsets and millisecond
    timestamps are integers ([Z]); counters are [nat].  Console logging has
    no effect on any state and is left out. *)

From stdpp Require Import gmap strings list pretty.
From Stdlib Require Import ZArith Lia.

(** ** DOM nodes shared by the modules *)

Record Element := mkElement {
  classList : gset string;
  attributes : gmap string string;
  disabled : bool;
  offsetWidth : Z;
}.

Definition classList_add (cls : string) (e : Element) : Element :=
  mkElement ({[ cls ]} ∪ classList e) (attributes e) (disabled e) (offsetWidth e).

Definition classList_remove (cls : string) (e : Element) : Element :=
  mkElement (classList e ∖ {[ cls ]}) (attributes e) (disabled e) (offsetWidth e).

Definition setAttribute (name value : string) (e : Element) : Element :=
  mkElement (classList e) (<[name := value]> (attributes e)) (disabled e) (offsetWidth e).

Definition removeAttribute (name : string) (e : Element) : Element :=
  mkElement (classList e) (delete name (attributes e)) (disabled e) (offsetWidth e).

Definition set_disabled (b : bool) (e : Element) : Element :=
  mkElement (classList e) (attributes e) b (offsetWidth e).

Definition hasClass (cls : string) (e : Element) : bool :=
  bool_decide (cls ∈ classList e).

Definition hasAttribute (name : string) (e : Element) : bool :=
  bool_decide (is_Some (attributes e !! name)).

(** ** TestimonialsCarousel (src/unnamed/part_000) *)

Module Carousel.

Record Config := mkConfig {
  autoPlayInterval : Z;
  autoPlayEnabled : bool;
  transitionDuration : Z;
  swipeThreshold : Z;
  pauseOnHover : bool;
  pauseOnFocus : bool;
  enableKeyboard : bool;
  enableTouch : bool;
  loop : bool;
}.

(** The [options] argument of the constructor: a key is present or absent. *)
Record Options := mkOptions {
  o_autoPlayInterval : option Z;
  o_autoPlayEnabled : option bool;
  o_transitionDuration : option Z;
  o_swipeThreshold : option Z;
  o_pauseOnHover : option bool;
  o_pauseOnFocus : option bool;
  o_enableKeyboard : option bool;
  o_enableTouch : option bool;
  o_loop : option bool;
}.

(** [{ key: options.key || dflt, ..., ...options }]: the trailing spread puts
    every key that is present back, so a present key wins over the default. *)
Definition config_of (o : Options) : Config :=
  mkConfig (default 5000%Z (o_autoPlayInterval o))
           (default true (o_autoPlayEnabled o))
           (default 500%Z (o_transitionDuration o))
           (default 50%Z (o_swipeThreshold o))
           (default true (o_pauseOnHover o))
           (default true (o_pauseOnFocus o))
           (default true (o_enableKeyboard o))
           (default true (o_enableTouch o))
           (default true (o_loop o)).

Inductive Transition :=
| TransitionUnset
| TransitionNone
| TransitionEase (ms : Z).

(** The track node: its class list and the two inline style properties the
    carousel writes ([transform] holds the pixels of [translateX(..px)]). *)
Record Track := mkTrack {
  track_id : string;
  track_classList : gset string;
  style_transition : Transition;
  style_transform : option Z;
}.

Record State := mkState {
  currentIndex : Z;
  isPlaying : bool;
  isDragging : bool;
  isTransitioning : bool;
  startX : Z;
  currentX : Z;
  translateX : Z;
  autoPlayTimer : bool;   (* an interval id is stored (truthy) or [null] *)
}.

(** The text of the live region: "Showing testimonial [shown] of [total]". *)
Record LiveText := mkLiveText { shown : Z; total : nat }.

Record Carousel := mkCarousel {
  config : Config;
  track : Track;
  slides : list Element;
  prevButton : option Element;
  nextButton : option Element;
  dots : list Element;
  playPauseButton : option Element;
  liveRegion : option LiveText;
  state : State;
}.

Definition with_state (s : State) (c : Carousel) : Carousel :=
  mkCarousel (config c) (track c) (slides c) (prevButton c) (nextButton c)
             (dots c) (playPauseButton c) (liveRegion c) s.

Definition with_track (t : Track) (c : Carousel) : Carousel :=
  mkCarousel (config c) t (slides c) (prevButton c) (nextButton c)
             (dots c) (playPauseButton c) (liveRegion c) (state c).

Definition set_currentIndex (i : Z) (s : State) : State :=
  mkState i (isPlaying s) (isDragging s) (isTransitioning s)
          (startX s) (currentX s) (translateX s) (autoPlayTimer s).

Definition set_isPlaying (b : bool) (s : State) : State :=
  mkState (currentIndex s) b (isDragging s) (isTransitioning s)
          (startX s) (currentX s) (translateX s) (autoPlayTimer s).

Definition set_isDragging (b : bool) (s : State) : State :=
  mkState (currentIndex s) (isPlaying s) b (isTransitioning s)
          (startX s) (currentX s) (translateX s) (autoPlayTimer s).

Definition set_isTransitioning (b : bool) (s : State) : State :=
  mkState (currentIndex s) (isPlaying s) (isDragging s) b
          (startX s) (currentX s) (translateX s) (autoPlayTimer s).

Definition set_startX (x : Z) (s : State) : State :=
  mkState (currentIndex s) (isPlaying s) (isDragging s) (isTransitioning s)
          x (currentX s) (translateX s) (autoPlayTimer s).

Definition set_currentX (x : Z) (s : State) : State :=
  mkState (currentIndex s) (isPlaying s) (isDragging s) (isTransitioning s)
          (startX s) x (translateX s) (autoPlayTimer s).

Definition set_translateX (x : Z) (s : State) : State :=
  mkState (currentIndex s) (isPlaying s) (isDragging s) (isTransitioning s)
          (startX s) (currentX s) x (autoPlayTimer s).

Definition set_autoPlayTimer (b : bool) (s : State) : State :=
  mkState (currentIndex s) (isPlaying s) (isDragging s) (isTransitioning s)
          (startX s) (currentX s) (translateX s) b.

Definition slideCount (c : Carousel) : Z := Z.of_nat (length (slides c)).

(** *** Auto-play *)

Definition startAutoPlay (c : Carousel) : Carousel :=
  if negb (autoPlayEnabled (config c)) || autoPlayTimer (state c) then c
  else with_state (set_autoPlayTimer true (state c)) c.

Definition stopAutoPlay (c : Carousel) : Carousel :=
  if autoPlayTimer (state c)
  then with_state (set_autoPlayTimer false (state c)) c
  else c.

Definition resetAutoPlay (c : Carousel) : Carousel :=
  if isPlaying (state c) then startAutoPlay (stopAutoPlay c) else c.

Definition updatePlayPauseButton (c : Carousel) : Carousel :=
  match playPauseButton c with
  | None => c
  | Some b =>
      let label := if isPlaying (state c) then "Pause auto-play" else "Start auto-play" in
      let icon := if isPlaying (state c) then "pause" else "play" in
      let b' := setAttribute "data-state" icon (setAttribute "aria-label" label b) in
      mkCarousel (config c) (track c) (slides c) (prevButton c) (nextButton c)
                 (dots c) (Some b') (liveRegion c) (state c)
  end.

Definition play (c : Carousel) : Carousel :=
  updatePlayPauseButton (startAutoPlay (with_state (set_isPlaying true (state c)) c)).

Definition pause (c : Carousel) : Carousel :=
  updatePlayPauseButton (stopAutoPlay (with_state (set_isPlaying false (state c)) c)).

(** *** Position and UI *)

(** [this.slides[0].offsetWidth] raises a TypeError on an empty slide list. *)
Definition updateSlidePosition (animate : bool) (c : Carousel) : option Carousel :=
  s0 ← head (slides c);
  let slideWidth := offsetWidth s0 in
  let translateX := (- (currentIndex (state c) * slideWidth))%Z in
  let t := mkTrack (track_id (track c)) (track_classList (track c))
                   (if animate then TransitionEase (transitionDuration (config c))
                    else TransitionNone)
                   (Some translateX) in
  let c1 := with_track t c in
  Some (if animate then c1
        else with_state (set_isTransitioning false (state c1)) c1).

Definition mark_current (cur : Z) (index : nat) (e : Element) : Element :=
  if (Z.of_nat index =? cur)%Z
  then setAttribute "aria-current" "true" (classList_add "is-active" e)
  else removeAttribute "aria-current" (classList_remove "is-active" e).

Definition enable_button (enabled : bool) (b : Element) : Element :=
  if enabled then removeAttribute "aria-disabled" (set_disabled false b)
  else setAttribute "aria-disabled" "true" (set_disabled true b).

Definition announceSlideChange (c : Carousel) : option LiveText :=
  Some (mkLiveText (currentIndex (state c) + 1)%Z (length (slides c))).

Definition updateUI (c : Carousel) : Carousel :=
  let cur := currentIndex (state c) in
  mkCarousel (config c) (track c)
    (imap (mark_current cur) (slides c))
    (enable_button (loop (config c) || (0 <? cur)%Z) <$> prevButton c)
    (enable_button (loop (config c) || (cur <? slideCount c - 1)%Z) <$> nextButton c)
    (imap (mark_current cur) (dots c))
    (playPauseButton c)
    (announceSlideChange c)
    (state c).

(** *** Navigation *)

Definition goToSlide (index : Z) (c : Carousel) : option Carousel :=
  if (index =? currentIndex (state c))%Z || isTransitioning (state c) then Some c
  else if (index <? 0)%Z || (slideCount c <=? index)%Z then Some c
  else
    let s := set_isTransitioning true (set_currentIndex index (state c)) in
    c1 ← updateSlidePosition true (with_state s c);
    Some (updateUI c1).

Definition goToPrevious (c : Carousel) : option Carousel :=
  if isTransitioning (state c) then Some c
  else
    let newIndex := (currentIndex (state c) - 1)%Z in
    let newIndex :=
      if (newIndex <? 0)%Z
      then (if loop (config c) then slideCount c - 1 else 0)%Z
      else newIndex in
    goToSlide newIndex c.

Definition goToNext (c : Carousel) : option Carousel :=
  if isTransitioning (state c) then Some c
  else
    let newIndex := (currentIndex (state c) + 1)%Z in
    let newIndex :=
      if (slideCount c <=? newIndex)%Z
      then (if loop (config c) then 0 else slideCount c - 1)%Z
      else newIndex in
    goToSlide newIndex c.

(** *** Event handlers *)

Definition handlePrevClick (c : Carousel) : option Carousel :=
  resetAutoPlay <$> goToPrevious c.

Definition handleNextClick (c : Carousel) : option Carousel :=
  resetAutoPlay <$> goToNext c.

Definition handleDotClick (index : nat) (c : Carousel) : option Carousel :=
  resetAutoPlay <$> goToSlide (Z.of_nat index) c.

Definition handlePlayPauseClick (c : Carousel) : Carousel :=
  if isPlaying (state c) then pause c else play c.

Inductive Key := ArrowLeft | ArrowRight | Home | End_ | Space | OtherKey.

Definition handleKeyDown (key : Key) (c : Carousel) : option Carousel :=
  match key with
  | ArrowLeft => resetAutoPlay <$> goToPrevious c
  | ArrowRight => resetAutoPlay <$> goToNext c
  | Home => resetAutoPlay <$> goToSlide 0 c
  | End_ => resetAutoPlay <$> goToSlide (slideCount c - 1) c
  | Space => Some (handlePlayPauseClick c)
  | OtherKey => Some c
  end.

(** [clientX] is [event.touches[0].clientX]. *)
Definition handleTouchStart (clientX : Z) (c : Carousel) : Carousel :=
  if isTransitioning (state c) then c
  else
    let s := set_currentX clientX (set_startX clientX (set_isDragging true (state c))) in
    let t := mkTrack (track_id (track c)) ({[ "is-dragging" ]} ∪ track_classList (track c))
                     (style_transition (track c)) (style_transform (track c)) in
    stopAutoPlay (with_track t (with_state s c)).

Definition handleTouchMove (clientX : Z) (c : Carousel) : option Carousel :=
  if negb (isDragging (state c)) then Some c
  else
    let s := set_currentX clientX (state c) in
    let deltaX := (currentX s - startX s)%Z in
    s0 ← head (slides c);
    let slideWidth := offsetWidth s0 in
    let currentTranslate := (- (currentIndex s * slideWidth))%Z in
    let s := set_translateX (currentTranslate + deltaX)%Z s in
    let t := mkTrack (track_id (track c)) (track_classList (track c)) (style_transition (track c))
                     (Some (translateX s)) in
    Some (with_track t (with_state s c)).

Definition handleTouchEnd (c : Carousel) : option Carousel :=
  if negb (isDragging (state c)) then Some c
  else
    let t := mkTrack (track_id (track c)) (track_classList (track c) ∖ {[ "is-dragging" ]})
                     (style_transition (track c)) (style_transform (track c)) in
    let c := with_track t (with_state (set_isDragging false (state c)) c) in
    let deltaX := (currentX (state c) - startX (state c))%Z in
    let threshold := swipeThreshold (config c) in
    c ← (if (threshold <? Z.abs deltaX)%Z
         then (if (0 <? deltaX)%Z then goToPrevious c else goToNext c)
         else updateSlidePosition true c);
    Some (resetAutoPlay c).

Definition handleMouseEnter (c : Carousel) : Carousel :=
  if pauseOnHover (config c) && isPlaying (state c) then stopAutoPlay c else c.

Definition handleMouseLeave (c : Carousel) : Carousel :=
  if pauseOnHover (config c) && isPlaying (state c) then startAutoPlay c else c.

Definition handleFocus (c : Carousel) : Carousel :=
  if pauseOnFocus (config c) && isPlaying (state c) then stopAutoPlay c else c.

(** [focusInside] is [this.container.contains(document.activeElement)]. *)
Definition handleBlur (focusInside : bool) (c : Carousel) : Carousel :=
  if pauseOnFocus (config c) && isPlaying (state c) && negb focusInside
  then startAutoPlay c else c.

Definition handleTransitionEnd (c : Carousel) : Carousel :=
  with_state (set_isTransitioning false (state c)) c.

(** [hidden] is [document.hidden]. *)
Definition handleVisibilityChange (hidden : bool) (c : Carousel) : Carousel :=
  if hidden then stopAutoPlay c
  else if isPlaying (state c) then startAutoPlay c else c.

(** The callbacks of the two observers of [setupObservers]. *)
Definition onIntersection (isIntersecting : bool) (c : Carousel) : Carousel :=
  if isIntersecting && isPlaying (state c) then startAutoPlay c else stopAutoPlay c.

Definition onResize (c : Carousel) : option Carousel :=
  updateSlidePosition false c.

(** The interval callback of [startAutoPlay]; it runs only while the
    interval is armed. *)
Definition autoPlayTick (c : Carousel) : option Carousel :=
  if autoPlayTimer (state c) then goToNext c else Some c.

(** *** Construction *)

(** What [findElements] finds under the container. *)
Record Markup := mkMarkup {
  m_track : option Track;
  m_slides : list Element;
  m_prevButton : option Element;
  m_nextButton : option Element;
  m_dots : list Element;
  m_playPauseButton : option Element;
  m_liveRegion : option LiveText;
}.

Definition initialState (cfg : Config) : State :=
  mkState 0 (autoPlayEnabled cfg) false false 0 0 0 false.

Definition slide_accessibility (cur : Z) (count : nat) (index : nat) (e : Element) : Element :=
  let e := setAttribute "role" "listitem" e in
  let e := setAttribute "aria-roledescription" "slide" e in
  let e := setAttribute "aria-label"
             ("Testimonial " +:+ pretty (index + 1) +:+ " of " +:+ pretty count) e in
  if (Z.of_nat index =? cur)%Z
  then setAttribute "aria-current" "true" (classList_add "is-active" e)
  else removeAttribute "aria-current" e.

(** [this.track.id || 'carousel-track'] *)
Definition controls_id (t : Track) : string :=
  if bool_decide (track_id t = "") then "carousel-track" else track_id t.

Definition button_accessibility (t : Track) (label : string) (b : Element) : Element :=
  setAttribute "aria-controls" (controls_id t) (setAttribute "aria-label" label b).

Definition dot_accessibility (t : Track) (index : nat) (d : Element) : Element :=
  setAttribute "aria-controls" (controls_id t)
    (setAttribute "aria-label" ("Go to testimonial " +:+ pretty (index + 1))
       (setAttribute "role" "button" d)).

Definition setupAccessibility (c : Carousel) : Carousel :=
  let c := mkCarousel (config c) (track c)
             (imap (slide_accessibility (currentIndex (state c)) (length (slides c))) (slides c))
             (button_accessibility (track c) "Previous testimonial" <$> prevButton c)
             (button_accessibility (track c) "Next testimonial" <$> nextButton c)
             (dots c) (playPauseButton c) (liveRegion c) (state c) in
  let c := updatePlayPauseButton c in
  mkCarousel (config c) (track c) (slides c) (prevButton c) (nextButton c)
             (imap (dot_accessibility (track c)) (dots c)) (playPauseButton c) (liveRegion c) (state c).

(** [new TestimonialsCarousel(container, options)]: [validateElements]
    throws when the track or every slide is missing, and the constructor
    rethrows. *)
Definition construct (o : Options) (m : Markup) : option Carousel :=
  let cfg := config_of o in
  t ← m_track m;
  if bool_decide (m_slides m = []) then None
  else
    let c := mkCarousel cfg t (m_slides m) (m_prevButton m) (m_nextButton m)
                        (m_dots m) (m_playPauseButton m) (m_liveRegion m)
                        (initialState cfg) in
    let c := updateUI (setupAccessibility c) in
    Some (if isPlaying (state c) then startAutoPlay c else c).

(** *** Runs of the widget *)

Inductive Event :=
| GoToSlide (index : Z)          (* the public method, any integer *)
| GoToNext
| GoToPrevious
| PrevClick
| NextClick
| DotClick (index : nat)
| PlayPauseClick
| KeyDown (key : Key)
| TouchStart (clientX : Z)
| TouchMove (clientX : Z)
| TouchEnd
| MouseEnter
| MouseLeave
| FocusIn
| FocusOut (focusInside : bool)
| TransitionEnd
| VisibilityChange (hidden : bool)
| Intersection (isIntersecting : bool)
| Resize
| AutoPlayTick.

(** A listener that [attachEventListeners] did not attach never runs; a dot
    listener exists for the dots found, a button listener for a button found. *)
Definition dispatch (e : Event) (c : Carousel) : option Carousel :=
  match e with
  | GoToSlide index => goToSlide index c
  | GoToNext => goToNext c
  | GoToPrevious => goToPrevious c
  | PrevClick => match prevButton c with Some _ => handlePrevClick c | None => Some c end
  | NextClick => match nextButton c with Some _ => handleNextClick c | None => Some c end
  | DotClick index =>
      if bool_decide (index < length (dots c)) then handleDotClick index c else Some c
  | PlayPauseClick =>
      Some (match playPauseButton c with Some _ => handlePlayPauseClick c | None => c end)
  | KeyDown key => if enableKeyboard (config c) then handleKeyDown key c else Some c
  | TouchStart x => Some (if enableTouch (config c) then handleTouchStart x c else c)
  | TouchMove x => if enableTouch (config c) then handleTouchMove x c else Some c
  | TouchEnd => if enableTouch (config c) then handleTouchEnd c else Some c
  | MouseEnter => Some (if pauseOnHover (config c) then handleMouseEnter c else c)
  | MouseLeave => Some (if pauseOnHover (config c) then handleMouseLeave c else c)
  | FocusIn => Some (if pauseOnFocus (config c) then handleFocus c else c)
  | FocusOut inside => Some (if pauseOnFocus (config c) then handleBlur inside c else c)
  | TransitionEnd => Some (handleTransitionEnd c)
  | VisibilityChange hidden => Some (handleVisibilityChange hidden c)
  | Intersection i => Some (onIntersection i c)
  | Resize => onResize c
  | AutoPlayTick => autoPlayTick c
  end.

Fixpoint run (es : list Event) (c : Carousel) : option Carousel :=
  match es with
  | [] => Some c
  | e :: es => c' ← dispatch e c; run es c'
  end.

(** Observations on slides. *)
Definition slideIsActive (e : Element) : bool :=
  hasClass "is-active" e && bool_decide (attributes e !! "aria-current" = Some "true").

Definition slideIsMarked (e : Element) : bool :=
  hasClass "is-active" e || hasAttribute "aria-current" e.

(** The index invariant of the data model. *)
Definition index_in_range (c : Carousel) : Prop :=
  (0 <= currentIndex (state c) < slideCount c)%Z.

(** [c'] has the slide count and the index of [c]. *)
Definition same_position (c c' : Carousel) : Prop :=
  length (slides c') = length (slides c) ∧
  currentIndex (state c') = currentIndex (state c).

(** [c'] has the slide count of [c] and an index in range. *)
Definition keeps_range (c c' : Carousel) : Prop :=
  length (slides c') = length (slides c) ∧ index_in_range c'.

(** A page with three testimonials, both buttons and three dots. *)
Definition blank : Element := mkElement ∅ ∅ false 320.

Definition threeSlides : Markup :=
  mkMarkup (Some (mkTrack "" ∅ TransitionUnset None))
           [blank; blank; blank] (Some blank) (Some blank)
           [blank; blank; blank] (Some blank) None.

Definition noOptions : Options :=
  mkOptions None None None None None None None None None.

Definition threeTrack : Track := mkTrack "" ∅ TransitionUnset None.

Definition threeUnbuilt : Carousel :=
  mkCarousel (config_of noOptions) threeTrack (m_slides threeSlides)
             None None [] None None (initialState (config_of noOptions)).

(** The carousel the constructor builds on that page, and the same carousel
    in the middle of its transition to slide 1. *)
Definition threeBuilt : Carousel :=
  default threeUnbuilt (construct noOptions threeSlides).

Definition threeMoving : Carousel :=
  default threeUnbuilt (goToSlide 1 threeBuilt).

(** The same carousel at rest on its last slide. *)
Definition threeAtLast : Carousel :=
  default threeUnbuilt (run [GoToSlide 2; TransitionEnd] threeBuilt).

(** The same page configured not to loop. *)
Definition noLoop : Options :=
  mkOptions None None None None None None None None (Some false).

(** *** Further observations *)

(** The UI shows the index: a redraw by [updateUI] would change nothing. *)
Definition ui_synced (c : Carousel) : Prop :=
  let cur := currentIndex (state c) in
  imap (mark_current cur) (slides c) = slides c ∧
  imap (mark_current cur) (dots c) = dots c ∧
  enable_button (loop (config c) || (0 <? cur)%Z) <$> prevButton c = prevButton c ∧
  enable_button (loop (config c) || (cur <? slideCount c - 1)%Z) <$> nextButton c
    = nextButton c ∧
  liveRegion c = announceSlideChange c.

(** [c'] has the configuration, the index and the drawn parts of [c]. *)
Definition same_ui (c c' : Carousel) : Prop :=
  config c' = config c ∧ slides c' = slides c ∧ dots c' = dots c ∧
  prevButton c' = prevButton c ∧ nextButton c' = nextButton c ∧
  liveRegion c' = liveRegion c ∧
  currentIndex (state c') = currentIndex (state c).

(** [c'] has the configuration and the auto-play state of [c]. *)
Definition same_play (c c' : Carousel) : Prop :=
  config c' = config c ∧
  isPlaying (state c') = isPlaying (state c) ∧
  autoPlayTimer (state c') = autoPlayTimer (state c).

(** An armed interval belongs to a carousel that is playing and whose
    configuration enables auto-play. *)
Definition timer_ok (c : Carousel) : Prop :=
  autoPlayTimer (state c) = true →
  isPlaying (state c) = true ∧ autoPlayEnabled (config c) = true.

(** A touch gesture: the finger goes down at [x0], moves through [moves]
    and is lifted; [displacement] is where it ends relative to [x0]. *)
Definition gesture (x0 : Z) (moves : list Z) : list Event :=
  TouchStart x0 :: (TouchMove <$> moves) ++ [TouchEnd].

Definition displacement (x0 : Z) (moves : list Z) : Z :=
  (default x0 (last moves) - x0)%Z.

(** [k] times: next slide, then the end of its transition. *)
Definition advance (k : nat) : list Event :=
  concat (replicate k [GoToNext; TransitionEnd]).

(** Where the track rests for the current slide. *)
Definition restingTransform (c : Carousel) : option Z :=
  (λ s0, - (currentIndex (state c) * offsetWidth s0))%Z <$> head (slides c).

(** The slide one step from the current one in direction [dir] (-1 or 1):
    around the ends when looping, held at the ends otherwise. *)
Definition neighbour (c : Carousel) (dir : Z) : Z :=
  if loop (config c)
  then ((currentIndex (state c) + dir) mod slideCount c)%Z
  else Z.max 0 (Z.min (slideCount c - 1) (currentIndex (state c) + dir)).

(** At rest: no transition runs and no finger is down. *)
Definition at_rest (c : Carousel) : Prop :=
  isTransitioning (state c) = false ∧ isDragging (state c) = false.

(** In the middle of a gesture that started on [c] at [x0] and has reached
    [x]: [c1] shows what [c] shows and its finger is down. *)
Definition dragging (x0 x : Z) (c c1 : Carousel) : Prop :=
  same_ui c c1 ∧ isDragging (state c1) = true ∧ isTransitioning (state c1) = false ∧
  startX (state c1) = x0 ∧ currentX (state c1) = x.

End Carousel.

(** ** Analytics client (src/js/analytics.js) *)

Module Analytics.

Record Config := mkConfig {
  measurementId : string;
  consentExpiryDays : Z;
  loadTimeout : nat;
  retryAttempts : nat;
  retryDelay : nat;
}.

Definition CONFIG : Config := mkConfig "G-XXXXXXXXXX" 365 5000 3 1000.

(** Values of event parameters; [VISOTime t] is the ISO-8601 text of the
    instant [t] (milliseconds since the epoch). *)
Inductive Value :=
| VString (s : string)
| VNumber (n : Z)
| VISOTime (t : Z).

Record QueueItem := mkItem {
  eventName : string;
  eventParams : gmap string Value;
}.

(** The argument lists [gtag] pushes on the data layer. *)
Inductive GtagCall :=
| ConsentDefault (analytics_granted : bool)
| Js (date : Z)
| ConfigCall (id : string)
| ConsentUpdate (analytics_granted : bool)
| EventCall (name : string) (params : gmap string Value).

(** The text stored under [consentStorageKey], read through [JSON.parse]:
    [Malformed] is a text on which [JSON.parse] or the read of [data.expiry]
    throws; otherwise [consent] tells whether [data.consent === true] and
    [expiry] is the time value of [new Date(data.expiry)], [None] for an
    invalid date. *)
Inductive StoredText :=
| Malformed
| ConsentJSON (consent : bool) (expiry : option Z).

(** A script element appended to the head: whether its load timeout is still
    armed, and whether the browser has already fired its load or error
    event. *)
Record Script := mkScript {
  timeoutArmed : bool;
  settled : bool;
}.

Record State := mkState {
  initialized : bool;
  consentGiven : bool;
  blocked : bool;
  loadAttempts : nat;
  eventQueue : list QueueItem;
}.

(** The module state and the part of the browser the module touches. *)
Record World := mkWorld {
  state : State;
  dataLayer : option (list GtagCall);      (* window.dataLayer *)
  storageAvailable : bool;                 (* localStorage access does not throw *)
  storedConsent : option StoredText;       (* localStorage item, [None] for null *)
  scripts : list Script;                   (* appended script elements, in order *)
  retryTimers : list nat;                  (* delays of pending retry timeouts *)
  beacons : list QueueItem;                (* payloads given to sendBeacon *)
  canBeacon : bool;                        (* navigator.sendBeacon exists *)
  listening : bool;                        (* setupEventListeners ran *)
  localTZA : Z → bool → Z;                 (* the local time zone: LocalTZA(t, isUTC) *)
}.

Definition with_state (s : State) (w : World) : World :=
  mkWorld s (dataLayer w) (storageAvailable w) (storedConsent w) (scripts w)
          (retryTimers w) (beacons w) (canBeacon w) (listening w) (localTZA w).

Definition set_initialized (b : bool) (w : World) : World :=
  let s := state w in
  with_state (mkState b (consentGiven s) (blocked s) (loadAttempts s) (eventQueue s)) w.

Definition set_consentGiven (b : bool) (w : World) : World :=
  let s := state w in
  with_state (mkState (initialized s) b (blocked s) (loadAttempts s) (eventQueue s)) w.

Definition set_blocked (b : bool) (w : World) : World :=
  let s := state w in
  with_state (mkState (initialized s) (consentGiven s) b (loadAttempts s) (eventQueue s)) w.

Definition set_loadAttempts (n : nat) (w : World) : World :=
  let s := state w in
  with_state (mkState (initialized s) (consentGiven s) (blocked s) n (eventQueue s)) w.

Definition set_eventQueue (q : list QueueItem) (w : World) : World :=
  let s := state w in
  with_state (mkState (initialized s) (consentGiven s) (blocked s) (loadAttempts s) q) w.

Definition set_dataLayer (d : option (list GtagCall)) (w : World) : World :=
  mkWorld (state w) d (storageAvailable w) (storedConsent w) (scripts w)
          (retryTimers w) (beacons w) (canBeacon w) (listening w) (localTZA w).

Definition set_storedConsent (t : option StoredText) (w : World) : World :=
  mkWorld (state w) (dataLayer w) (storageAvailable w) t (scripts w)
          (retryTimers w) (beacons w) (canBeacon w) (listening w) (localTZA w).

Definition set_scripts (l : list Script) (w : World) : World :=
  mkWorld (state w) (dataLayer w) (storageAvailable w) (storedConsent w) l
          (retryTimers w) (beacons w) (canBeacon w) (listening w) (localTZA w).

Definition set_retryTimers (l : list nat) (w : World) : World :=
  mkWorld (state w) (dataLayer w) (storageAvailable w) (storedConsent w) (scripts w)
          l (beacons w) (canBeacon w) (listening w) (localTZA w).

Definition set_beacons (l : list QueueItem) (w : World) : World :=
  mkWorld (state w) (dataLayer w) (storageAvailable w) (storedConsent w) (scripts w)
          (retryTimers w) l (canBeacon w) (listening w) (localTZA w).

Definition set_listening (b : bool) (w : World) : World :=
  mkWorld (state w) (dataLayer w) (storageAvailable w) (storedConsent w) (scripts w)
          (retryTimers w) (beacons w) (canBeacon w) b (localTZA w).

Definition msPerDay : Z := 86400000.

(** Date arithmetic as ECMAScript defines it: [LocalTime] and [UTC] convert
    between time values and local time through the zone of the browser.
    Time values are taken in the range in which dates are valid. *)
Definition LocalTime (w : World) (t : Z) : Z := (t + localTZA w t true)%Z.

Definition UTC (w : World) (t : Z) : Z := (t - localTZA w t false)%Z.

(** [d.setDate(d.getDate() + days)] on a date with time value [t]: the
    same local time of day, [days] calendar days later. *)
Definition addLocalDays (w : World) (days : Z) (t : Z) : Z :=
  UTC w (LocalTime w t + days * msPerDay).

Section Client.

Variable cfg : Config.

(** [window[dataLayerName].push(arguments)]: a TypeError while the data
    layer does not exist. *)
Definition gtag (call : GtagCall) (w : World) : option World :=
  dl ← dataLayer w;
  Some (set_dataLayer (Some (dl ++ [call])) w).

(** [now] is the value of [new Date()] during the handler that runs.  An
    absent [eventParams] is the empty object; the validity test on the name
    rejects the empty string (values that are not strings are not in the
    type). *)
Definition trackEvent (now : Z) (eventName : string)
    (eventParams : gmap string Value) (immediate : bool) (w : World) : World :=
  if bool_decide (eventName = "") then w
  else
    let eventParams := <["timestamp" := VISOTime now]> eventParams in
    if negb (consentGiven (state w)) || blocked (state w)
    then set_eventQueue (eventQueue (state w) ++ [mkItem eventName eventParams]) w
    else if immediate && canBeacon w
    then set_beacons (beacons w ++ [mkItem eventName eventParams]) w
    else match gtag (EventCall eventName eventParams) w with
         | Some w' => w'
         | None => w           (* caught and logged *)
         end.

Definition processQueuedEvents (now : Z) (w : World) : World :=
  if bool_decide (eventQueue (state w) = []) then w
  else
    let queue := eventQueue (state w) in
    let w := set_eventQueue [] w in
    foldl (λ w item, trackEvent now (eventName item) (eventParams item) false w)
          w queue.

Definition loadGtagScript (now : Z) (w : World) : World :=
  if bool_decide (retryAttempts cfg ≤ loadAttempts (state w))
  then processQueuedEvents now (set_blocked true w)
  else
    let w := set_loadAttempts (S (loadAttempts (state w))) w in
    set_scripts (scripts w ++ [mkScript true false]) w.

(** [script.onerror]: it reads the shared counter, not the script. *)
Definition script_onerror (now : Z) (w : World) : World :=
  if bool_decide (loadAttempts (state w) < retryAttempts cfg)
  then set_retryTimers
         (retryTimers w ++ [retryDelay cfg * loadAttempts (state w)]) w
  else processQueuedEvents now (set_blocked true w).

(** Bookkeeping of the browser for script [i]: its load or error event has
    fired; its load timeout is cleared or has fired. *)
Definition settle (i : nat) (w : World) : World :=
  set_scripts (alter (λ s, mkScript (timeoutArmed s) true) i (scripts w)) w.

Definition disarm (i : nat) (w : World) : World :=
  set_scripts (alter (λ s, mkScript false (settled s)) i (scripts w)) w.

(** [script.onload] of script [i], wrapped so that it first clears the load
    timeout of that script. *)
Definition script_onload (i : nat) (now : Z) (w : World) : World :=
  let w := disarm i w in
  processQueuedEvents now (set_blocked false w).

(** The callback of the load timeout. *)
Definition script_timeout (now : Z) (w : World) : World :=
  if negb (blocked (state w)) && bool_decide (loadAttempts (state w) < retryAttempts cfg)
  then script_onerror now w
  else w.

Definition getStoredConsent (now : Z) (w : World) : option bool * World :=
  if negb (storageAvailable w) then (None, w)       (* getItem throws: caught *)
  else
    match storedConsent w with
    | None => (None, w)
    | Some Malformed => (None, w)                   (* caught *)
    | Some (ConsentJSON consent expiry) =>
        if match expiry with
           | Some e => (now <? e)%Z
           | None => false
           end
        then (Some consent, w)
        else (None, set_storedConsent None w)
    end.

(** The expiry is [consentExpiryDays] calendar days after [now] in local
    time. *)
Definition storeConsent (granted : bool) (now : Z) (w : World) : World :=
  if storageAvailable w
  then set_storedConsent
         (Some (ConsentJSON granted (Some (addLocalDays w (consentExpiryDays cfg) now)))) w
  else w.                                            (* setItem throws: caught *)

Definition shouldLoadByDefault : bool := false.

Definition initializeDataLayer (now : Z) (w : World) : World :=
  let dl := default [] (dataLayer w) in
  set_dataLayer
    (Some (dl ++ [ConsentDefault (consentGiven (state w)); Js now;
                  ConfigCall (measurementId cfg)])) w.

Definition setupEventListeners (w : World) : World := set_listening true w.

Definition init (now : Z) (w : World) : World :=
  if initialized (state w) then w
  else
    let '(stored, w) := getStoredConsent now w in
    let w := match stored with
             | Some b => set_consentGiven b w
             | None => w
             end in
    let w := initializeDataLayer now w in
    let w := if consentGiven (state w) || shouldLoadByDefault
             then loadGtagScript now w else w in
    let w := setupEventListeners w in
    set_initialized true w.

Definition updateConsent (granted : bool) (now : Z) (w : World) : World :=
  let w := set_consentGiven granted w in
  let w := storeConsent granted now w in
  match gtag (ConsentUpdate granted) w with
  | None => w                                        (* the TypeError escapes *)
  | Some w =>
      let w := if granted && negb (blocked (state w))
                  && bool_decide (loadAttempts (state w) = 0)
               then loadGtagScript now w else w in
      if granted then processQueuedEvents now w else w
  end.

(** *** The event loop *)

Inductive Event :=
| Init
| TrackEvent (eventName : string) (eventParams : gmap string Value) (immediate : bool)
| UpdateConsent (granted : bool)
| ScriptLoad (i : nat)       (* the browser fires [load] on script [i] *)
| ScriptError (i : nat)      (* the browser fires [error] on script [i] *)
| LoadTimeout (i : nat)      (* the load timeout of script [i] expires *)
| RetryTimer (j : nat).      (* the [j]-th pending retry timeout expires *)

(** An event the browser cannot deliver (a second load or error of one
    script, a timeout that was cleared or has fired, a timer that is not
    pending) leaves the world as it is. *)
Definition handle (now : Z) (e : Event) (w : World) : World :=
  match e with
  | Init => init now w
  | TrackEvent name params immediate => trackEvent now name params immediate w
  | UpdateConsent granted => updateConsent granted now w
  | ScriptLoad i =>
      match scripts w !! i with
      | Some s => if settled s then w else script_onload i now (settle i w)
      | None => w
      end
  | ScriptError i =>
      match scripts w !! i with
      | Some s => if settled s then w else script_onerror now (settle i w)
      | None => w
      end
  | LoadTimeout i =>
      match scripts w !! i with
      | Some s => if timeoutArmed s then script_timeout now (disarm i w) else w
      | None => w
      end
  | RetryTimer j =>
      match retryTimers w !! j with
      | Some _ => loadGtagScript now (set_retryTimers (delete j (retryTimers w)) w)
      | None => w
      end
  end.

(** A trace is a list of events, each with the clock reading at delivery. *)
Fixpoint run (trace : list (Z * Event)) (w : World) : World :=
  match trace with
  | [] => w
  | (now, e) :: trace => run trace (handle now e w)
  end.




End Client.

(** The page before the module runs, in a browser whose local time is
    UTC. *)
Definition fresh (storage : option StoredText) : World :=
  mkWorld (mkState false false false 0 []) None true storage [] [] [] true false
          (λ _ _, 0%Z).

(** The events sent to the vendor: the [event] entries of the data layer. *)
Definition sentEvents (w : World) : list QueueItem :=
  omap (λ call, match call with
                | EventCall name params => Some (mkItem name params)
                | _ => None
                end)
       (default [] (dataLayer w)).

(** What trackEvent keeps of a call: the name and, under [timestamp], the
    clock reading. *)
Definition stamped (now : Z) (name : string) (params : gmap string Value) : QueueItem :=
  mkItem name (<["timestamp" := VISOTime now]> params).

Definition restamp (now : Z) (item : QueueItem) : QueueItem :=
  stamped now (eventName item) (eventParams item).

(** The data-layer entry [trackEvent] pushes for a queue entry at [now]. *)
Definition eventCall (now : Z) (item : QueueItem) : GtagCall :=
  EventCall (eventName item) (<["timestamp" := VISOTime now]> (eventParams item)).


(** Two worlds that differ at most in the stored consent text. *)
Definition same_client (w w' : World) : Prop :=
  set_storedConsent None w = set_storedConsent None w'.

(** [w'] has the loader of [w]: scripts, timers, counters and flags. *)
Definition same_loader (w w' : World) : Prop :=
  scripts w' = scripts w ∧ retryTimers w' = retryTimers w ∧
  loadAttempts (state w') = loadAttempts (state w) ∧
  blocked (state w') = blocked (state w) ∧
  consentGiven (state w') = consentGiven (state w) ∧
  initialized (state w') = initialized (state w) ∧
  storedConsent w' = storedConsent w ∧
  storageAvailable w' = storageAvailable w ∧
  canBeacon w' = canBeacon w ∧
  listening w' = listening w.


(** What one handler does to the loader: it appends no script, or it appends
    one, counted, while the counter was below the bound. *)
Definition attempt_step (cfg : Config) (w w' : World) : Prop :=
  (length (scripts w') = length (scripts w) ∧
   loadAttempts (state w') = loadAttempts (state w)) ∨
  (loadAttempts (state w) < retryAttempts cfg ∧
   length (scripts w') = S (length (scripts w)) ∧
   loadAttempts (state w') = S (loadAttempts (state w))).






Definition validName (item : QueueItem) : Prop := eventName item ≠ "".

(** A call [trackEvent(name, params, immediate)] made at clock reading
    [c_now]. *)
Record Call := mkCall {
  c_now : Z;
  c_name : string;
  c_params : gmap string Value;
  c_immediate : bool;
}.

Definition validCall (c : Call) : Prop := c_name c ≠ "".

Definition trackAll (calls : list Call) (w : World) : World :=
  foldl (λ w c, trackEvent (c_now c) (c_name c) (c_params c) (c_immediate c) w)
        w calls.

(** The calls with a valid name, in call order, as queue entries stamped at
    call time, and as events stamped at [now]. *)
Definition queuedOf (calls : list Call) : list QueueItem :=
  (λ c, stamped (c_now c) (c_name c) (c_params c)) <$> filter validCall calls.

Definition flushedOf (now : Z) (calls : list Call) : list QueueItem :=
  (λ c, stamped now (c_name c) (c_params c)) <$> filter validCall calls.

Definition unexpired : option StoredText := Some (ConsentJSON true (Some 1000000%Z)).

(** A run in which consent is on record and all three loads fail. *)
Definition blockedTrace : list (Z * Event) :=
  [(0, Init); (10, ScriptError 0); (1010, RetryTimer 0);
   (1020, ScriptError 1); (3020, RetryTimer 0); (3030, ScriptError 2)]%Z.

Definition blockedWorld : World := run CONFIG blockedTrace (fresh unexpired).





(** A first visit whose consent record ran out at instant 500. *)
Definition expiredVisit : World := fresh (Some (ConsentJSON true (Some 500%Z))).

Definition twoCalls : list Call :=
  [mkCall 4000 "cta_click" {[ "cta_name" := VString "hero" ]} false;
   mkCall 4500 "section_view" {[ "section_name" := VString "pricing" ]} false].

(** The page of a first visit, initialised and waiting for consent. *)
Definition awaitingConsent : World := run CONFIG [(0%Z, Init)] (fresh None).


(** *** Further observations *)

(** Whether a stored text records consent as granted, with a readable
    expiry. *)
Definition storedGrant (t : option StoredText) : bool :=
  match t with
  | Some (ConsentJSON true (Some _)) => true
  | _ => false
  end.

Definition is_grant (e : Event) : bool :=
  match e with UpdateConsent true => true | _ => false end.

(** A trace in which consent is never granted. *)
Definition no_grant (trace : list (Z * Event)) : Prop :=
  Forall (λ te, is_grant te.2 = false) trace.

(** Consent is not given and no readable storage records it as granted. *)
Definition unconsented (w : World) : Prop :=
  consentGiven (state w) = false ∧
  (storageAvailable w = true → storedGrant (storedConsent w) = false).

(** Data-layer entries that are no event and grant nothing. *)
Definition quietCall (call : GtagCall) : bool :=
  match call with
  | ConsentDefault b | ConsentUpdate b => negb b
  | Js _ | ConfigCall _ => true
  | EventCall _ _ => false
  end.

(** [w'] has the beacons of [w], and its data layer is that of [w] followed
    by quiet entries only. *)
Definition quiet_step (w w' : World) : Prop :=
  (∃ extra, default [] (dataLayer w') = default [] (dataLayer w) ++ extra ∧
            forallb quietCall extra = true) ∧
  beacons w' = beacons w.

(** [w'] has what [w] has sent and what it knows of the consent. *)
Definition same_outbox (w w' : World) : Prop :=
  dataLayer w' = dataLayer w ∧ beacons w' = beacons w ∧
  consentGiven (state w') = consentGiven (state w) ∧
  storedConsent w' = storedConsent w ∧
  storageAvailable w' = storageAvailable w.

(** A visit on which consent was denied earlier, and a trace without a
    grant. *)
Definition deniedVisit : World := fresh (Some (ConsentJSON false (Some 1000000%Z))).

Definition quietTrace : list (Z * Event) :=
  [(0, Init); (10, TrackEvent "cta_click" ∅ false); (20, UpdateConsent false);
   (30, TrackEvent "user_engagement" ∅ true); (40, ScriptLoad 0); (50, Init)]%Z.

(** What an event carries apart from its time stamp. *)
Definition payload (item : QueueItem) : string * gmap string Value :=
  (eventName item, delete "timestamp" (eventParams item)).

(** Every event the client has handed over or still holds: pushed on the
    data layer, given to sendBeacon, or queued. *)
Definition held (w : World) : list QueueItem :=
  sentEvents w ++ beacons w ++ eventQueue (state w).

(** The payloads of the calls of [trackEvent] with a valid name in a
    trace. *)
Definition trackedIn (trace : list (Z * Event)) : list (string * gmap string Value) :=
  omap (λ te, match te.2 with
              | TrackEvent name params _ =>
                  if bool_decide (name = "") then None
                  else Some (name, delete "timestamp" params)
              | _ => None
              end) trace.

(** The data layer exists and the queue holds valid names only. *)
Definition ready (w : World) : Prop :=
  is_Some (dataLayer w) ∧ Forall validName (eventQueue (state w)).

(** [w'] is ready and holds the events of [w], in some order and up to
    their time stamps. *)
Definition conserves (w w' : World) : Prop :=
  ready w' ∧ payload <$> held w' ≡ₚ payload <$> held w.

(** A visit with a failing first load, consent withdrawn and given again. *)
Definition busyTrace : list (Z * Event) :=
  [(10, TrackEvent "cta_click" {[ "cta_name" := VString "hero" ]} false);
   (20, UpdateConsent true);
   (30, TrackEvent "section_view" ∅ false);
   (40, ScriptError 0);
   (50, UpdateConsent false);
   (60, TrackEvent "" ∅ false);
   (70, TrackEvent "app_store_click" ∅ false);
   (1040, RetryTimer 0);
   (1050, UpdateConsent true);
   (1060, ScriptLoad 1);
   (1070, TrackEvent "user_engagement" {[ "engagement_time_msec" := VNumber 1000 ]} true)]%Z.

(** A browser in a zone one hour east of UTC that is on summer time, one
    hour more, from instant 10000000000 on; the page of a first visit there,
    initialised and waiting for consent. *)
Definition summerFrom (start : Z) (t : Z) (isUTC : bool) : Z :=
  let local_start := (start + 3600000)%Z in
  if (if isUTC then start <=? t else local_start <=? t)%Z then 7200000%Z else 3600000%Z.

Definition awaitingInZone : World :=
  mkWorld (state awaitingConsent) (dataLayer awaitingConsent) true None [] [] [] true true
          (summerFrom 10000000000).

(** *** Engagement time ([setupEngagementTracking]) *)

(** The three variables the listeners close over. *)
Record Engagement := mkEngagement {
  startTime : Z;
  isActive : bool;
  totalEngagementTime : Z;
}.

(** [now] is [Date.now()] when the function runs. *)
Definition setupEngagementTracking (now : Z) : Engagement := mkEngagement now true 0.

(** The [blur] and [visibilitychange] listener; [away] is
    [document.hidden || !document.hasFocus()]. *)
Definition onActivityChange (away : bool) (now : Z) (e : Engagement) : Engagement :=
  if away then
    if isActive e
    then mkEngagement (startTime e) false (totalEngagementTime e + (now - startTime e))
    else e
  else
    if negb (isActive e)
    then mkEngagement now true (totalEngagementTime e)
    else e.

(** The [beforeunload] listener: the variables afterwards and the event it
    tracks, if any, with [immediate] set. *)
Definition onBeforeUnload (now : Z) (e : Engagement) : Engagement * option Event :=
  let total := if isActive e
               then (totalEngagementTime e + (now - startTime e))%Z
               else totalEngagementTime e in
  (mkEngagement (startTime e) (isActive e) total,
   if (0 <? total)%Z
   then Some (TrackEvent "user_engagement" {[ "engagement_time_msec" := VNumber total ]} true)
   else None).

(** A visit: the page is set up at [t0], the listener runs for each change
    with its clock reading, and the page is left at [tEnd]. *)
Definition engagementOf (t0 : Z) (changes : list (Z * bool)) (tEnd : Z)
    : Engagement * option Event :=
  onBeforeUnload tEnd
    (foldl (λ e c, onActivityChange c.2 c.1 e) (setupEngagementTracking t0) changes).

(** The clock does not run backwards from [t] through [ts]. *)
Fixpoint monotone (t : Z) (ts : list Z) : bool :=
  match ts with
  | [] => true
  | t' :: ts => (t <=? t')%Z && monotone t' ts
  end.

(** A visit with two spells away from the page. *)
Definition twoSpells : list (Z * bool) :=
  [(4000, true); (4500, true); (9000, false); (12000, false); (15000, true);
   (21000, false)]%Z.

End Analytics.

(** ** Lazy image loading (src/unnamed/part_001) *)

Module LazyLoading.

Record Config := mkConfig {
  maxRetries : nat;
  retryDelay : nat;
  fadeInDuration : nat;
  imageClass : string;        (* the class of [imageSelector]; it also asks for [data-src] *)
  placeholderClass : string;
  loadedClass : string;
  errorClass : string;
  fallbackImage : string;
  errorImage : string;
}.

(** The two data URIs are abbreviated to their media type and a name. *)
Definition CONFIG : Config :=
  mkConfig 3 1000 400
           "workout-card__image"
           "workout-card__image--loading"
           "workout-card__image--loaded"
           "workout-card__image--error"
           "data:image/svg+xml,fallback"
           "data:image/svg+xml,error".

(** An image element: [src] and [alt] are the attributes of these names. *)
Record Image := mkImage {
  node : Element;
  style : gmap string string;
}.

Definition on_node (f : Element → Element) (i : Image) : Image :=
  mkImage (f (node i)) (style i).

Definition set_style (property value : string) (i : Image) : Image :=
  mkImage (node i) (<[property := value]> (style i)).

(** Images are told apart by identity, here a number. *)
Record State := mkState {
  observer : option (gset nat);       (* the observer and what it observes *)
  loadingImages : gset nat;
  retryCount : gmap nat nat;
  prefersReducedMotion : bool;
}.

(** [loadImageWithRetry] is asynchronous: a call runs as far as its first
    [await] and returns to its caller; it goes on when what it awaits has
    settled.  Every call is recorded with where it stands. *)
Inductive Phase :=
| AwaitsPreload                 (* at [await preloadImage(src)] *)
| AwaitsDelay                   (* at [await delay(...)], its preload having failed *)
| Returned (loaded : bool).     (* ended, [finally] included, its preload loaded or failed *)

Record Call := mkCall {
  target : nat;                 (* [img] *)
  url : string;                 (* [src] *)
  currentRetries : nat;
  phase : Phase;
}.

Record World := mkWorld {
  state : State;
  images : gmap nat Image;            (* the image elements of the document *)
  calls : list Call;                  (* the calls of [loadImageWithRetry], oldest first;
                                         each makes one preload when it starts *)
  waits : list (nat * nat);           (* delays started: for which image, milliseconds *)
  supportsIntersectionObserver : bool;
}.

Definition with_state (s : State) (w : World) : World :=
  mkWorld s (images w) (calls w) (waits w) (supportsIntersectionObserver w).

Definition set_observer (o : option (gset nat)) (w : World) : World :=
  let s := state w in
  with_state (mkState o (loadingImages s) (retryCount s) (prefersReducedMotion s)) w.

Definition set_loadingImages (l : gset nat) (w : World) : World :=
  let s := state w in
  with_state (mkState (observer s) l (retryCount s) (prefersReducedMotion s)) w.

Definition set_retryCount (r : gmap nat nat) (w : World) : World :=
  let s := state w in
  with_state (mkState (observer s) (loadingImages s) r (prefersReducedMotion s)) w.

Definition set_prefersReducedMotion (b : bool) (w : World) : World :=
  let s := state w in
  with_state (mkState (observer s) (loadingImages s) (retryCount s) b) w.

Definition set_calls (cs : list Call) (w : World) : World :=
  mkWorld (state w) (images w) cs (waits w) (supportsIntersectionObserver w).

(** The call at position [k] moves on to phase [p]. *)
Definition set_phase (p : Phase) (c : Call) : Call :=
  mkCall (target c) (url c) (currentRetries c) p.

Definition move_call (k : nat) (p : Phase) (w : World) : World :=
  set_calls (alter (set_phase p) k (calls w)) w.

(** A write to the element [img]. *)
Definition update_image (f : Image → Image) (img : nat) (w : World) : World :=
  mkWorld (state w) (alter f img (images w)) (calls w) (waits w)
          (supportsIntersectionObserver w).

(** [delay(ms)] sets a timer; the caller waits for it. *)
Definition delay (img : nat) (ms : nat) (w : World) : World :=
  mkWorld (state w) (images w) (calls w) (waits w ++ [(img, ms)])
          (supportsIntersectionObserver w).

Section Loader.

Variable cfg : Config.

Definition show_loaded (src : string) (reducedMotion : bool) (i : Image) : Image :=
  let i := on_node (setAttribute "src" src) i in
  let i := on_node (removeAttribute "data-src") i in
  let i := on_node (classList_remove (placeholderClass cfg)) i in
  let i := on_node (classList_add (loadedClass cfg)) i in
  let i := on_node (removeAttribute "aria-busy") i in
  let alt := default "" (attributes (node i) !! "alt") in
  let i := on_node (setAttribute "aria-label"
                      (if bool_decide (alt = "") then "Workout plan image" else alt)) i in
  if reducedMotion then i
  else
    let i := set_style "opacity" "0" i in
    let i := set_style "transition"
               ("opacity " +:+ pretty (fadeInDuration cfg) +:+ "ms ease-in-out") i in
    set_style "opacity" "1" i.

Definition show_error (i : Image) : Image :=
  let i := on_node (setAttribute "src" (errorImage cfg)) i in
  let i := on_node (classList_remove (placeholderClass cfg)) i in
  let i := on_node (classList_add (errorClass cfg)) i in
  let i := on_node (removeAttribute "aria-busy") i in
  let i := on_node (setAttribute "aria-label" "Image failed to load") i in
  on_node (removeAttribute "data-src") i.

Definition handleImageError (img : nat) (w : World) : World :=
  update_image show_error img w.

(** The [finally] block. *)
Definition clear_loading (img : nat) (w : World) : World :=
  set_loadingImages (loadingImages (state w) ∖ {[ img ]}) w.

(** [loadImageWithRetry(img, src)] as far as its first [await]: the retry
    count is read and [preloadImage(src)] sets the request going. *)
Definition loadImageWithRetry (img : nat) (src : string) (w : World) : World :=
  let currentRetries := default 0 (retryCount (state w) !! img) in
  set_calls (calls w ++ [mkCall img src currentRetries AwaitsPreload]) w.

(** The call [c], at position [k], goes on after its preload has loaded:
    the rest of the [try] block, then [finally]. *)
Definition preloadResolved (k : nat) (c : Call) (w : World) : World :=
  let img := target c in
  let w := update_image (show_loaded (url c) (prefersReducedMotion (state w))) img w in
  let w := set_retryCount (delete img (retryCount (state w))) w in
  let w := clear_loading img w in
  move_call k (Returned true) w.

(** The call goes on after its preload has failed: the [catch] block, as
    far as [await delay(...)] when a retry is left, and otherwise to the
    end, [finally] included. *)
Definition preloadRejected (k : nat) (c : Call) (w : World) : World :=
  let img := target c in
  if bool_decide (currentRetries c < maxRetries cfg) then
    let w := set_retryCount
               (<[img := currentRetries c + 1]> (retryCount (state w))) w in
    let w := delay img (retryDelay cfg * 2 ^ currentRetries c) w in
    move_call k AwaitsDelay w
  else
    let w := handleImageError img w in
    let w := clear_loading img w in
    move_call k (Returned false) w.

(** The call goes on after its delay: [return loadImageWithRetry(img, src)]
    starts the next call, which runs as far as its own [await]; then the
    [finally] block of this call runs and the call ends. *)
Definition delayElapsed (k : nat) (c : Call) (w : World) : World :=
  let img := target c in
  let w := loadImageWithRetry img (url c) w in
  let w := clear_loading img w in
  move_call k (Returned false) w.

(** [processImage] does not wait for the call it starts. *)
Definition processImage (img : nat) (w : World) : World :=
  match images w !! img with
  | None => w
  | Some i =>
      if bool_decide (img ∈ loadingImages (state w))
         || negb (hasAttribute "data-src" (node i))
      then w
      else
        let src := default "" (attributes (node i) !! "data-src") in
        if bool_decide (src = "") then w
        else
          let w := set_loadingImages ({[ img ]} ∪ loadingImages (state w)) w in
          let w := update_image (on_node (setAttribute "aria-busy" "true")) img w in
          loadImageWithRetry img src w
  end.

(** One entry of the observer callback. *)
Definition handleIntersection (img : nat) (isIntersecting : bool) (w : World) : World :=
  if isIntersecting then
    let w := processImage img w in
    match observer (state w) with
    | Some observed => set_observer (Some (observed ∖ {[ img ]})) w
    | None => w
    end
  else w.

(** [document.querySelectorAll(CONFIG.imageSelector)], in document order. *)
Definition selectImages (w : World) : list nat :=
  List.filter
    (λ img, match images w !! img with
            | Some i => hasClass (imageClass cfg) (node i)
                        && hasAttribute "data-src" (node i)
            | None => false
            end)
    (map_to_list (images w)).*1.

Definition loadAllImagesImmediately (w : World) : World :=
  foldl (λ w img, processImage img w) w (selectImages w).

Definition initIntersectionObserver (w : World) : World :=
  if supportsIntersectionObserver w
  then set_observer (Some ∅) w
  else loadAllImagesImmediately w.

Definition prepare (i : Image) : Image :=
  let src := default "" (attributes (node i) !! "src") in
  let i := if bool_decide (src = "")
           then on_node (setAttribute "src" (fallbackImage cfg)) i else i in
  let i := on_node (classList_add (placeholderClass cfg)) i in
  on_node (setAttribute "loading" "lazy") i.

Definition observeImages (w : World) : World :=
  foldl (λ w img,
           let w := update_image prepare img w in
           match observer (state w) with
           | Some observed => set_observer (Some ({[ img ]} ∪ observed)) w
           | None => w
           end)
        w (selectImages w).

Definition cleanup (w : World) : World :=
  let w := match observer (state w) with
           | Some _ => set_observer None w
           | None => w
           end in
  set_retryCount ∅ (set_loadingImages ∅ w).

(** [init] on a document that is ready. *)
Definition init (w : World) : World :=
  observeImages (initIntersectionObserver w).

Definition reinitialize (w : World) : World := init (cleanup w).

(** What reaches the loader: an entry delivered to the observer callback,
    the preload of the call at position [k] loading or failing, the delay
    of that call running out, a call of the public API, [beforeunload], a
    change of the motion preference.  A preload or a delay settles once, for
    the call that waits for it. *)
Inductive Event :=
| Intersect (img : nat) (isIntersecting : bool)
| PreloadSettles (k : nat) (loaded : bool)
| DelayElapses (k : nat)
| ObserveImages
| Cleanup
| Reinitialize
| MotionChange (matches : bool).

Definition handle (e : Event) (w : World) : World :=
  match e with
  | Intersect img isIntersecting => handleIntersection img isIntersecting w
  | PreloadSettles k loaded =>
      match calls w !! k with
      | Some c =>
          match phase c with
          | AwaitsPreload =>
              if loaded then preloadResolved k c w else preloadRejected k c w
          | _ => w
          end
      | None => w
      end
  | DelayElapses k =>
      match calls w !! k with
      | Some c =>
          match phase c with
          | AwaitsDelay => delayElapsed k c w
          | _ => w
          end
      | None => w
      end
  | ObserveImages => observeImages w
  | Cleanup => cleanup w
  | Reinitialize => reinitialize w
  | MotionChange matches => set_prefersReducedMotion matches w
  end.

Fixpoint run (es : list Event) (w : World) : World :=
  match es with
  | [] => w
  | e :: es => run es (handle e w)
  end.

(** The permanent error state of an element: the error image is shown,
    the error class is set, and [data-src] is gone. *)
Definition errored (i : Image) : bool :=
  bool_decide (attributes (node i) !! "src" = Some (errorImage cfg))
  && hasClass (errorClass cfg) (node i)
  && negb (hasAttribute "data-src" (node i)).

Definition loaded (src : string) (i : Image) : bool :=
  bool_decide (attributes (node i) !! "src" = Some src)
  && hasClass (loadedClass cfg) (node i)
  && negb (hasAttribute "data-src" (node i)).

End Loader.

(** *** What is observed of a page *)

Definition pending (c : Call) : bool :=
  match phase c with Returned _ => false | _ => true end.

(** The preload of the call has failed, or has loaded. *)
Definition failed (c : Call) : bool :=
  match phase c with
  | AwaitsPreload => false
  | AwaitsDelay => true
  | Returned loaded => negb loaded
  end.

Definition succeeded (c : Call) : bool :=
  match phase c with Returned true => true | _ => false end.

Definition callsFor (img : nat) (w : World) : list Call :=
  filter (λ c, target c = img) (calls w).

(** The preloads made, for the whole page and for one image: element and URL. *)
Definition requestOf (c : Call) : nat * string := (target c, url c).

Definition requests (w : World) : list (nat * string) := requestOf <$> calls w.

Definition requestsFor (img : nat) (w : World) : list (nat * string) :=
  requestOf <$> callsFor img w.

Definition failuresFor (img : nat) (w : World) : nat :=
  length (filter (λ c, failed c = true) (callsFor img w)).

Definition loadsFor (img : nat) (w : World) : nat :=
  length (filter (λ c, succeeded c = true) (callsFor img w)).

Definition pendingFor (img : nat) (w : World) : nat :=
  length (filter (λ c, pending c = true) (callsFor img w)).

(** The delays awaited for one image, in milliseconds. *)
Definition waitsFor (img : nat) (w : World) : list nat :=
  (filter (λ d, d.1 = img) (waits w)).*2.

(** The backoff delays before the first [k] retries. *)
Definition backoff (cfg : Config) (k : nat) : list nat :=
  (λ r, retryDelay cfg * 2 ^ r) <$> seq 0 k.

(** The element [img] waits to be loaded from [src]: it carries that URL in
    [data-src] and is not marked as loading. *)
Definition waiting (img : nat) (src : string) (w : World) : Prop :=
  (∃ i, images w !! img = Some i ∧ attributes (node i) !! "data-src" = Some src) ∧
  src ≠ "" ∧ img ∉ loadingImages (state w).

(** The element [img] exists and has no [data-src] attribute. *)
Definition settled (img : nat) (w : World) : Prop :=
  ∃ i, images w !! img = Some i ∧ attributes (node i) !! "data-src" = None.

(** An event that leaves a load of [img] under way to itself: the loader is
    not cleaned up or initialised again, and the observer callback gets no
    further intersecting entry for the element. *)
Definition undisturbing (img : nat) (e : Event) : bool :=
  match e with
  | Cleanup | Reinitialize => false
  | Intersect i isIntersecting => negb (bool_decide (i = img) && isIntersecting)
  | _ => true
  end.

(** Preloads and delays that settle, the preloads as [outcome] tells by
    the position of the call. *)
Definition settles (outcome : nat → bool) (e : Event) : Prop :=
  match e with
  | PreloadSettles k loaded => loaded = outcome k
  | DelayElapses _ => True
  | _ => False
  end.

(** *** The calls of one load *)

(** The calls of a load from [src] whose last call has retry count [r] and
    stands at [ph]: the calls before it have returned after a failed
    preload. *)
Definition chain (img : nat) (src : string) (r : nat) (ph : Phase) : list Call :=
  ((λ j, mkCall img src j (Returned false)) <$> seq 0 r) ++ [mkCall img src r ph].

(** The page [w] as the load of [img] that started on [w0] sees it. *)
Definition Running (cfg : Config) (img : nat) (src : string) (w0 : World)
    (r : nat) (ph : Phase) (w : World) : Prop :=
  r ≤ maxRetries cfg ∧
  callsFor img w = callsFor img w0 ++ chain img src r ph ∧
  ∃ i, images w !! img = Some i ∧
    match ph with
    | AwaitsPreload =>
        waitsFor img w = waitsFor img w0 ++ backoff cfg r ∧
        attributes (node i) !! "data-src" = Some src ∧
        attributes (node i) !! "aria-busy" = Some "true" ∧
        (img ∈ loadingImages (state w) ↔ r = 0)
    | AwaitsDelay =>
        r < maxRetries cfg ∧
        waitsFor img w = waitsFor img w0 ++ backoff cfg (S r) ∧
        attributes (node i) !! "data-src" = Some src ∧
        attributes (node i) !! "aria-busy" = Some "true" ∧
        retryCount (state w) !! img = Some (S r) ∧
        (img ∈ loadingImages (state w) ↔ r = 0)
    | Returned true =>
        waitsFor img w = waitsFor img w0 ++ backoff cfg r ∧
        loaded cfg src i = true ∧
        attributes (node i) !! "aria-busy" = None ∧
        retryCount (state w) !! img = None ∧
        img ∉ loadingImages (state w)
    | Returned false =>
        r = maxRetries cfg ∧
        waitsFor img w = waitsFor img w0 ++ backoff cfg r ∧
        errored cfg i = true ∧
        attributes (node i) !! "aria-busy" = None ∧
        img ∉ loadingImages (state w)
    end.

(** A step that does not touch the load of [img]. *)
Definition Frame (img : nat) (w w' : World) : Prop :=
  callsFor img w' = callsFor img w ∧
  waitsFor img w' = waitsFor img w ∧
  retryCount (state w') !! img = retryCount (state w) !! img ∧
  (img ∈ loadingImages (state w') ↔ img ∈ loadingImages (state w)) ∧
  ∀ i, images w !! img = Some i →
       ∃ i', images w' !! img = Some i' ∧
             attributes (node i') !! "data-src" = attributes (node i) !! "data-src" ∧
             attributes (node i') !! "aria-busy" = attributes (node i) !! "aria-busy" ∧
             (attributes (node i) !! "data-src" = None → i' = i).

(** *** Example pages *)

(** A page with one workout image waiting to be loaded from [photo]. *)
Definition photo : string := "/images/plan-1.jpg".

Definition waitingImage : Image :=
  mkImage (mkElement {[ "workout-card__image" ]} {[ "data-src" := photo ]} false 0) ∅.

Definition onePhoto : World :=
  mkWorld (mkState None ∅ ∅ false) {[ 7 := waitingImage ]} [] [] true.

(** Its load when the first three preloads fail, and when the fourth fails
    as well. *)
Definition threeFailures : list Event :=
  [PreloadSettles 0 false; DelayElapses 0; ObserveImages;
   PreloadSettles 1 false; MotionChange true; DelayElapses 1;
   PreloadSettles 2 false; Intersect 7 false; DelayElapses 2].

Definition fourFailures : list Event := threeFailures ++ [PreloadSettles 3 false].

Definition fourthLoads : list Event := threeFailures ++ [PreloadSettles 3 true].

(** A second workout image, and a page with both in a browser without
    IntersectionObserver. *)
Definition photo2 : string := "/images/plan-2.jpg".

Definition waitingImage2 : Image :=
  mkImage (mkElement {[ "workout-card__image" ]}
                     {[ "data-src" := photo2; "alt" := "Strength plan" ]} false 0) ∅.

Definition oldBrowser : World :=
  mkWorld (mkState None ∅ ∅ true) {[ 7 := waitingImage; 9 := waitingImage2 ]} [] [] false.

(** Every second preload fails. *)
Definition flaky (k : nat) : bool := Nat.odd k.

End LazyLoading.

(** ** Mobile navigation (src/js/navigation.js) *)

Module Navigation.

Definition MENU_TRANSITION_DURATION : nat := 300.

(** Elements are told apart by identity, here a number. *)
Record State := mkState {
  isMenuOpen : bool;
  lastScrollPosition : Z;
  activeSection : option nat;
  focusableElements : list nat;
  lastFocusedElement : option nat;
  isReducedMotion : bool;
}.

(** The module state and the part of the document the menu code touches.
    [canFocus] holds the elements on which [focus()] takes effect (the body
    of a document, for one, is not among them); [menuFocusable] is what
    [getFocusableElements(elements.navMenu)] returns. *)
Record Page := mkPage {
  state : State;
  activeElement : option nat;        (* document.activeElement, [None] for null *)
  canFocus : gset nat;
  menuFocusable : list nat;
  navToggle : Element;
  navMenu : Element;
  navOverlay : Element;
  bodyOverflow : string;             (* document.body.style.overflow *)
  focusTimers : list nat;            (* delays of the pending focus timeouts *)
  innerWidth : Z;                    (* window.innerWidth *)
}.

Definition with_state (s : State) (p : Page) : Page :=
  mkPage s (activeElement p) (canFocus p) (menuFocusable p) (navToggle p)
         (navMenu p) (navOverlay p) (bodyOverflow p) (focusTimers p) (innerWidth p).

Definition set_isMenuOpen (b : bool) (s : State) : State :=
  mkState b (lastScrollPosition s) (activeSection s) (focusableElements s)
          (lastFocusedElement s) (isReducedMotion s).

Definition set_focusableElements (l : list nat) (s : State) : State :=
  mkState (isMenuOpen s) (lastScrollPosition s) (activeSection s) l
          (lastFocusedElement s) (isReducedMotion s).

Definition set_lastFocusedElement (e : option nat) (s : State) : State :=
  mkState (isMenuOpen s) (lastScrollPosition s) (activeSection s)
          (focusableElements s) e (isReducedMotion s).

Definition set_activeElement (e : option nat) (p : Page) : Page :=
  mkPage (state p) e (canFocus p) (menuFocusable p) (navToggle p)
         (navMenu p) (navOverlay p) (bodyOverflow p) (focusTimers p) (innerWidth p).

Definition set_focusTimers (l : list nat) (p : Page) : Page :=
  mkPage (state p) (activeElement p) (canFocus p) (menuFocusable p) (navToggle p)
         (navMenu p) (navOverlay p) (bodyOverflow p) l (innerWidth p).

(** [element.focus()] *)
Definition focus (e : nat) (p : Page) : Page :=
  if bool_decide (e ∈ canFocus p) then set_activeElement (Some e) p else p.

(** The attribute and style writes of [openMenu] ([visible = true]) and of
    [closeMenu] ([visible = false]). *)
Definition show_menu (visible : bool) (p : Page) : Page :=
  let yes := if visible then "true" else "false" in
  let no := if visible then "false" else "true" in
  mkPage (state p) (activeElement p) (canFocus p) (menuFocusable p)
         (setAttribute "aria-expanded" yes (navToggle p))
         (setAttribute "data-visible" yes (setAttribute "aria-hidden" no (navMenu p)))
         (setAttribute "data-visible" yes (setAttribute "aria-hidden" no (navOverlay p)))
         (if visible then "hidden" else "")
         (focusTimers p) (innerWidth p).

Definition openMenu (p : Page) : Page :=
  if isMenuOpen (state p) then p
  else
    let s := set_isMenuOpen true (state p) in
    let s := set_lastFocusedElement (activeElement p) s in
    let p := show_menu true (with_state s p) in
    let p := with_state (set_focusableElements (menuFocusable p) (state p)) p in
    if bool_decide (0 < length (focusableElements (state p)))
    then set_focusTimers (focusTimers p ++ [MENU_TRANSITION_DURATION]) p
    else p.

(** The callback of the timeout set by [openMenu]: it reads the state when
    it runs; on an empty list the call on [undefined] throws, the error is
    not caught and changes nothing. *)
Definition focusFirst (p : Page) : Page :=
  match head (focusableElements (state p)) with
  | Some first => focus first p
  | None => p
  end.

Definition closeMenu (p : Page) : Page :=
  if negb (isMenuOpen (state p)) then p
  else
    let p := show_menu false (with_state (set_isMenuOpen false (state p)) p) in
    let p := match lastFocusedElement (state p) with
             | Some e => focus e p
             | None => p
             end in
    with_state (set_focusableElements [] (state p)) p.

Definition toggleMenu (p : Page) : Page :=
  if isMenuOpen (state p) then closeMenu p else openMenu p.

(** [trapFocus] on a Tab key. *)
Definition trapFocus (shiftKey : bool) (p : Page) : Page :=
  match head (focusableElements (state p)), last (focusableElements (state p)) with
  | Some firstElement, Some lastElement =>
      if shiftKey && bool_decide (activeElement p = Some firstElement)
      then focus lastElement p
      else if negb shiftKey && bool_decide (activeElement p = Some lastElement)
      then focus firstElement p
      else p
  | _, _ => p
  end.

Inductive Key := Escape | Tab | OtherKey.

Definition handleKeyDown (key : Key) (shiftKey : bool) (p : Page) : Page :=
  match key with
  | Escape => if isMenuOpen (state p) then closeMenu p else p
  | Tab => if isMenuOpen (state p) then trapFocus shiftKey p else p
  | OtherKey => p
  end.

Definition handleResize (p : Page) : Page :=
  if (1024 <=? innerWidth p)%Z && isMenuOpen (state p) then closeMenu p else p.

(** What happens on the page while the menu is open and stays open: a focus
    timeout expires, the user moves the focus, a Tab key is pressed. *)
Inductive MenuUse :=
| TimerFires
| FocusMoves (e : nat)
| TabPressed (shiftKey : bool).

Definition use (p : Page) (u : MenuUse) : Page :=
  match u with
  | TimerFires =>
      match focusTimers p with
      | _ :: rest => focusFirst (set_focusTimers rest p)
      | [] => p
      end
  | FocusMoves e => focus e p
  | TabPressed shiftKey => handleKeyDown Tab shiftKey p
  end.

(** The focus is on one of the focusable elements of the menu. *)
Definition focusInMenu (p : Page) : bool :=
  match activeElement p with
  | Some a => bool_decide (a ∈ menuFocusable p)
  | None => false
  end.

(** What [use] leaves alone. *)
Definition same_session (p p' : Page) : Prop :=
  isMenuOpen (state p') = isMenuOpen (state p) ∧
  lastFocusedElement (state p') = lastFocusedElement (state p) ∧
  canFocus p' = canFocus p.

(** A page with a toggle button (1), two menu links (2, 3) and a body (0),
    and the same page with a menu that holds no focusable element. *)
Definition closedState : State := mkState false 0 None [] None false.

Definition withLinks : Page :=
  mkPage closedState (Some 1) {[ 1; 2; 3 ]} [2; 3]
         (mkElement ∅ ∅ false 0) (mkElement ∅ ∅ false 0) (mkElement ∅ ∅ false 0)
         "" [] 390.

Definition withoutLinks : Page :=
  mkPage closedState (Some 1) {[ 1 ]} []
         (mkElement ∅ ∅ false 0) (mkElement ∅ ∅ false 0) (mkElement ∅ ∅ false 0)
         "" [] 390.

(** *** The document around the menu *)

Definition SCROLL_OFFSET : Z := 80.
Definition SCROLL_THRESHOLD : Z := 50.

(** A navigation link: its [href] attribute ([""] when absent), its text
    and the rest of the element. *)
Record Link := mkLink {
  href : string;
  textContent : string;
  anchor : Element;
}.

(** A [section[id]] element: its [id] attribute and its [offsetTop]. *)
Record PageSection := mkPageSection {
  sectionId : string;
  offsetTop : Z;
}.

(** [targets] maps the id of every element that has one to the distance of
    its top from the top of the document. *)
Record Document := mkDocument {
  page : Page;
  header : Element;
  navLinks : list Link;
  sections : list PageSection;          (* in document order *)
  targets : gmap string Z;
  pageYOffset : Z;                      (* window.pageYOffset *)
  scrollRequests : list Z;              (* the [top] of each scrollTo call *)
  locationHash : string;                (* set through history.pushState *)
}.

Definition on_page (f : Page → Page) (d : Document) : Document :=
  mkDocument (f (page d)) (header d) (navLinks d) (sections d) (targets d)
             (pageYOffset d) (scrollRequests d) (locationHash d).

Definition set_header (h : Element) (d : Document) : Document :=
  mkDocument (page d) h (navLinks d) (sections d) (targets d)
             (pageYOffset d) (scrollRequests d) (locationHash d).

Definition set_navLinks (l : list Link) (d : Document) : Document :=
  mkDocument (page d) (header d) l (sections d) (targets d)
             (pageYOffset d) (scrollRequests d) (locationHash d).

Definition set_pageYOffset (y : Z) (d : Document) : Document :=
  mkDocument (page d) (header d) (navLinks d) (sections d) (targets d)
             y (scrollRequests d) (locationHash d).

Definition set_scrollRequests (l : list Z) (d : Document) : Document :=
  mkDocument (page d) (header d) (navLinks d) (sections d) (targets d)
             (pageYOffset d) l (locationHash d).

Definition set_locationHash (h : string) (d : Document) : Document :=
  mkDocument (page d) (header d) (navLinks d) (sections d) (targets d)
             (pageYOffset d) (scrollRequests d) h.

Definition set_lastScrollPosition (y : Z) (s : State) : State :=
  mkState (isMenuOpen s) y (activeSection s) (focusableElements s)
          (lastFocusedElement s) (isReducedMotion s).

Definition set_activeSection (a : option nat) (s : State) : State :=
  mkState (isMenuOpen s) (lastScrollPosition s) a (focusableElements s)
          (lastFocusedElement s) (isReducedMotion s).

Definition set_isReducedMotion (b : bool) (s : State) : State :=
  mkState (isMenuOpen s) (lastScrollPosition s) (activeSection s)
          (focusableElements s) (lastFocusedElement s) b.

Definition set_innerWidth (width : Z) (p : Page) : Page :=
  mkPage (state p) (activeElement p) (canFocus p) (menuFocusable p) (navToggle p)
         (navMenu p) (navOverlay p) (bodyOverflow p) (focusTimers p) width.

Definition initializeAriaAttributes (p : Page) : Page :=
  mkPage (state p) (activeElement p) (canFocus p) (menuFocusable p)
         (setAttribute "aria-label" "Toggle navigation menu"
            (setAttribute "aria-expanded" "false" (navToggle p)))
         (setAttribute "data-visible" "false" (setAttribute "aria-hidden" "true" (navMenu p)))
         (setAttribute "data-visible" "false"
            (setAttribute "aria-hidden" "true" (navOverlay p)))
         (bodyOverflow p) (focusTimers p) (innerWidth p).

(** [activeLink] is the position of the link in [navLinks]. *)
Definition unmark_link (l : Link) : Link :=
  mkLink (href l) (textContent l)
         (setAttribute "aria-label" (textContent l) (classList_remove "active" (anchor l))).

Definition mark_link (l : Link) : Link :=
  mkLink (href l) (textContent l)
         (setAttribute "aria-label" (textContent l +:+ " (current section)")
            (classList_add "active" (anchor l))).

Definition updateActiveNavLink (activeLink : nat) (d : Document) : Document :=
  set_navLinks (alter mark_link activeLink (unmark_link <$> navLinks d)) d.

(** The loop of [getCurrentSection]: the positions below [n], from the
    highest down. *)
Fixpoint lastReached (secs : list PageSection) (scrollPosition : Z) (n : nat)
    : option nat :=
  match n with
  | 0 => None
  | S i =>
      match secs !! i with
      | Some s => if (offsetTop s <=? scrollPosition)%Z then Some i
                  else lastReached secs scrollPosition i
      | None => lastReached secs scrollPosition i
      end
  end.

Definition getCurrentSection (d : Document) : option nat :=
  let scrollPosition := (pageYOffset d + SCROLL_OFFSET + 100)%Z in
  match lastReached (sections d) scrollPosition (length (sections d)) with
  | Some i => Some i
  | None => match sections d with
            | _ :: _ => Some 0
            | [] => None
            end
  end.

Definition updateActiveNavOnScroll (d : Document) : Document :=
  match getCurrentSection d with
  | Some cur =>
      if bool_decide (activeSection (state (page d)) = Some cur) then d
      else
        let d := on_page (λ p, with_state (set_activeSection (Some cur) (state p)) p) d in
        let sid := default "" (sectionId <$> sections d !! cur) in
        if bool_decide (sid = "") then d
        else match list_find (λ l, href l = "#" +:+ sid) (navLinks d) with
             | Some (k, _) => updateActiveNavLink k d
             | None => d
             end
  | None => d
  end.

Definition handleScroll (d : Document) : Document :=
  let y := pageYOffset d in
  let d := set_header (if (SCROLL_THRESHOLD <? y)%Z
                       then classList_add "scrolled" (header d)
                       else classList_remove "scrolled" (header d)) d in
  let d := updateActiveNavOnScroll d in
  on_page (λ p, with_state (set_lastScrollPosition y (state p)) p) d.

(** [href.startsWith('#')] and [href.substring(1)]. *)
Definition fragment (href : string) : option string :=
  match href with
  | String c rest => if bool_decide (String c "" = "#") then Some rest else None
  | EmptyString => None
  end.

(** [document.getElementById]: no element has the empty id. *)
Definition getElementById (targetId : string) (d : Document) : option Z :=
  if bool_decide (targetId = "") then None else targets d !! targetId.

(** A click on the link at position [k]. *)
Definition handleNavLinkClick (k : nat) (d : Document) : Document :=
  match navLinks d !! k with
  | None => d
  | Some l =>
      match fragment (href l) ≫= λ targetId, getElementById targetId d with
      | None => d
      | Some top =>
          let d := if isMenuOpen (state (page d)) then on_page closeMenu d else d in
          let d := set_scrollRequests (scrollRequests d ++ [(top - SCROLL_OFFSET)%Z]) d in
          let d := updateActiveNavLink k d in
          set_locationHash (href l) d
      end
  end.

(** What the page delivers to the module once it is initialised.  [Scroll]
    and [Resize] are runs of the throttled handlers, with the scroll offset
    and the window width at that time. *)
Inductive Event :=
| ToggleClick
| OverlayClick
| LinkClick (k : nat)
| Scroll (y : Z)
| KeyDown (key : Key) (shiftKey : bool)
| Resize (width : Z)
| FocusTimer
| FocusMove (e : nat)
| MotionChange (matches : bool).

Definition handle (e : Event) (d : Document) : Document :=
  match e with
  | ToggleClick => on_page toggleMenu d
  | OverlayClick => on_page closeMenu d
  | LinkClick k => handleNavLinkClick k d
  | Scroll y => handleScroll (set_pageYOffset y d)
  | KeyDown key shiftKey => on_page (handleKeyDown key shiftKey) d
  | Resize width => on_page (λ p, handleResize (set_innerWidth width p)) d
  | FocusTimer => on_page (λ p, use p TimerFires) d
  | FocusMove e => on_page (λ p, use p (FocusMoves e)) d
  | MotionChange matches =>
      on_page (λ p, with_state (set_isReducedMotion matches (state p)) p) d
  end.

Definition run (es : list Event) (d : Document) : Document := foldl (λ d e, handle e d) d es.

(** The ARIA state, the body scroll lock and the focus list agree with
    [isMenuOpen]. *)
Definition menu_consistent (p : Page) : Prop :=
  let opened := isMenuOpen (state p) in
  let yes := if opened then "true" else "false" in
  let no := if opened then "false" else "true" in
  attributes (navToggle p) !! "aria-expanded" = Some yes ∧
  attributes (navMenu p) !! "aria-hidden" = Some no ∧
  attributes (navMenu p) !! "data-visible" = Some yes ∧
  attributes (navOverlay p) !! "aria-hidden" = Some no ∧
  attributes (navOverlay p) !! "data-visible" = Some yes ∧
  (opened = true → bodyOverflow p = "hidden") ∧
  (opened = false → focusableElements (state p) = []).

(** [p'] has the menu of [p]: the flag, the three elements, the scroll lock
    and the focus list. *)
Definition same_menu (p p' : Page) : Prop :=
  isMenuOpen (state p') = isMenuOpen (state p) ∧
  navToggle p' = navToggle p ∧ navMenu p' = navMenu p ∧
  navOverlay p' = navOverlay p ∧ bodyOverflow p' = bodyOverflow p ∧
  focusableElements (state p') = focusableElements (state p).

Definition linkIsActive (l : Link) : bool := hasClass "active" (anchor l).

(** The links show [cur] as the current one: the link at that position, and
    no other, carries the active class and the label of the current
    section; every other link is labelled with its text. *)
Definition links_show (cur : option nat) (d : Document) : Prop :=
  ∀ j l, navLinks d !! j = Some l →
    linkIsActive l = bool_decide (cur = Some j) ∧
    attributes (anchor l) !! "aria-label" =
      Some (if bool_decide (cur = Some j)
            then textContent l +:+ " (current section)" else textContent l).

(** Where the links lead and what they say. *)
Definition linkTexts (d : Document) : list (string * string) :=
  (λ l, (href l, textContent l)) <$> navLinks d.

(** A landing page: four sections, a link for three of them and one link
    that leaves the page. *)
Definition plainLink (target text : string) : Link :=
  mkLink target text (mkElement ∅ ∅ false 0).

Definition landing : Document :=
  mkDocument (initializeAriaAttributes withLinks) (mkElement ∅ ∅ false 0)
             [plainLink "#features" "Features"; plainLink "#pricing" "Pricing";
              plainLink "https://example.com/blog" "Blog"; plainLink "#contact" "Contact"]
             [mkPageSection "hero" 0; mkPageSection "features" 700;
              mkPageSection "pricing" 1500; mkPageSection "contact" 2400]
             {[ "hero" := 0%Z; "features" := 700%Z; "pricing" := 1500%Z;
                "contact" := 2400%Z ]}
             0 [] "".

(** The landing page after a first click on its first link. *)
Definition browsing : Document := handle (LinkClick 0) landing.

Definition visit : list Event :=
  [Scroll 0; ToggleClick; FocusTimer; KeyDown Tab false; LinkClick 1; Scroll 1420;
   ToggleClick; Resize 1280; Scroll 2300; KeyDown Escape false; LinkClick 2].

(** *** [throttle] *)

Section Throttled.

Context {A : Type}.          (* the arguments of the throttled function *)
Variable delay : Z.

(** The variables of one [throttle] closure: the timeout that is set and
    has not fired, with the call time and the arguments its callback holds;
    [lastExecTime]; and, for observation, the arguments of the executions
    so far. *)
Record Throttle := mkThrottle {
  pending : option (Z * A);
  lastExecTime : Z;
  executed : list A;
}.

Definition throttle : Throttle := mkThrottle None 0 [].

(** A call of the throttled function at clock reading [now].  An
    execution at once leaves a timeout that is set alone. *)
Definition throttled (now : Z) (args : A) (s : Throttle) : Throttle :=
  if (delay <=? now - lastExecTime s)%Z
  then mkThrottle (pending s) now (executed s ++ [args])
  else mkThrottle (Some (now, args)) (lastExecTime s) (executed s).

(** The timeout fires: [execute] runs with the call time it closed over. *)
Definition timeoutFires (s : Throttle) : Throttle :=
  match pending s with
  | Some (currentTime, args) => mkThrottle None currentTime (executed s ++ [args])
  | None => s
  end.

Inductive Tick :=
| Call (now : Z) (args : A)
| TimeoutFires.

Definition tick (s : Throttle) (t : Tick) : Throttle :=
  match t with
  | Call now args => throttled now args s
  | TimeoutFires => timeoutFires s
  end.

End Throttled.

(** Scroll events 40 ms apart, throttled to 100 ms, with a late timer. *)
Definition scrolling : list (@Tick Z) :=
  [Call 5000 0; Call 5040 120; Call 5080 260; TimeoutFires; Call 5120 410;
   Call 5160 480; TimeoutFires]%Z.

End Navigation.

(** ** Link tracking (src/unnamed/part_001, second module) *)

Module LinkTracking.

Definition DEBOUNCE_DELAY : Z := 300.

(** [isDuplicateClick(key)] with [now] the value of [Date.now()] and the map
    [state.lastClickTime]: the answer and the map afterwards.  A recorded
    time of 0 is falsy and counts as no record. *)
Definition isDuplicateClick (key : string) (now : Z) (lastClickTime : gmap string Z)
    : bool * gmap string Z :=
  match lastClickTime !! key with
  | Some lastClick =>
      if negb (lastClick =? 0)%Z && (now - lastClick <? DEBOUNCE_DELAY)%Z
      then (true, lastClickTime)
      else (false, <[key := now]> lastClickTime)
  | None => (false, <[key := now]> lastClickTime)
  end.

(** [duplicates] lists the answers of successive calls, each for a click
    given by its key and the clock reading of the call. *)
Fixpoint duplicates (clicks : list (string * Z)) (lastClickTime : gmap string Z)
    : list bool :=
  match clicks with
  | [] => []
  | (key, now) :: clicks =>
      let '(dup, m) := isDuplicateClick key now lastClickTime in
      dup :: duplicates clicks m
  end.

(** The clock readings of the clicks on [key] that are not answered as
    duplicates, and so go on to be tracked. *)
Fixpoint trackedAt (key : string) (clicks : list (string * Z))
    (lastClickTime : gmap string Z) : list Z :=
  match clicks with
  | [] => []
  | (k, now) :: clicks =>
      let '(dup, m) := isDuplicateClick k now lastClickTime in
      if negb dup && bool_decide (k = key)
      then now :: trackedAt key clicks m
      else trackedAt key clicks m
  end.

(** Consecutive entries are at least [gap] apart. *)
Definition spaced (gap : Z) (ts : list Z) : Prop :=
  ∀ i t1 t2, ts !! i = Some t1 → ts !! S i = Some t2 → (t1 + gap <= t2)%Z.

(** Impatient clicks on two badges. *)
Definition impatient : list (string * Z) :=
  [("app_badge_ios_footer", 1000); ("app_badge_ios_footer", 1100);
   ("app_badge_android_footer", 1150); ("app_badge_ios_footer", 1290);
   ("app_badge_ios_footer", 1310); ("app_badge_android_footer", 1500);
   ("app_badge_ios_footer", 1590); ("app_badge_ios_footer", 1700)]%Z.

End LinkTracking.

(** * Properties *)

(** ** TestimonialsCarousel *)

Module CarouselSpec.
Import Carousel.

Lemma same_position_trans c1 c2 c3 :
  same_position c1 c2 → same_position c2 c3 → same_position c1 c3.
Proof. unfold same_position. intros [-> ->] [-> ->]. done. Qed.

Lemma same_position_keeps c c' :
  same_position c c' → index_in_range c → keeps_range c c'.
Proof.
  unfold same_position, keeps_range, index_in_range, slideCount.
  intros [-> ->]. done.
Qed.

Lemma keeps_range_trans c1 c2 c3 :
  keeps_range c1 c2 → keeps_range c2 c3 → keeps_range c1 c3.
Proof. unfold keeps_range. intros [-> _] [-> ?]. done. Qed.

Ltac crush_position :=
  repeat case_match; simpl in *; simplify_eq; try done.

Lemma startAutoPlay_position c : same_position c (startAutoPlay c).
Proof. unfold startAutoPlay, same_position. crush_position. Qed.

Lemma stopAutoPlay_position c : same_position c (stopAutoPlay c).
Proof. unfold stopAutoPlay, same_position. crush_position. Qed.

Lemma resetAutoPlay_position c : same_position c (resetAutoPlay c).
Proof.
  unfold resetAutoPlay. case_match; [|done].
  eapply same_position_trans;
    [apply stopAutoPlay_position | apply startAutoPlay_position].
Qed.

Lemma updatePlayPauseButton_position c : same_position c (updatePlayPauseButton c).
Proof. unfold updatePlayPauseButton, same_position. crush_position. Qed.

Lemma handlePlayPauseClick_position c : same_position c (handlePlayPauseClick c).
Proof.
  unfold handlePlayPauseClick, play, pause. case_match.
  - eapply same_position_trans; [|apply updatePlayPauseButton_position].
    eapply same_position_trans; [|apply stopAutoPlay_position]. done.
  - eapply same_position_trans; [|apply updatePlayPauseButton_position].
    eapply same_position_trans; [|apply startAutoPlay_position]. done.
Qed.

Lemma updateUI_position c : same_position c (updateUI c).
Proof. unfold updateUI, same_position. simpl. by rewrite length_imap. Qed.

Lemma updateSlidePosition_some animate c :
  slides c ≠ [] → is_Some (updateSlidePosition animate c).
Proof.
  unfold updateSlidePosition. destruct (slides c); [done|]. simpl. eauto.
Qed.

Lemma updateSlidePosition_position animate c c' :
  updateSlidePosition animate c = Some c' → same_position c c'.
Proof.
  unfold updateSlidePosition, same_position.
  destruct (head (slides c)); simpl; [|done]. intros [= <-].
  by destruct animate.
Qed.

Lemma updateSlidePosition_slides animate c c' :
  updateSlidePosition animate c = Some c' → slides c' = slides c.
Proof.
  unfold updateSlidePosition.
  destruct (head (slides c)); simpl; [|done]. intros [= <-].
  by destruct animate.
Qed.

Lemma in_range_nonempty c : index_in_range c → slides c ≠ [].
Proof.
  unfold index_in_range, slideCount. intros H Hnil. rewrite Hnil in H.
  simpl in H. lia.
Qed.

(** A [goToSlide] that passes both guards: the index is taken and the UI
    is redrawn around it. *)
Lemma goToSlide_moves index c :
  (0 <= index < slideCount c)%Z →
  index ≠ currentIndex (state c) →
  isTransitioning (state c) = false →
  ∃ c1, goToSlide index c = Some (updateUI c1) ∧
        slides c1 = slides c ∧ currentIndex (state c1) = index ∧
        isTransitioning (state c1) = true.
Proof.
  intros Hr Hne Ht. unfold goToSlide. rewrite Ht, orb_false_r.
  destruct (Z.eqb_spec index (currentIndex (state c))) as [|_]; [done|].
  replace (index <? 0)%Z with false by lia.
  replace (slideCount c <=? index)%Z with false by lia. simpl.
  assert (slides c ≠ []) as Hs.
  { intros Hnil. unfold slideCount in Hr. rewrite Hnil in Hr. simpl in Hr. lia. }
  unfold updateSlidePosition. simpl. destruct (slides c) eqn:Heq; [done|].
  simpl. eexists. split; [done|]. simpl. by rewrite Heq.
Qed.

(** Every call of [goToSlide] on a carousel with slides returns, and either
    changes nothing or takes an index that is in range. *)
Lemma goToSlide_cases index c :
  slides c ≠ [] →
  ∃ c', goToSlide index c = Some c' ∧ length (slides c') = length (slides c) ∧
        (c' = c ∨ (currentIndex (state c') = index ∧ (0 <= index < slideCount c)%Z)).
Proof.
  intros Hne. unfold goToSlide.
  destruct (_ || _) eqn:Hguard; [by eauto|].
  destruct ((index <? 0)%Z || _) eqn:Hrange; [by eauto|].
  apply orb_false_elim in Hrange as [H0 Hn].
  apply Z.ltb_ge in H0. apply Z.leb_gt in Hn.
  destruct (updateSlidePosition_some true
              (with_state (set_isTransitioning true (set_currentIndex index (state c))) c))
    as [c1 Hc1]; [done|].
  rewrite Hc1. simpl. eexists. split; [done|].
  apply updateSlidePosition_position in Hc1 as [Hlen Hidx].
  destruct (updateUI_position c1) as [Hlen' Hidx'].
  split; [by rewrite Hlen', Hlen|].
  right. split; [|done]. by rewrite Hidx', Hidx.
Qed.

Lemma goToSlide_keeps index c :
  index_in_range c → ∃ c', goToSlide index c = Some c' ∧ keeps_range c c'.
Proof.
  intros Hin.
  destruct (goToSlide_cases index c (in_range_nonempty c Hin))
    as (c' & Hgo & Hlen & [-> | [Hidx Hr]]); eexists; (split; [done|]); [done|].
  split; [done|].
  unfold index_in_range, slideCount in *. rewrite Hidx, Hlen. done.
Qed.

Lemma goToPrevious_keeps c :
  index_in_range c → ∃ c', goToPrevious c = Some c' ∧ keeps_range c c'.
Proof.
  intros Hin. unfold goToPrevious. case_match; [by eexists|].
  by apply goToSlide_keeps.
Qed.

Lemma goToNext_keeps c :
  index_in_range c → ∃ c', goToNext c = Some c' ∧ keeps_range c c'.
Proof.
  intros Hin. unfold goToNext. case_match; [by eexists|].
  by apply goToSlide_keeps.
Qed.

Lemma fmap_resetAutoPlay_keeps c (r : option Carousel) :
  (∃ c', r = Some c' ∧ keeps_range c c') →
  ∃ c', resetAutoPlay <$> r = Some c' ∧ keeps_range c c'.
Proof.
  intros (c' & -> & Hk). simpl. eexists. split; [done|].
  eapply keeps_range_trans; [done|].
  apply same_position_keeps; [apply resetAutoPlay_position | apply Hk].
Qed.

Lemma handleTouchStart_position x c : same_position c (handleTouchStart x c).
Proof.
  unfold handleTouchStart. case_match; [done|].
  eapply same_position_trans; [|apply stopAutoPlay_position]. done.
Qed.

Lemma handleTouchMove_keeps x c :
  index_in_range c → ∃ c', handleTouchMove x c = Some c' ∧ keeps_range c c'.
Proof.
  intros Hin. unfold handleTouchMove. case_match; [by eexists|].
  pose proof (in_range_nonempty c Hin) as Hne.
  destruct (slides c) eqn:Hs; [done|]. simpl. eexists. split; [done|].
  unfold keeps_range, index_in_range, slideCount in *. simpl. by split.
Qed.

Lemma handleTouchEnd_keeps c :
  index_in_range c → ∃ c', handleTouchEnd c = Some c' ∧ keeps_range c c'.
Proof.
  intros Hin. unfold handleTouchEnd. case_match; [by eexists|].
  set (c0 := with_track _ _).
  assert (index_in_range c0) as Hin0 by done.
  assert (∃ c1, (if (swipeThreshold (config c0) <?
                       Z.abs (currentX (state c0) - startX (state c0)))%Z
                 then if (0 <? currentX (state c0) - startX (state c0))%Z
                      then goToPrevious c0 else goToNext c0
                 else updateSlidePosition true c0) = Some c1 ∧ keeps_range c0 c1)
    as (c1 & -> & Hk1).
  { repeat case_match.
    - by apply goToPrevious_keeps.
    - by apply goToNext_keeps.
    - destruct (updateSlidePosition_some true c0 (in_range_nonempty _ Hin0)) as [c1 Hc1].
      exists c1. split; [done|].
      apply same_position_keeps; [by eapply updateSlidePosition_position|done]. }
  simpl. eexists. split; [done|].
  eapply (keeps_range_trans c c0); [done|].
  eapply keeps_range_trans; [done|].
  apply same_position_keeps; [apply resetAutoPlay_position | apply Hk1].
Qed.

Lemma dispatch_keeps e c :
  index_in_range c → ∃ c', dispatch e c = Some c' ∧ keeps_range c c'.
Proof.
  intros Hin.
  assert (∀ c', same_position c c' → ∃ c'', Some c' = Some c'' ∧ keeps_range c c'')
    as Hsame.
  { intros c' Hp. exists c'. split; [done|]. by apply same_position_keeps. }
  assert (keeps_range c c) as Hrefl by done.
  destruct e; simpl.
  - by apply goToSlide_keeps.
  - by apply goToNext_keeps.
  - by apply goToPrevious_keeps.
  - case_match; [|by eexists].
    by apply fmap_resetAutoPlay_keeps, goToPrevious_keeps.
  - case_match; [|by eexists].
    by apply fmap_resetAutoPlay_keeps, goToNext_keeps.
  - case_match; [|by eexists].
    by apply fmap_resetAutoPlay_keeps, goToSlide_keeps.
  - apply Hsame. case_match; [apply handlePlayPauseClick_position|done].
  - case_match; [|by eexists]. destruct key; simpl.
    + by apply fmap_resetAutoPlay_keeps, goToPrevious_keeps.
    + by apply fmap_resetAutoPlay_keeps, goToNext_keeps.
    + by apply fmap_resetAutoPlay_keeps, goToSlide_keeps.
    + by apply fmap_resetAutoPlay_keeps, goToSlide_keeps.
    + apply Hsame, handlePlayPauseClick_position.
    + by eexists.
  - apply Hsame. case_match; [apply handleTouchStart_position|done].
  - case_match; [|by eexists]. by apply handleTouchMove_keeps.
  - case_match; [|by eexists]. by apply handleTouchEnd_keeps.
  - apply Hsame. unfold handleMouseEnter.
    repeat case_match; try done; apply stopAutoPlay_position.
  - apply Hsame. unfold handleMouseLeave.
    repeat case_match; try done; apply startAutoPlay_position.
  - apply Hsame. unfold handleFocus.
    repeat case_match; try done; apply stopAutoPlay_position.
  - apply Hsame. unfold handleBlur.
    repeat case_match; try done; apply startAutoPlay_position.
  - apply Hsame. done.
  - apply Hsame. unfold handleVisibilityChange.
    repeat case_match; try done;
      [apply stopAutoPlay_position | apply startAutoPlay_position].
  - apply Hsame. unfold onIntersection.
    case_match; [apply startAutoPlay_position | apply stopAutoPlay_position].
  - unfold onResize.
    destruct (updateSlidePosition_some false c (in_range_nonempty _ Hin)) as [c1 Hc1].
    exists c1. split; [done|].
    apply same_position_keeps; [by eapply updateSlidePosition_position|done].
  - unfold autoPlayTick. case_match; [|by eexists]. by apply goToNext_keeps.
Qed.

Lemma run_keeps es c :
  index_in_range c → ∃ c', run es c = Some c' ∧ keeps_range c c'.
Proof.
  revert c. induction es as [|e es IH]; intros c Hin; simpl; [by eexists|].
  destruct (dispatch_keeps e c Hin) as (c1 & -> & Hk1). simpl.
  destruct (IH c1) as (c2 & Hrun & Hk2); [apply Hk1|].
  exists c2. split; [done|]. by eapply keeps_range_trans.
Qed.

Lemma construct_initial o m t :
  m_track m = Some t → m_slides m ≠ [] →
  ∃ c, construct o m = Some c ∧
       currentIndex (state c) = 0%Z ∧ length (slides c) = length (m_slides m).
Proof.
  intros Ht Hs. unfold construct. rewrite Ht. simpl.
  rewrite bool_decide_eq_false_2 by done.
  assert (∀ c0, length (slides (updateUI (setupAccessibility c0))) = length (slides c0)
               ∧ currentIndex (state (updateUI (setupAccessibility c0)))
                 = currentIndex (state c0)) as Hinit.
  { intros c0. unfold updateUI, setupAccessibility, updatePlayPauseButton.
    simpl. rewrite length_imap. case_match; simpl; by rewrite length_imap. }
  match goal with |- context [updateUI (setupAccessibility ?c0)] =>
    destruct (Hinit c0) as [Hlen Hidx];
    pose proof (startAutoPlay_position (updateUI (setupAccessibility c0))) as [Hl Hi]
  end.
  eexists. split; [done|].
  case_match; simpl in *; split; congruence.
Qed.

(** *** Marking of the slides by [updateUI] *)

Lemma mark_current_observed cur j e :
  slideIsActive (mark_current cur j e) = bool_decide (Z.of_nat j = cur) ∧
  slideIsMarked (mark_current cur j e) = bool_decide (Z.of_nat j = cur).
Proof.
  unfold mark_current, slideIsActive, slideIsMarked, hasClass, hasAttribute.
  destruct (Z.eqb_spec (Z.of_nat j) cur) as [Heq|Hne]; simpl.
  - rewrite (bool_decide_eq_true_2 (Z.of_nat j = cur)) by done.
    rewrite lookup_insert_eq.
    rewrite (bool_decide_eq_true_2 (_ ∈ _)); [done|].
    by apply elem_of_union_l, elem_of_singleton.
  - rewrite (bool_decide_eq_false_2 (Z.of_nat j = cur)) by done.
    rewrite lookup_delete_eq.
    rewrite (bool_decide_eq_false_2 (_ ∈ _)); last first.
    { intros [_ Hn]%elem_of_difference. by apply Hn, elem_of_singleton. }
    rewrite (bool_decide_eq_false_2 (is_Some _)) by apply is_Some_None. done.
Qed.

(** Among the slides redrawn from position [k] on, the marked ones are
    counted: one when the current index falls among them, else none. *)
Lemma marked_count_from cur (l : list Element) k :
  length (List.filter slideIsMarked (imap (λ j, mark_current cur (k + j)) l)) =
  if bool_decide (Z.of_nat k <= cur < Z.of_nat (k + length l))%Z then 1 else 0.
Proof.
  revert k. induction l as [|e l IH]; intros k.
  - simpl. rewrite bool_decide_eq_false_2 by lia. done.
  - rewrite imap_cons.
    rewrite (imap_ext _ (λ j, mark_current cur (S k + j))); last first.
    { intros i x _. unfold compose. f_equal. lia. }
    cbn [List.filter].
    destruct (mark_current_observed cur (k + 0) e) as [_ ->].
    specialize (IH (S k)).
    destruct (decide (Z.of_nat (k + 0) = cur)) as [Hhere|Hhere];
      [rewrite (bool_decide_eq_true_2 _ Hhere)
      |rewrite (bool_decide_eq_false_2 _ Hhere)];
      cbn [length]; rewrite IH; repeat case_bool_decide; lia.
Qed.

Lemma updateUI_marks c :
  index_in_range c →
  (∀ j e, slides (updateUI c) !! j = Some e →
          slideIsActive e = bool_decide (Z.of_nat j = currentIndex (state c)) ∧
          slideIsMarked e = bool_decide (Z.of_nat j = currentIndex (state c))) ∧
  length (List.filter slideIsMarked (slides (updateUI c))) = 1.
Proof.
  intros Hin. unfold updateUI. simpl. split.
  - intros j e. rewrite list_lookup_imap.
    destruct (slides c !! j); simpl; [|done]. intros [= <-].
    apply mark_current_observed.
  - rewrite (imap_ext _ (λ j, mark_current (currentIndex (state c)) (0 + j)))
      by done.
    rewrite marked_count_from.
    unfold index_in_range, slideCount in Hin.
    rewrite bool_decide_eq_true_2 by lia. done.
Qed.

(** C1. For a carousel with slides, a slide index [i] in range and different
    from the current one, [goToSlide i] outside a transition returns with
    [currentIndex = i]; after its UI update the slide at position [i] has
    the class [is-active] and [aria-current="true"], no other slide has the
    class or the attribute, and the number of marked slides is one. *)
Theorem goToSlide_sets_index_one_active (c : Carousel) (i : Z) :
  (0 <= i < slideCount c)%Z →
  i ≠ currentIndex (state c) →
  isTransitioning (state c) = false →
  ∃ c', goToSlide i c = Some c' ∧
        currentIndex (state c') = i ∧
        length (slides c') = length (slides c) ∧
        (∀ j e, slides c' !! j = Some e →
                slideIsActive e = bool_decide (Z.of_nat j = i) ∧
                slideIsMarked e = bool_decide (Z.of_nat j = i)) ∧
        length (List.filter slideIsMarked (slides c')) = 1.
Proof.
  intros Hr Hne Ht.
  destruct (goToSlide_moves i c Hr Hne Ht) as (c1 & Hgo & Hs & Hi & _).
  exists (updateUI c1). split; [done|].
  destruct (updateUI_position c1) as [Hlen Hidx].
  assert (index_in_range c1) as Hin1.
  { unfold index_in_range, slideCount. rewrite Hs, Hi. done. }
  destruct (updateUI_marks c1 Hin1) as [Hmark Hcount].
  rewrite Hi in Hmark.
  split; [congruence|]. split; [by rewrite Hlen, Hs|]. by split.
Qed.

Lemma goToSlide_sets_index_one_active_witness :
  ∃ c', goToSlide 2 threeBuilt = Some c' ∧
        currentIndex (state c') = 2%Z ∧
        length (slides c') = length (slides threeBuilt) ∧
        (∀ j e, slides c' !! j = Some e →
                slideIsActive e = bool_decide (Z.of_nat j = 2%Z) ∧
                slideIsMarked e = bool_decide (Z.of_nat j = 2%Z)) ∧
        length (List.filter slideIsMarked (slides c')) = 1.
Proof.
  apply (goToSlide_sets_index_one_active threeBuilt 2); by vm_compute.
Defined.

(** C7. With three slides and looping enabled, outside a transition,
    [goToPrevious] at index 0 sets the index to 2 and [goToNext] at index 2
    sets it to 0. *)
Theorem three_slides_loop_wraps (c : Carousel) :
  length (slides c) = 3 →
  loop (config c) = true →
  isTransitioning (state c) = false →
  (currentIndex (state c) = 0%Z →
   ∃ c', goToPrevious c = Some c' ∧ currentIndex (state c') = 2%Z) ∧
  (currentIndex (state c) = 2%Z →
   ∃ c', goToNext c = Some c' ∧ currentIndex (state c') = 0%Z).
Proof.
  intros Hlen Hloop Ht. split; intros Hcur.
  - unfold goToPrevious. rewrite Ht, Hcur, Hloop. simpl.
    unfold slideCount. rewrite Hlen. simpl.
    destruct (goToSlide_moves 2 c) as (c1 & Hgo & _ & Hi & _);
      [unfold slideCount; lia | lia | done |].
    exists (updateUI c1). split; [done|].
    by destruct (updateUI_position c1) as [_ ->].
  - unfold goToNext. rewrite Ht, Hcur, Hloop. simpl.
    unfold slideCount. rewrite Hlen. simpl.
    destruct (goToSlide_moves 0 c) as (c1 & Hgo & _ & Hi & _);
      [unfold slideCount; lia | lia | done |].
    exists (updateUI c1). split; [done|].
    by destruct (updateUI_position c1) as [_ ->].
Qed.

Lemma three_slides_loop_wraps_witness :
  (∃ c', goToPrevious threeBuilt = Some c' ∧ currentIndex (state c') = 2%Z) ∧
  (∃ c', goToNext threeAtLast = Some c' ∧ currentIndex (state c') = 0%Z).
Proof.
  split.
  - apply (three_slides_loop_wraps threeBuilt); by vm_compute.
  - apply (three_slides_loop_wraps threeAtLast); by vm_compute.
Defined.

(** C8. A carousel built over at least one slide starts at index 0, and
    after every sequence of commands and events (direct, next and previous
    navigation, clicks, keys, touch gestures with their swipe resolution,
    auto-play ticks, transition ends, resizes, pauses) every handler has
    returned, the slide count is the one at construction and
    [0 <= currentIndex < slideCount]. *)
Theorem currentIndex_always_in_range (o : Options) (m : Markup) (t : Track) :
  m_track m = Some t →
  m_slides m ≠ [] →
  ∃ c0, construct o m = Some c0 ∧ currentIndex (state c0) = 0%Z ∧
        ∀ es, ∃ c, run es c0 = Some c ∧
                   length (slides c) = length (m_slides m) ∧
                   (0 <= currentIndex (state c) < slideCount c)%Z.
Proof.
  intros Ht Hs.
  destruct (construct_initial o m t Ht Hs) as (c0 & Hc0 & Hidx & Hlen).
  exists c0. split; [done|]. split; [done|]. intros es.
  assert (index_in_range c0) as Hin0.
  { unfold index_in_range, slideCount. rewrite Hidx, Hlen.
    destruct (m_slides m); [done|]. simpl. lia. }
  destruct (run_keeps es c0 Hin0) as (c & Hrun & Hl & Hin).
  exists c. split; [done|]. split; [congruence|done].
Qed.

Lemma currentIndex_always_in_range_witness :
  ∃ c0, construct noOptions threeSlides = Some c0 ∧ currentIndex (state c0) = 0%Z ∧
        ∀ es, ∃ c, run es c0 = Some c ∧
                   length (slides c) = length (m_slides threeSlides) ∧
                   (0 <= currentIndex (state c) < slideCount c)%Z.
Proof.
  apply (currentIndex_always_in_range noOptions threeSlides threeTrack);
    by vm_compute.
Defined.

(** C9. While [isTransitioning] is true, [goToSlide], [goToNext],
    [goToPrevious] and the start of a touch swipe return the carousel they
    were given: no field of the state, no DOM node and no timer changes. *)
Theorem navigation_is_noop_while_transitioning (c : Carousel) :
  isTransitioning (state c) = true →
  (∀ index, goToSlide index c = Some c) ∧
  goToNext c = Some c ∧
  goToPrevious c = Some c ∧
  (∀ clientX, handleTouchStart clientX c = c) ∧
  (∀ clientX, dispatch (TouchStart clientX) c = Some c).
Proof.
  intros Ht. unfold goToSlide, goToNext, goToPrevious, dispatch, handleTouchStart.
  rewrite Ht. split_and!; try done.
  - intros index. by rewrite orb_true_r.
  - intros clientX. by case_match.
Qed.

Lemma navigation_is_noop_while_transitioning_witness :
  (∀ index, goToSlide index threeMoving = Some threeMoving) ∧
  goToNext threeMoving = Some threeMoving ∧
  goToPrevious threeMoving = Some threeMoving ∧
  (∀ clientX, handleTouchStart clientX threeMoving = threeMoving) ∧
  (∀ clientX, dispatch (TouchStart clientX) threeMoving = Some threeMoving).
Proof.
  apply (navigation_is_noop_while_transitioning threeMoving). by vm_compute.
Defined.

End CarouselSpec.

(** ** Analytics client *)

Module AnalyticsSpec.
Import Analytics.

Lemma same_loader_refl w : same_loader w w.
Proof. by repeat split. Qed.


(** *** [trackEvent] in its three modes *)

Lemma trackEvent_invalid now params immediate w :
  trackEvent now "" params immediate w = w.
Proof. done. Qed.

Lemma trackEvent_queues now name params immediate w :
  name ≠ "" →
  negb (consentGiven (state w)) || blocked (state w) = true →
  trackEvent now name params immediate w =
  set_eventQueue (eventQueue (state w) ++ [stamped now name params]) w.
Proof.
  intros Hname Hmode. unfold trackEvent.
  rewrite bool_decide_eq_false_2 by done. by rewrite Hmode.
Qed.


Lemma trackEvent_loader now name params immediate w :
  same_loader w (trackEvent now name params immediate w).
Proof.
  unfold trackEvent, gtag.
  destruct (bool_decide _); [apply same_loader_refl|].
  destruct (_ || _); [by repeat split|].
  destruct (_ && _); [by repeat split|].
  destruct (dataLayer w); simpl; [by repeat split | apply same_loader_refl].
Qed.



(** Replaying a queue while events are being queued puts the entries with a
    valid name back, in order, behind the entries already there. *)
Lemma replay_requeues now (q : list QueueItem) w :
  negb (consentGiven (state w)) || blocked (state w) = true →
  foldl (λ w item, trackEvent now (eventName item) (eventParams item) false w) w q =
  set_eventQueue (eventQueue (state w) ++ (restamp now <$> filter validName q)) w.
Proof.
  revert w. induction q as [|item q IH]; intros w Hmode; simpl.
  - rewrite app_nil_r. by destruct w as [[] ?].
  - destruct (decide (eventName item = "")) as [Hempty|Hname].
    + rewrite Hempty at 1. rewrite trackEvent_invalid.
      rewrite filter_cons_False by (unfold validName; tauto). by apply IH.
    + rewrite trackEvent_queues by done.
      rewrite filter_cons_True by done. rewrite IH by done.
      simpl. rewrite <- app_assoc. done.
Qed.


Lemma sent_of_eventCalls now (l : list QueueItem) :
  omap (λ call, match call with
                | EventCall name params => Some (mkItem name params)
                | _ => None
                end) (eventCall now <$> l) = restamp now <$> l.
Proof. induction l as [|c l IH]; [done|]. simpl. f_equal. apply IH. Qed.

Lemma sentEvents_app now w dl (calls : list QueueItem) :
  dataLayer w = Some dl →
  sentEvents (set_dataLayer
                (Some (dl ++ (eventCall now <$> calls))) w) =
  sentEvents w ++ (restamp now <$> calls).
Proof.
  intros Hdl. unfold sentEvents. simpl. rewrite Hdl. simpl.
  rewrite omap_app. f_equal. apply sent_of_eventCalls.
Qed.






Lemma processQueuedEvents_requeues now w :
  negb (consentGiven (state w)) || blocked (state w) = true →
  processQueuedEvents now w =
  set_eventQueue (restamp now <$> filter validName (eventQueue (state w))) w.
Proof.
  intros Hmode. unfold processQueuedEvents. case_bool_decide as Hq.
  - rewrite Hq. simpl. destruct w as [[] ?]. simpl in *. by subst.
  - rewrite replay_requeues by done. simpl. by destruct w as [[] ?].
Qed.






(** C3, evaluated: the client is blocked after three failed loads with
    consent given, two events are tracked, and [processQueuedEvents] runs;
    the queue holds the same two events afterwards (stamped anew) and
    nothing was sent. *)
Lemma blocked_queue_is_retained :
  let w := trackAll twoCalls blockedWorld in
  let w' := processQueuedEvents 5000 w in
  (consentGiven (state w) = true ∧ blocked (state w) = true ∧
   loadAttempts (state w) = retryAttempts CONFIG) ∧
  eventQueue (state w) = queuedOf twoCalls ∧
  eventQueue (state w') = flushedOf 5000 twoCalls ∧
  eventQueue (state w') ≠ [] ∧
  sentEvents w' = sentEvents w ∧
  eventQueue (state (updateConsent CONFIG true 5000 w)) = flushedOf 5000 twoCalls.
Proof.
  vm_compute. repeat split; try done.
Qed.


(** *** The script loader *)

Section Loader.

Variable cfg : Config.

Lemma attempt_step_refl w : attempt_step cfg w w.
Proof. by left. Qed.


























(** *** A client that has given up stays blocked *)








End Loader.





(** *** Stored consent *)

Lemma trackEvent_storage x now name params immediate w :
  trackEvent now name params immediate (set_storedConsent x w) =
  set_storedConsent x (trackEvent now name params immediate w).
Proof.
  unfold trackEvent, gtag. simpl.
  destruct (bool_decide _); [done|]. destruct (_ || _); [done|].
  destruct (_ && _); [done|]. by destruct (dataLayer w).
Qed.

Lemma replay_storage x now (q : list QueueItem) w :
  foldl (λ w item, trackEvent now (eventName item) (eventParams item) false w)
        (set_storedConsent x w) q =
  set_storedConsent x
    (foldl (λ w item, trackEvent now (eventName item) (eventParams item) false w) w q).
Proof.
  revert w. induction q as [|item q IH]; intros w; [done|].
  simpl. rewrite trackEvent_storage. apply IH.
Qed.

Lemma processQueuedEvents_storage x now w :
  processQueuedEvents now (set_storedConsent x w) =
  set_storedConsent x (processQueuedEvents now w).
Proof.
  unfold processQueuedEvents. simpl. case_bool_decide; [done|].
  apply (replay_storage x now _ (set_eventQueue [] w)).
Qed.

Lemma loadGtagScript_storage cfg x now w :
  loadGtagScript cfg now (set_storedConsent x w) =
  set_storedConsent x (loadGtagScript cfg now w).
Proof.
  unfold loadGtagScript. simpl. case_bool_decide; [|done].
  change (set_blocked true (set_storedConsent x w))
    with (set_storedConsent x (set_blocked true w)).
  apply processQueuedEvents_storage.
Qed.

(** A page whose storage cannot be read runs [init] without regard to what
    the storage holds. *)
Lemma init_unreadable_storage cfg x now w :
  storageAvailable w = false →
  init cfg now (set_storedConsent x w) = set_storedConsent x (init cfg now w).
Proof.
  intros Hunav. unfold init, getStoredConsent. simpl. rewrite Hunav. simpl.
  destruct (initialized (state w)); [done|].
  change (initializeDataLayer cfg now (set_storedConsent x w))
    with (set_storedConsent x (initializeDataLayer cfg now w)).
  change (consentGiven (state (set_storedConsent x (initializeDataLayer cfg now w))))
    with (consentGiven (state (initializeDataLayer cfg now w))).
  destruct (_ || _); [|done]. by rewrite loadGtagScript_storage.
Qed.

(** C6. A stored consent record whose expiry is not after the clock reads
    as no record: [getStoredConsent] returns null for it as for an empty
    storage and removes it, and [init] leaves the client in the same state
    as on a page without a record: consent that was not given stays not
    given and no script load starts. *)
Theorem expired_consent_reads_as_absent (cfg : Config) (w : World) (now : Z)
    (consent : bool) (e : Z) :
  storedConsent w = Some (ConsentJSON consent (Some e)) →
  (e <= now)%Z →
  let absent := set_storedConsent None w in
  (getStoredConsent now w).1 = None ∧
  (getStoredConsent now absent).1 = None ∧
  (storageAvailable w = true → (getStoredConsent now w).2 = absent) ∧
  same_client (init cfg now w) (init cfg now absent) ∧
  (storageAvailable w = true → initialized (state w) = false →
   init cfg now w = init cfg now absent) ∧
  (initialized (state w) = false → consentGiven (state w) = false →
   consentGiven (state (init cfg now w)) = false ∧
   scripts (init cfg now w) = scripts w).
Proof.
  intros Hstored Hpast absent.
  assert ((now <? e)%Z = false) as Hlt by lia.
  assert (storageAvailable w = true → getStoredConsent now w = (None, absent)) as Hread.
  { intros Hav. unfold getStoredConsent. by rewrite Hav, Hstored, Hlt. }
  assert (getStoredConsent now absent = (None, absent)) as Habsent.
  { unfold getStoredConsent. simpl. by destruct (storageAvailable w). }
  assert (storageAvailable w = false → getStoredConsent now w = (None, w)) as Hunread.
  { intros Hav. unfold getStoredConsent. by rewrite Hav. }
  assert (storageAvailable w = true → initialized (state w) = false →
          init cfg now w = init cfg now absent) as Hinit.
  { intros Hav Hfresh. unfold init. simpl. rewrite Hfresh.
    by rewrite (Hread Hav), Habsent. }
  split; [|split; [|split; [|split; [|split]]]].
  - destruct (storageAvailable w) eqn:Hav; [by rewrite Hread|by rewrite Hunread].
  - by rewrite Habsent.
  - intros Hav. by rewrite Hread.
  - unfold same_client. destruct (storageAvailable w) eqn:Hav.
    + destruct (initialized (state w)) eqn:Hfresh; [|by rewrite Hinit].
      unfold init. simpl. by rewrite Hfresh.
    + unfold absent. by rewrite init_unreadable_storage.
  - done.
  - intros Hfresh Hnone. unfold init. rewrite Hfresh.
    destruct (storageAvailable w) eqn:Hav.
    + rewrite Hread by done. simpl. by rewrite Hnone.
    + rewrite Hunread by done. simpl. by rewrite Hnone.
Qed.

Lemma expired_consent_reads_as_absent_witness :
  let absent := set_storedConsent None expiredVisit in
  (getStoredConsent 1000 expiredVisit).1 = None ∧
  (getStoredConsent 1000 absent).1 = None ∧
  (getStoredConsent 1000 expiredVisit).2 = absent ∧
  same_client (init CONFIG 1000 expiredVisit) (init CONFIG 1000 absent) ∧
  init CONFIG 1000 expiredVisit = init CONFIG 1000 absent ∧
  consentGiven (state (init CONFIG 1000 expiredVisit)) = false ∧
  scripts (init CONFIG 1000 expiredVisit) = scripts expiredVisit.
Proof.
  destruct (expired_consent_reads_as_absent CONFIG expiredVisit 1000 true 500)
    as (Hread & Habsent & Hremoved & Hsame & Hinit & Hstate); [by vm_compute..|].
  split; [exact Hread|]. split; [exact Habsent|].
  split; [apply Hremoved; by vm_compute|]. split; [exact Hsame|].
  split; [apply Hinit; by vm_compute|].
  apply Hstate; by vm_compute.
Defined.

End AnalyticsSpec.

(** ** Lazy image loading *)

Module LazyLoadingSpec.
Import LazyLoading.

(** *** Lists of calls *)

Lemma filter_alter_out {A} (P : A → Prop) `{!∀ x, Decision (P x)} (f : A → A)
    (k : nat) (l : list A) :
  (∀ c, l !! k = Some c → ¬ P c ∧ ¬ P (f c)) →
  filter P (alter f k l) = filter P l.
Proof.
  revert k. induction l as [|x l IH]; intros k Hout; [done|].
  destruct k as [|k].
  - destruct (Hout x eq_refl) as [H1 H2].
    change (alter f 0 (x :: l)) with (f x :: l). rewrite !filter_cons.
    by rewrite !decide_False by done.
  - change (alter f (S k) (x :: l)) with (x :: alter f k l). rewrite !filter_cons. rewrite IH; [done|]. intros c Hc. by apply Hout.
Qed.

(** The one element of [filter P l] that satisfies [Q] is its last; altering
    it in [l] alters it there. *)
Lemma filter_alter_last {A} (P Q : A → Prop) `{!∀ x, Decision (P x)} (f : A → A)
    (k : nat) (l : list A) c xs y :
  l !! k = Some c → P c → P (f c) → Q c → Forall (λ x, ¬ Q x) xs →
  filter P l = xs ++ [y] →
  c = y ∧ filter P (alter f k l) = xs ++ [f y].
Proof.
  intros Hk HP HPf HQ. revert k xs Hk.
  induction l as [|x l IH]; intros k xs Hk Hxs Hfil; [done|].
  destruct k as [|k].
  - injection Hk as ->. rewrite filter_cons, decide_True in Hfil by done.
    change (alter f 0 (c :: l)) with (f c :: l).
    rewrite filter_cons, decide_True by done.
    destruct xs as [|x0 xs]; simpl in Hfil.
    + injection Hfil as -> Hnil. by rewrite Hnil.
    + injection Hfil as -> _. by apply Forall_cons in Hxs as [? _].
  - change ((x :: l) !! S k) with (l !! k) in Hk.
    change (alter f (S k) (x :: l)) with (x :: alter f k l).
    rewrite filter_cons in Hfil. rewrite filter_cons.
    destruct (decide (P x)) as [HPx|HPx].
    + destruct xs as [|x0 xs]; simpl in Hfil.
      * injection Hfil as -> Hnil.
        assert (c ∈ filter P l) as Hin.
        { apply list_elem_of_filter. split; [done|]. by eapply list_elem_of_lookup_2. }
        rewrite Hnil in Hin. by apply elem_of_nil in Hin.
      * injection Hfil as -> Hfil. apply Forall_cons in Hxs as [_ Hxs].
        destruct (IH k xs Hk Hxs Hfil) as [-> ->]. done.
    + by apply IH.
Qed.

Section Chain.

Variable cfg : Config.
Variable img : nat.

(** *** Steps that leave the load of [img] alone *)

Lemma loading_remove_other other (L : gset nat) :
  other ≠ img → img ∈ L ∖ {[ other ]} ↔ img ∈ L.
Proof.
  intros Hne. rewrite elem_of_difference, elem_of_singleton. intuition congruence.
Qed.

Lemma loading_add_other other (L : gset nat) :
  other ≠ img → img ∈ {[ other ]} ∪ L ↔ img ∈ L.
Proof.
  intros Hne. rewrite elem_of_union, elem_of_singleton. intuition congruence.
Qed.

Lemma frame_refl w : Frame img w w.
Proof.
  repeat split; try done. intros i Hi. by exists i.
Qed.

Lemma frame_trans w1 w2 w3 : Frame img w1 w2 → Frame img w2 w3 → Frame img w1 w3.
Proof.
  intros (Hc1 & Hw1 & Hr1 & Hl1 & Hi1) (Hc2 & Hw2 & Hr2 & Hl2 & Hi2).
  split; [congruence|]. split; [congruence|]. split; [congruence|].
  split; [by rewrite Hl2|].
  intros i Hi. destruct (Hi1 i Hi) as (i' & Hi' & Hd & Hb & Hsame).
  destruct (Hi2 i' Hi') as (i'' & Hi'' & Hd' & Hb' & Hsame').
  exists i''. split; [done|]. split; [congruence|]. split; [congruence|].
  intros Hnone. rewrite Hsame' by congruence. by apply Hsame.
Qed.

Lemma callsFor_move_other k p w :
  (∀ c, calls w !! k = Some c → target c ≠ img) →
  filter (λ c, target c = img) (alter (set_phase p) k (calls w)) = callsFor img w.
Proof.
  intros Hk. apply filter_alter_out. intros c Hc. split; simpl; by apply Hk.
Qed.

Lemma preloadResolved_other k c w :
  calls w !! k = Some c → target c ≠ img → Frame img w (preloadResolved cfg k c w).
Proof.
  intros Hk Hc. unfold Frame, preloadResolved, callsFor, waitsFor. simpl.
  split; [apply callsFor_move_other; intros c' Hc'; congruence|].
  split; [done|].
  split; [by rewrite lookup_delete_ne|].
  split; [by apply loading_remove_other|].
  intros i Hi. exists i. by rewrite lookup_alter_ne.
Qed.

Lemma preloadRejected_other k c w :
  calls w !! k = Some c → target c ≠ img → Frame img w (preloadRejected cfg k c w).
Proof.
  intros Hk Hc. unfold Frame, preloadRejected, callsFor, waitsFor.
  case_bool_decide; simpl.
  - split; [apply callsFor_move_other; intros c' Hc'; congruence|].
    split; [by rewrite filter_app, filter_cons_False, filter_nil, app_nil_r by done|].
    split; [by rewrite lookup_insert_ne|].
    split; [done|].
    intros i Hi. by exists i.
  - split; [apply callsFor_move_other; intros c' Hc'; congruence|].
    split; [done|]. split; [done|].
    split; [by apply loading_remove_other|].
    intros i Hi. exists i. by rewrite lookup_alter_ne.
Qed.

Lemma delayElapsed_other k c w :
  calls w !! k = Some c → target c ≠ img → Frame img w (delayElapsed k c w).
Proof.
  intros Hk Hc. unfold Frame, delayElapsed, callsFor, waitsFor. simpl.
  split.
  { rewrite filter_alter_out.
    - by rewrite filter_app, filter_cons_False, filter_nil, app_nil_r by done.
    - intros c' Hc'. rewrite lookup_app_l in Hc' by (by eapply lookup_lt_Some).
      simpl. split; congruence. }
  split; [done|]. split; [done|].
  split; [by apply loading_remove_other|].
  intros i Hi. by exists i.
Qed.

Lemma processImage_other other w : other ≠ img → Frame img w (processImage other w).
Proof.
  intros Hne. unfold processImage.
  destruct (images w !! other) as [i0|]; [|apply frame_refl].
  destruct (_ || _); [apply frame_refl|].
  case_bool_decide; [apply frame_refl|].
  unfold Frame, callsFor, waitsFor. simpl.
  split; [by rewrite filter_app, filter_cons_False, filter_nil, app_nil_r by done|].
  split; [done|]. split; [done|].
  split; [by apply loading_add_other|].
  intros i Hi. exists i. by rewrite lookup_alter_ne.
Qed.

Lemma processImage_settled w : settled img w → processImage img w = w.
Proof.
  intros (i & Hi & Hsrc). unfold processImage, hasAttribute. rewrite Hi, Hsrc.
  rewrite (bool_decide_eq_false_2 (is_Some _)) by (by intros [? ?]).
  by rewrite orb_true_r.
Qed.

Lemma set_observer_frame o w : Frame img w (set_observer o w).
Proof.
  repeat split; try done. intros i Hi. by exists i.
Qed.

Lemma handleIntersection_other other b w :
  other ≠ img ∨ b = false ∨ settled img w →
  Frame img w (handleIntersection other b w).
Proof.
  intros Hcase. unfold handleIntersection.
  destruct b; [|apply frame_refl].
  assert (Frame img w (processImage other w)) as Hp.
  { destruct (decide (other = img)) as [->|Hne].
    - destruct Hcase as [?|[?|Hs]]; [done|done|].
      rewrite processImage_settled by done. apply frame_refl.
    - by apply processImage_other. }
  destruct (observer _); [|done].
  eapply frame_trans; [exact Hp|apply set_observer_frame].
Qed.

Lemma prepare_attributes name i :
  name ≠ "src" → name ≠ "loading" →
  attributes (node (prepare cfg i)) !! name = attributes (node i) !! name.
Proof.
  intros H1 H2. unfold prepare. case_bool_decide; simpl.
  - by rewrite !lookup_insert_ne.
  - by rewrite lookup_insert_ne.
Qed.

Lemma observe_fold_frame (l : list nat) w :
  (∀ x i, x ∈ l → images w !! x = Some i →
          is_Some (attributes (node i) !! "data-src")) →
  Frame img w
    (foldl (λ w x,
              let w := update_image (prepare cfg) x w in
              match observer (state w) with
              | Some observed => set_observer (Some ({[ x ]} ∪ observed)) w
              | None => w
              end) w l).
Proof.
  revert w. induction l as [|x l IH]; intros w Hl; [apply frame_refl|].
  simpl. eapply frame_trans; [|apply IH].
  - assert (Frame img w (update_image (prepare cfg) x w)) as Hu.
    { unfold Frame, callsFor, waitsFor. simpl.
      split; [done|]. split; [done|]. split; [done|]. split; [done|].
      intros i Hi. destruct (decide (x = img)) as [->|Hne].
      - exists (prepare cfg i). rewrite lookup_alter_eq, Hi. split; [done|].
        rewrite !prepare_attributes by done. split; [done|]. split; [done|].
        intros Hnone. destruct (Hl img i) as [? Hsome]; [left|done|congruence].
      - exists i. by rewrite lookup_alter_ne. }
    destruct (observer _); [|exact Hu].
    eapply frame_trans; [exact Hu|apply set_observer_frame].
  - intros y i Hy Hi.
    assert (images (update_image (prepare cfg) x w) !! y = Some i) as Hi'.
    { by destruct (observer _). }
    simpl in Hi'. destruct (decide (x = y)) as [->|Hne].
    + rewrite lookup_alter_eq in Hi'.
      destruct (images w !! y) as [i0|] eqn:Hi0; [|done].
      injection Hi' as <-. rewrite prepare_attributes by done.
      eapply Hl; [left|done].
    + rewrite lookup_alter_ne in Hi' by done. eapply Hl; [by right|done].
Qed.

Lemma selectImages_spec x w :
  x ∈ selectImages cfg w →
  ∃ i, images w !! x = Some i ∧ hasClass (imageClass cfg) (node i) = true
       ∧ is_Some (attributes (node i) !! "data-src").
Proof.
  unfold selectImages. rewrite list_elem_of_In, filter_In.
  intros [_ Hx]. destruct (images w !! x) as [i|]; [|done].
  apply andb_true_iff in Hx as [Hc Hd]. exists i. split; [done|]. split; [done|].
  by apply bool_decide_eq_true_1 in Hd.
Qed.

Lemma observeImages_frame w : Frame img w (observeImages cfg w).
Proof.
  apply observe_fold_frame. intros x i Hx Hi.
  apply selectImages_spec in Hx as (i' & Hi' & _ & Hd). congruence.
Qed.

Lemma motion_frame b w : Frame img w (set_prefersReducedMotion b w).
Proof.
  repeat split; try done. intros i Hi. by exists i.
Qed.

(** *** The appearance of a loaded and of a failed image *)

Lemma show_error_errored i : errored cfg (show_error cfg i) = true.
Proof.
  unfold errored, show_error, hasClass, hasAttribute. simpl.
  rewrite lookup_delete_eq.
  rewrite lookup_delete_ne by done. rewrite lookup_insert_ne by done.
  rewrite lookup_delete_ne by done. rewrite lookup_insert_eq.
  rewrite bool_decide_eq_true_2 by done.
  rewrite (bool_decide_eq_true_2 (_ ∈ _))
    by (by apply elem_of_union_l, elem_of_singleton).
  rewrite (bool_decide_eq_false_2 (is_Some _)) by apply is_Some_None. done.
Qed.

Lemma errored_no_data_src i :
  errored cfg i = true → attributes (node i) !! "data-src" = None.
Proof.
  unfold errored, hasAttribute. intros [_ H]%andb_prop.
  apply negb_true_iff, bool_decide_eq_false in H.
  destruct (attributes (node i) !! "data-src"); [|done]. by destruct H.
Qed.

Lemma show_error_quiet i :
  attributes (node (show_error cfg i)) !! "aria-busy" = None.
Proof.
  unfold show_error. simpl. rewrite lookup_delete_ne by done.
  rewrite lookup_insert_ne by done. by rewrite lookup_delete_eq.
Qed.

Lemma show_loaded_loaded src prm i :
  loaded cfg src (show_loaded cfg src prm i) = true ∧
  attributes (node (show_loaded cfg src prm i)) !! "aria-busy" = None.
Proof.
  unfold loaded, show_loaded, hasClass, hasAttribute.
  destruct prm; simpl;
    rewrite !lookup_insert_ne by done;
    rewrite ?lookup_delete_eq;
    rewrite !lookup_delete_ne by done;
    rewrite ?lookup_delete_eq, ?lookup_insert_eq;
    rewrite bool_decide_eq_true_2 by done;
    rewrite (bool_decide_eq_true_2 (_ ∈ _))
      by (by apply elem_of_union_l, elem_of_singleton);
    rewrite (bool_decide_eq_false_2 (is_Some _)) by apply is_Some_None; done.
Qed.

Lemma loaded_no_data_src src i :
  loaded cfg src i = true → attributes (node i) !! "data-src" = None.
Proof.
  unfold loaded, hasAttribute. intros [_ H]%andb_prop.
  apply negb_true_iff, bool_decide_eq_false in H.
  destruct (attributes (node i) !! "data-src"); [|done]. by destruct H.
Qed.

(** *** The calls of a load *)

Lemma chain_S src r ph :
  chain img src (S r) ph
  = chain img src r (Returned false) ++ [mkCall img src (S r) ph].
Proof.
  unfold chain. by rewrite seq_S, fmap_app.
Qed.

Lemma backoff_S r : backoff cfg (S r) = backoff cfg r ++ [retryDelay cfg * 2 ^ r].
Proof.
  unfold backoff. by rewrite seq_S, fmap_app.
Qed.

Lemma none_pending (l : list Call) :
  length (filter (λ c, pending c = true) l) = 0 ↔ Forall (λ c, ¬ pending c = true) l.
Proof.
  induction l as [|c l IH]; [done|].
  rewrite filter_cons, Forall_cons. destruct (decide (pending c = true)); simpl.
  - split; [done|]. by intros [? _].
  - rewrite IH. tauto.
Qed.

Lemma past_not_pending src r :
  Forall (λ c, ¬ pending c = true)
         ((λ j, mkCall img src j (Returned false)) <$> seq 0 r).
Proof. apply Forall_fmap, Forall_forall. by intros. Qed.

(** A pending call for [img] is the last call of its load. *)
Lemma chain_pending_last src w0 r ph k c w :
  pendingFor img w0 = 0 →
  callsFor img w = callsFor img w0 ++ chain img src r ph →
  calls w !! k = Some c → target c = img → pending c = true →
  c = mkCall img src r ph ∧
  ∀ p, filter (λ c, target c = img) (alter (set_phase p) k (calls w))
       = callsFor img w0 ++ chain img src r p.
Proof.
  intros Hold Hcalls Hk Ht Hp. unfold chain in *. rewrite app_assoc in Hcalls.
  assert (Forall (λ c, ¬ pending c = true)
            (callsFor img w0 ++ ((λ j, mkCall img src j (Returned false)) <$> seq 0 r)))
    as Hxs.
  { apply Forall_app. split; [by apply none_pending|apply past_not_pending]. }
  split.
  - by destruct (filter_alter_last (λ c, target c = img) (λ c, pending c = true)
                   (set_phase ph) k (calls w) c _ _ Hk Ht Ht Hp Hxs Hcalls).
  - intros p. rewrite app_assoc.
    by destruct (filter_alter_last (λ c, target c = img) (λ c, pending c = true)
                   (set_phase p) k (calls w) c _ _ Hk Ht Ht Hp Hxs Hcalls) as [-> ->].
Qed.

(** *** The steps of a load *)

Lemma running_frame src w0 r ph w w' :
  Running cfg img src w0 r ph w → Frame img w w' → Running cfg img src w0 r ph w'.
Proof.
  intros (Hr & Hcalls & i & Hi & Hph) (Hc & Hw & Hrc & Hl & Himg).
  destruct (Himg i Hi) as (i' & Hi' & Hd & Hb & Hsame).
  split; [done|]. split; [congruence|].
  exists i'. split; [done|].
  destruct ph as [| |[|]].
  - destruct Hph as (? & ? & ? & ?). rewrite Hw, Hd, Hb, Hl. done.
  - destruct Hph as (? & ? & ? & ? & ? & ?). rewrite Hw, Hd, Hb, Hl, Hrc. done.
  - destruct Hph as (? & Hld & ? & ? & ?). rewrite Hw, Hrc, Hl.
    rewrite Hsame by (by eapply loaded_no_data_src). done.
  - destruct Hph as (? & ? & Her & ? & ?). rewrite Hw, Hl.
    rewrite Hsame by (by eapply errored_no_data_src). done.
Qed.

Lemma running_base src w0 w0' r ph w :
  callsFor img w0' = callsFor img w0 → waitsFor img w0' = waitsFor img w0 →
  Running cfg img src w0 r ph w → Running cfg img src w0' r ph w.
Proof.
  intros Hc Hw. unfold Running. by rewrite Hc, Hw.
Qed.

(** [processImage] starts the load. *)
Lemma processImage_starts src w :
  waiting img src w →
  processImage img w =
  loadImageWithRetry img src
    (update_image (on_node (setAttribute "aria-busy" "true")) img
       (set_loadingImages ({[ img ]} ∪ loadingImages (state w)) w)).
Proof.
  intros ((i & Hi & Hsrc) & Hne & Hidle).
  unfold processImage. rewrite Hi. unfold hasAttribute. rewrite Hsrc.
  rewrite (bool_decide_eq_false_2 (_ ∈ _)) by done.
  rewrite (bool_decide_eq_true_2 (is_Some _)) by (by eexists).
  cbn [negb orb default]. by rewrite bool_decide_eq_false_2 by done.
Qed.

Lemma running_start src w :
  waiting img src w → retryCount (state w) !! img = None →
  Running cfg img src w 0 AwaitsPreload (processImage img w).
Proof.
  intros Hwait Hrc. rewrite (processImage_starts src w Hwait).
  destruct Hwait as ((i & Hi & Hsrc) & Hne & Hidle).
  unfold Running, callsFor, waitsFor. simpl. rewrite Hrc. simpl.
  split; [lia|].
  split; [by rewrite filter_app, filter_cons_True, filter_nil by done|].
  exists (on_node (setAttribute "aria-busy" "true") i).
  rewrite lookup_alter_eq, Hi. split; [done|]. simpl.
  rewrite app_nil_r, lookup_insert_ne by done. rewrite lookup_insert_eq.
  split; [done|]. split; [done|]. split; [done|].
  split; [done|]. intros _. by apply elem_of_union_l, elem_of_singleton.
Qed.

Lemma running_resolved src w0 r k c w :
  pendingFor img w0 = 0 →
  Running cfg img src w0 r AwaitsPreload w →
  calls w !! k = Some c → target c = img → phase c = AwaitsPreload →
  Running cfg img src w0 r (Returned true) (preloadResolved cfg k c w).
Proof.
  intros Hold (Hr & Hcalls & i & Hi & Hws & Hsrc & Hbusy & Hl) Hk Ht Hph.
  destruct (chain_pending_last src w0 r AwaitsPreload k c w Hold Hcalls Hk Ht)
    as [-> Hmove]; [by unfold pending; rewrite Hph|].
  unfold Running, preloadResolved, callsFor, waitsFor. simpl.
  split; [done|]. split; [apply Hmove|].
  eexists. rewrite lookup_alter_eq, Hi. split; [done|].
  split; [exact Hws|].
  split; [apply show_loaded_loaded|]. split; [apply show_loaded_loaded|].
  split; [by rewrite lookup_delete_eq|].
  rewrite elem_of_difference, elem_of_singleton. by intros [_ ?].
Qed.

Lemma running_rejected src w0 r k c w :
  pendingFor img w0 = 0 →
  Running cfg img src w0 r AwaitsPreload w →
  calls w !! k = Some c → target c = img → phase c = AwaitsPreload →
  Running cfg img src w0 r
    (if bool_decide (r < maxRetries cfg) then AwaitsDelay else Returned false)
    (preloadRejected cfg k c w).
Proof.
  intros Hold (Hr & Hcalls & i & Hi & Hws & Hsrc & Hbusy & Hl) Hk Ht Hph.
  destruct (chain_pending_last src w0 r AwaitsPreload k c w Hold Hcalls Hk Ht)
    as [-> Hmove]; [by unfold pending; rewrite Hph|].
  unfold Running, preloadRejected, callsFor, waitsFor. simpl.
  case_bool_decide as Hlt; simpl.
  - split; [done|]. split; [apply Hmove|].
    exists i. split; [done|]. split; [done|].
    split.
    { rewrite filter_app, filter_cons_True, filter_nil, fmap_app by done.
      fold (waitsFor img w). rewrite Hws, backoff_S. simpl. by rewrite <- app_assoc. }
    split; [done|]. split; [done|].
    split; [by rewrite lookup_insert_eq, Nat.add_1_r|done].
  - split; [done|]. split; [apply Hmove|].
    eexists. rewrite lookup_alter_eq, Hi. split; [done|].
    split; [lia|]. split; [exact Hws|].
    split; [apply show_error_errored|]. split; [apply show_error_quiet|].
    rewrite elem_of_difference, elem_of_singleton. by intros [_ ?].
Qed.

Lemma running_delayed src w0 r k c w :
  pendingFor img w0 = 0 →
  Running cfg img src w0 r AwaitsDelay w →
  calls w !! k = Some c → target c = img → phase c = AwaitsDelay →
  Running cfg img src w0 (S r) AwaitsPreload (delayElapsed k c w).
Proof.
  intros Hold (Hr & Hcalls & i & Hi & Hlt & Hws & Hsrc & Hbusy & Hrc & Hl) Hk Ht Hph.
  destruct (chain_pending_last src w0 r AwaitsDelay k c w Hold Hcalls Hk Ht)
    as [-> Hmove]; [by unfold pending; rewrite Hph|].
  unfold Running, delayElapsed, callsFor, waitsFor. simpl. rewrite Hrc. simpl.
  split; [lia|].
  split.
  { rewrite alter_app_l by (by eapply lookup_lt_Some).
    rewrite filter_app, Hmove, filter_cons_True, filter_nil, chain_S by done.
    by rewrite <- app_assoc. }
  exists i. split; [done|]. split; [exact Hws|]. split; [done|]. split; [done|].
  rewrite elem_of_difference, elem_of_singleton. split; [by intros [_ ?]|done].
Qed.

Lemma undisturbing_intersect i b :
  undisturbing img (Intersect i b) = true → i ≠ img ∨ b = false.
Proof.
  simpl. destruct b; [|by right]. rewrite andb_true_r.
  intros H%negb_true_iff%bool_decide_eq_false. by left.
Qed.

(** Whatever undisturbing event arrives, the load goes on or stays where
    it is. *)
Lemma handle_running src w0 r ph e w :
  pendingFor img w0 = 0 →
  Running cfg img src w0 r ph w → undisturbing img e = true →
  ∃ r' ph', Running cfg img src w0 r' ph' (handle cfg e w).
Proof.
  intros Hold Hrun He.
  assert (∀ w', Frame img w w' → ∃ r' ph', Running cfg img src w0 r' ph' w') as Hframe.
  { intros w' Hf. exists r, ph. by eapply running_frame. }
  destruct e as [i b|k ok|k| | | |b]; simpl; try done.
  - apply Hframe, handleIntersection_other.
    destruct (undisturbing_intersect i b He); auto.
  - destruct (calls w !! k) as [c|] eqn:Hk; [|apply Hframe, frame_refl].
    destruct (phase c) eqn:Hph; try apply Hframe, frame_refl.
    destruct (decide (target c = img)) as [Ht|Ht].
    + destruct Hrun as (Hr & Hcalls & Hrest).
      destruct (chain_pending_last src w0 r ph k c w Hold Hcalls Hk Ht) as [Hc _];
        [by unfold pending; rewrite Hph|].
      rewrite Hc in Hph. simpl in Hph. subst ph.
      destruct ok; eexists _, _.
      * eapply running_resolved; try done. by rewrite Hc.
      * eapply running_rejected; try done. by rewrite Hc.
    + destruct ok; apply Hframe.
      * by apply preloadResolved_other.
      * by apply preloadRejected_other.
  - destruct (calls w !! k) as [c|] eqn:Hk; [|apply Hframe, frame_refl].
    destruct (phase c) eqn:Hph; try apply Hframe, frame_refl.
    destruct (decide (target c = img)) as [Ht|Ht].
    + destruct Hrun as (Hr & Hcalls & Hrest).
      destruct (chain_pending_last src w0 r ph k c w Hold Hcalls Hk Ht) as [Hc _];
        [by unfold pending; rewrite Hph|].
      rewrite Hc in Hph. simpl in Hph. subst ph.
      eexists _, _. eapply running_delayed; try done. by rewrite Hc.
    + by apply Hframe, delayElapsed_other.
  - apply Hframe, observeImages_frame.
  - apply Hframe, motion_frame.
Qed.

Lemma run_running src w0 es : ∀ r ph w,
  pendingFor img w0 = 0 →
  Running cfg img src w0 r ph w → forallb (undisturbing img) es = true →
  ∃ r' ph', Running cfg img src w0 r' ph' (run cfg es w).
Proof.
  induction es as [|e es IH]; intros r ph w Hold Hrun Hes; simpl.
  - by exists r, ph.
  - simpl in Hes. apply andb_true_iff in Hes as [He Hes].
    destruct (handle_running src w0 r ph e w Hold Hrun He) as (r' & ph' & Hrun').
    by eapply IH.
Qed.

(** *** What is observed of a load *)

Lemma replicate_snoc {A} n (x : A) : replicate (S n) x = replicate n x ++ [x].
Proof. induction n as [|n IH]; [done|]. simpl in *. by rewrite <- IH. Qed.

Lemma chain_requests src r : ∀ ph,
  requestOf <$> chain img src r ph = replicate (S r) (img, src).
Proof.
  induction r as [|r IH]; intros ph; [done|].
  by rewrite chain_S, fmap_app, IH, (replicate_snoc (S r)).
Qed.

Lemma chain_count (q : Call → bool) (b : bool) src r :
  (∀ j, q (mkCall img src j (Returned false)) = b) →
  ∀ ph, length (filter (λ c, q c = true) (chain img src r ph))
        = (if b then r else 0) + (if q (mkCall img src r ph) then 1 else 0).
Proof.
  intros Hq. induction r as [|r IH]; intros ph.
  - unfold chain. simpl. rewrite filter_cons, filter_nil.
    destruct (q _); simpl; by destruct b.
  - rewrite chain_S, filter_app, length_app, IH, Hq.
    rewrite filter_cons, filter_nil.
    destruct (q (mkCall img src (S r) ph)); destruct b; simpl; lia.
Qed.

Lemma running_observed src w0 r ph w :
  Running cfg img src w0 r ph w →
  requestsFor img w = requestsFor img w0 ++ replicate (S r) (img, src) ∧
  failuresFor img w
  = failuresFor img w0 + (r + if failed (mkCall img src r ph) then 1 else 0) ∧
  loadsFor img w
  = loadsFor img w0 + (if succeeded (mkCall img src r ph) then 1 else 0) ∧
  pendingFor img w
  = pendingFor img w0 + (if pending (mkCall img src r ph) then 1 else 0).
Proof.
  intros (_ & Hcalls & _).
  unfold requestsFor, failuresFor, loadsFor, pendingFor. rewrite Hcalls.
  rewrite fmap_app, chain_requests, !filter_app, !length_app.
  rewrite (chain_count failed true), (chain_count succeeded false),
    (chain_count pending false) by done.
  done.
Qed.

(** *** An element without [data-src] whose calls have returned *)

Lemma no_pending_call w k c :
  pendingFor img w = 0 → calls w !! k = Some c → target c = img →
  pending c = true → False.
Proof.
  intros Hnone Hk Ht Hp. apply none_pending in Hnone.
  rewrite Forall_forall in Hnone. apply (Hnone c); [|done].
  apply list_elem_of_filter. split; [done|]. by eapply list_elem_of_lookup_2.
Qed.

Lemma frame_still w w' :
  Frame img w w' → settled img w →
  callsFor img w' = callsFor img w ∧ waitsFor img w' = waitsFor img w ∧
  images w' !! img = images w !! img.
Proof.
  intros (Hc & Hw & _ & _ & Himg) (i & Hi & Hsrc).
  split; [done|]. split; [done|].
  destruct (Himg i Hi) as (i' & Hi' & _ & _ & Hsame). rewrite Hi', Hi.
  by rewrite Hsame.
Qed.

Lemma settled_frame w w' : Frame img w w' → settled img w → settled img w'.
Proof.
  intros Hf Hs. destruct (frame_still w w' Hf Hs) as (_ & _ & Himg).
  destruct Hs as (i & Hi & Hsrc). exists i. by rewrite Himg.
Qed.

Lemma loadAll_frame (l : list nat) : ∀ w,
  settled img w → Frame img w (foldl (λ w x, processImage x w) w l).
Proof.
  induction l as [|x l IH]; intros w Hs; [apply frame_refl|].
  simpl.
  assert (Frame img w (processImage x w)) as Hp.
  { destruct (decide (x = img)) as [->|Hne].
    - rewrite processImage_settled by done. apply frame_refl.
    - by apply processImage_other. }
  eapply frame_trans; [exact Hp|]. apply IH. by eapply settled_frame.
Qed.

Lemma init_frame w : settled img w → Frame img w (init cfg w).
Proof.
  intros Hs. unfold init. eapply frame_trans; [|apply observeImages_frame].
  unfold initIntersectionObserver. destruct (supportsIntersectionObserver w).
  - apply set_observer_frame.
  - by apply loadAll_frame.
Qed.

Lemma handle_still e w :
  settled img w → pendingFor img w = 0 →
  callsFor img (handle cfg e w) = callsFor img w ∧
  waitsFor img (handle cfg e w) = waitsFor img w ∧
  images (handle cfg e w) !! img = images w !! img.
Proof.
  intros Hs Hnone.
  assert (callsFor img (cleanup w) = callsFor img w ∧
          waitsFor img (cleanup w) = waitsFor img w ∧
          images (cleanup w) !! img = images w !! img) as Hclean.
  { unfold cleanup. by destruct (observer (state w)). }
  destruct e as [i b|k ok|k| | | |b]; simpl.
  - apply frame_still; [|done]. apply handleIntersection_other. auto.
  - destruct (calls w !! k) as [c|] eqn:Hk; [|done].
    destruct (phase c) eqn:Hph; try done.
    assert (target c ≠ img) as Ht.
    { intros Ht. apply (no_pending_call w k c Hnone Hk Ht).
      unfold pending. by rewrite Hph. }
    destruct ok; (apply frame_still; [|done]).
    + by apply preloadResolved_other.
    + by apply preloadRejected_other.
  - destruct (calls w !! k) as [c|] eqn:Hk; [|done].
    destruct (phase c) eqn:Hph; try done.
    assert (target c ≠ img) as Ht.
    { intros Ht. apply (no_pending_call w k c Hnone Hk Ht).
      unfold pending. by rewrite Hph. }
    apply frame_still; [|done]. by apply delayElapsed_other.
  - apply frame_still; [|done]. apply observeImages_frame.
  - exact Hclean.
  - destruct Hclean as (Hc & Hw & Hi).
    assert (settled img (cleanup w)) as Hs'.
    { destruct Hs as (i & Hi' & Hsrc). exists i. by rewrite Hi. }
    destruct (frame_still _ _ (init_frame (cleanup w) Hs') Hs') as (Hc' & Hw' & Hi').
    unfold reinitialize. split; [congruence|]. split; congruence.
  - apply (frame_still w (set_prefersReducedMotion b w)); [apply motion_frame|done].
Qed.

(** Whatever follows, no preload is made for such an element and it stays
    as it is. *)
Lemma run_still es : ∀ w,
  settled img w → pendingFor img w = 0 →
  callsFor img (run cfg es w) = callsFor img w ∧
  waitsFor img (run cfg es w) = waitsFor img w ∧
  images (run cfg es w) !! img = images w !! img.
Proof.
  induction es as [|e es IH]; intros w Hs Hnone; [done|].
  simpl. destruct (handle_still e w Hs Hnone) as (Hc & Hw & Hi).
  destruct (IH (handle cfg e w)) as (Hc' & Hw' & Hi').
  - destruct Hs as (i & Hi0 & Hsrc). exists i. by rewrite Hi.
  - unfold pendingFor. by rewrite Hc.
  - split; [congruence|]. split; congruence.
Qed.

Lemma errored_with_data_src i src :
  attributes (node i) !! "data-src" = Some src → errored cfg i = false.
Proof.
  intros Hsrc. unfold errored, hasAttribute. rewrite Hsrc.
  rewrite (bool_decide_eq_true_2 (is_Some _)) by (by eexists).
  by rewrite andb_false_r.
Qed.

End Chain.

(** C4 (as amended). A load that is left to itself.  For an element
    waiting to be loaded, [processImage] starts a load; as long as the
    loader is not cleaned up or initialised again and the observer callback
    gets no further intersecting entry for the element, at every moment
    between one and [maxRetries + 1] preloads have been made for it, all of
    its URL.  Once [maxRetries + 1] of them have failed, the first attempt
    and [maxRetries] retries, no call is pending, the delays
    [retryDelay * 2 ^ r] were awaited before the retries, the element shows
    the error image, carries the error class and has lost [data-src], and
    whatever events follow, no further preload is made for it and the
    element stays as it is.  While fewer have failed, either a preload or a
    delay of the load is pending, the element still carries [data-src] and
    is not in the error state, or the image has loaded. *)
Theorem image_errors_after_all_attempts_fail (cfg : Config) (img : nat)
    (src : string) (w : World) (es : list Event) :
  waiting img src w →
  retryCount (state w) !! img = None →
  pendingFor img w = 0 →
  forallb (undisturbing img) es = true →
  let w' := run cfg es (processImage img w) in
  ∃ n failures i',
    1 ≤ n ≤ maxRetries cfg + 1 ∧
    requestsFor img w' = requestsFor img w ++ replicate n (img, src) ∧
    failuresFor img w' = failuresFor img w + failures ∧
    failures ≤ n ∧
    images w' !! img = Some i' ∧
    (failures = maxRetries cfg + 1 →
       pendingFor img w' = 0 ∧
       waitsFor img w' = waitsFor img w ++ backoff cfg (maxRetries cfg) ∧
       errored cfg i' = true ∧
       ∀ es', requestsFor img (run cfg es' w') = requestsFor img w' ∧
              images (run cfg es' w') !! img = Some i') ∧
    (failures < maxRetries cfg + 1 →
       (pendingFor img w' = 1 ∧
        attributes (node i') !! "data-src" = Some src ∧
        errored cfg i' = false) ∨
       loaded cfg src i' = true).
Proof.
  intros Hwait Hrc Hnone Hes w'.
  destruct (run_running cfg img src w es 0 AwaitsPreload (processImage img w))
    as (r & ph & Hrun); [done|by apply running_start|done|].
  fold w' in Hrun.
  destruct (running_observed cfg img src w r ph w' Hrun) as (Hreq & Hfail & _ & Hpend).
  destruct Hrun as (Hr & Hcalls & i' & Hi' & Hph).
  exists (S r), (r + if failed (mkCall img src r ph) then 1 else 0), i'.
  split; [lia|]. split; [done|]. split; [done|].
  split; [destruct (failed _); lia|]. split; [done|].
  rewrite Hpend, Hnone.
  destruct ph as [| |[|]]; simpl.
  - destruct Hph as (Hws & Hsrc & Hbusy & Hl).
    split; [lia|]. intros _. left. split; [done|]. split; [done|].
    by eapply errored_with_data_src.
  - destruct Hph as (Hlt & Hws & Hsrc & Hbusy & Hrc' & Hl).
    split; [lia|]. intros _. left. split; [done|]. split; [done|].
    by eapply errored_with_data_src.
  - destruct Hph as (Hws & Hld & Hbusy & Hrc' & Hl).
    split; [lia|]. intros _. by right.
  - destruct Hph as (-> & Hws & Her & Hbusy & Hl).
    split; [|lia]. intros _. split; [done|]. split; [done|]. split; [done|].
    intros es'.
    destruct (run_still cfg img es' w') as (Hc & _ & Hi).
    + exists i'. split; [done|]. by eapply errored_no_data_src.
    + by rewrite Hpend, Hnone.
    + unfold requestsFor. rewrite Hc, Hi. done.
Qed.

Lemma image_errors_after_all_attempts_fail_witness :
  let w' := run CONFIG fourFailures (processImage 7 onePhoto) in
  ∃ n failures i',
    1 ≤ n ≤ maxRetries CONFIG + 1 ∧
    requestsFor 7 w' = requestsFor 7 onePhoto ++ replicate n (7, photo) ∧
    failuresFor 7 w' = failuresFor 7 onePhoto + failures ∧
    failures ≤ n ∧
    images w' !! 7 = Some i' ∧
    (failures = maxRetries CONFIG + 1 →
       pendingFor 7 w' = 0 ∧
       waitsFor 7 w' = waitsFor 7 onePhoto ++ backoff CONFIG (maxRetries CONFIG) ∧
       errored CONFIG i' = true ∧
       ∀ es', requestsFor 7 (run CONFIG es' w') = requestsFor 7 w' ∧
              images (run CONFIG es' w') !! 7 = Some i') ∧
    (failures < maxRetries CONFIG + 1 →
       (pendingFor 7 w' = 1 ∧
        attributes (node i') !! "data-src" = Some photo ∧
        errored CONFIG i' = false) ∨
       loaded CONFIG photo i' = true).
Proof.
  apply (image_errors_after_all_attempts_fail CONFIG 7 photo onePhoto fourFailures).
  - split; [by exists waitingImage|]. split; by vm_compute.
  - by vm_compute.
  - by vm_compute.
  - by vm_compute.
Defined.

(** C4, the claim as stated fails: with [maxRetries = 3], after exactly
    three consecutive failures the element is not in the error state and
    still carries [data-src]; a fourth preload has been made and is pending,
    and when it loads the image is shown. *)
Lemma fourth_attempt_follows_three_failures :
  let w' := run CONFIG threeFailures (processImage 7 onePhoto) in
  let w'' := handle CONFIG (PreloadSettles 3 true) w' in
  failuresFor 7 w' = maxRetries CONFIG ∧
  requestsFor 7 w' = replicate 4 (7, photo) ∧
  waitsFor 7 w' = [1000; 2000; 4000] ∧
  calls w' !! 3 = Some (mkCall 7 photo 3 AwaitsPreload) ∧
  (∃ i', images w' !! 7 = Some i' ∧
         errored CONFIG i' = false ∧
         attributes (node i') !! "data-src" = Some photo) ∧
  (∃ i'', images w'' !! 7 = Some i'' ∧
          loaded CONFIG photo i'' = true ∧ errored CONFIG i'' = false) ∧
  requestsFor 7 w'' = replicate 4 (7, photo).
Proof.
  split; [by vm_compute|]. split; [by vm_compute|]. split; [by vm_compute|].
  split; [by vm_compute|].
  split; [eexists; split; [by vm_compute|]; split; by vm_compute|].
  split; [eexists; split; [by vm_compute|]; split; by vm_compute|].
  by vm_compute.
Qed.

(** The hypotheses are needed.  When [cleanup] runs while the load waits
    for its first delay, the retry count starts again: five preloads are
    made, after delays of 1000, 1000, 2000 and 4000 ms, before the element
    is in the error state. *)
Lemma cleanup_restarts_the_retries :
  let w' := run CONFIG
              [PreloadSettles 0 false; Cleanup; DelayElapses 0;
               PreloadSettles 1 false; DelayElapses 1;
               PreloadSettles 2 false; DelayElapses 2;
               PreloadSettles 3 false; DelayElapses 3;
               PreloadSettles 4 false]
              (processImage 7 onePhoto) in
  requestsFor 7 w' = replicate 5 (7, photo) ∧
  failuresFor 7 w' = 5 ∧
  waitsFor 7 w' = [1000; 1000; 2000; 4000] ∧
  errored CONFIG <$> images w' !! 7 = Some true ∧
  errored CONFIG <$>
    images (run CONFIG
              [PreloadSettles 0 false; Cleanup; DelayElapses 0;
               PreloadSettles 1 false; DelayElapses 1;
               PreloadSettles 2 false; DelayElapses 2;
               PreloadSettles 3 false; DelayElapses 3]
              (processImage 7 onePhoto)) !! 7 = Some false.
Proof. repeat split; by vm_compute. Qed.

(** When the first retry is under way the element is no longer marked as
    loading, and an intersecting entry for it starts a second load beside
    the first. *)
Lemma late_entry_starts_a_second_load :
  let w' := run CONFIG [PreloadSettles 0 false; DelayElapses 0; Intersect 7 true]
              (processImage 7 onePhoto) in
  requestsFor 7 w' = replicate 3 (7, photo) ∧ pendingFor 7 w' = 2.
Proof. split; by vm_compute. Qed.

End LazyLoadingSpec.

(** ** Mobile navigation *)

Module NavigationSpec.
Import Navigation.

Lemma focus_session e p : same_session p (focus e p).
Proof. unfold focus. by case_bool_decide. Qed.

Lemma focus_effective e p :
  e ∈ canFocus p → activeElement (focus e p) = Some e.
Proof. intros He. unfold focus. by rewrite bool_decide_eq_true_2. Qed.

Lemma trapFocus_session shiftKey p : same_session p (trapFocus shiftKey p).
Proof.
  unfold trapFocus. destruct (head _); [|done]. destruct (last _); [|done].
  repeat case_match; try done; apply focus_session.
Qed.

Lemma use_session p u : same_session p (use p u).
Proof.
  destruct u as [|e|shiftKey]; simpl.
  - destruct (focusTimers p); [done|]. unfold focusFirst. simpl.
    destruct (head _); [|done].
    apply (focus_session _ (set_focusTimers _ p)).
  - apply focus_session.
  - destruct (isMenuOpen (state p)); [apply trapFocus_session|done].
Qed.

Lemma uses_session (uses : list MenuUse) p : same_session p (foldl use p uses).
Proof.
  revert p. induction uses as [|u uses IH]; intros p; simpl; [done|].
  destruct (use_session p u) as (Ho & Hl & Hc).
  destruct (IH (use p u)) as (Ho' & Hl' & Hc').
  repeat split; congruence.
Qed.

(** Closing an open menu gives the focus to the recorded element. *)
Lemma closeMenu_restores p e :
  isMenuOpen (state p) = true →
  lastFocusedElement (state p) = Some e →
  e ∈ canFocus p →
  activeElement (closeMenu p) = Some e ∧ isMenuOpen (state (closeMenu p)) = false.
Proof.
  intros Hopen Hlast He. unfold closeMenu. rewrite Hopen. simpl. rewrite Hlast.
  unfold focus. simpl. by rewrite bool_decide_eq_true_2.
Qed.

(** C10 (as amended). From a closed menu, with the focus on an element [e]
    that can take focus, [openMenu] records [e] and leaves the focus where it
    is; when the menu has a focusable element it sets one timeout of the
    transition duration, and the expiry of that timeout moves the focus to
    the first focusable element of the menu.  Whatever happens while the
    menu stays open (the timeout expires or not, the focus moves, Tab is
    pressed), [closeMenu] puts the focus back on [e]. *)
Theorem menu_round_trip_restores_focus (p : Page) (e : nat) (uses : list MenuUse) :
  isMenuOpen (state p) = false →
  activeElement p = Some e →
  e ∈ canFocus p →
  let opened := openMenu p in
  (isMenuOpen (state opened) = true ∧
   lastFocusedElement (state opened) = Some e ∧
   activeElement opened = Some e ∧
   focusTimers opened =
     focusTimers p ++
       (if bool_decide (menuFocusable p = []) then []
        else [MENU_TRANSITION_DURATION])) ∧
  (∀ first rest,
     menuFocusable p = first :: rest → first ∈ canFocus p →
     activeElement (use opened TimerFires) = Some first ∧
     focusInMenu (use opened TimerFires) = true) ∧
  (activeElement (closeMenu (foldl use opened uses)) = Some e ∧
   isMenuOpen (state (closeMenu (foldl use opened uses))) = false).
Proof.
  intros Hclosed Hactive He opened.
  assert (isMenuOpen (state opened) = true ∧
          lastFocusedElement (state opened) = Some e ∧
          activeElement opened = Some e ∧ canFocus opened = canFocus p ∧
          focusableElements (state opened) = menuFocusable p ∧
          menuFocusable opened = menuFocusable p)
    as (Hopen & Hlast & Hact & Hcan & Hfoc & Hmenu).
  { unfold opened, openMenu. rewrite Hclosed. simpl.
    case_bool_decide; simpl; by rewrite Hactive. }
  split; [|split].
  - split; [done|]. split; [done|]. split; [done|].
    unfold opened, openMenu. rewrite Hclosed. simpl.
    destruct (menuFocusable p) as [|first rest]; simpl; [by rewrite app_nil_r|done].
  - intros first rest Hfirst Hfocusable.
    assert (∃ d ds, focusTimers opened = d :: ds) as (d & ds & Htimers).
    { unfold opened, openMenu. rewrite Hclosed. simpl. rewrite Hfirst. simpl.
      destruct (focusTimers p); simpl; by eauto. }
    simpl. rewrite Htimers. unfold focusFirst. simpl. rewrite Hfoc, Hfirst. simpl.
    unfold focus. simpl. rewrite Hcan.
    rewrite bool_decide_eq_true_2 by done.
    split; [done|]. unfold focusInMenu. simpl. rewrite Hmenu, Hfirst.
    apply bool_decide_eq_true_2, list_elem_of_here.
  - destruct (uses_session uses opened) as (Ho & Hl & Hc).
    apply closeMenu_restores; [congruence | congruence |].
    by rewrite Hc, Hcan.
Qed.

Lemma menu_round_trip_restores_focus_witness :
  let opened := openMenu withLinks in
  let uses := [TimerFires; TabPressed true; FocusMoves 2] in
  (isMenuOpen (state opened) = true ∧
   lastFocusedElement (state opened) = Some 1 ∧
   activeElement opened = Some 1 ∧
   focusTimers opened = [MENU_TRANSITION_DURATION]) ∧
  (activeElement (use opened TimerFires) = Some 2 ∧
   focusInMenu (use opened TimerFires) = true) ∧
  (activeElement (closeMenu (foldl use opened uses)) = Some 1 ∧
   isMenuOpen (state (closeMenu (foldl use opened uses))) = false).
Proof.
  destruct (menu_round_trip_restores_focus withLinks 1
              [TimerFires; TabPressed true; FocusMoves 2])
    as (Hopened & Htimer & Hclosed); [by vm_compute..|].
  split; [exact Hopened|]. split; [|exact Hclosed].
  apply (Htimer 2 [3]); by vm_compute.
Defined.

(** C10, the claim as stated fails: [openMenu] itself does not move the
    focus, which is still on the toggle when it returns; on a page whose
    menu holds no focusable element it sets no timeout either, and the focus
    is never moved into the menu. *)
Lemma open_menu_leaves_focus_outside :
  (activeElement withLinks = Some 1 ∧
   activeElement (openMenu withLinks) = Some 1 ∧
   focusInMenu (openMenu withLinks) = false) ∧
  (activeElement withoutLinks = Some 1 ∧
   focusTimers (openMenu withoutLinks) = [] ∧
   ∀ timeouts, focusInMenu (foldl use (openMenu withoutLinks)
                              (replicate timeouts TimerFires)) = false).
Proof.
  split; [by vm_compute|]. split; [by vm_compute|]. split; [by vm_compute|].
  intros timeouts.
  assert (∀ p, focusTimers p = [] → foldl use p (replicate timeouts TimerFires) = p)
    as Hidle.
  { intros p Hp. induction timeouts as [|n IH]; [done|]. simpl. by rewrite Hp. }
  rewrite Hidle; by vm_compute.
Qed.

End NavigationSpec.

(** ** TestimonialsCarousel: drawing, auto-play, gestures *)

Module CarouselMore.
Import Carousel CarouselSpec.

Lemma mark_current_idemp cur j e :
  mark_current cur j (mark_current cur j e) = mark_current cur j e.
Proof.
  unfold mark_current. destruct (Z.of_nat j =? cur)%Z.
  - unfold setAttribute, classList_add. simpl. f_equal.
    + apply set_eq. intros x. rewrite !elem_of_union. tauto.
    + by rewrite insert_insert_eq.
  - unfold removeAttribute, classList_remove. simpl. f_equal.
    + by rewrite difference_twice_L.
    + by rewrite delete_delete_eq.
Qed.

Lemma imap_mark_current_idemp cur (l : list Element) :
  imap (mark_current cur) (imap (mark_current cur) l) = imap (mark_current cur) l.
Proof.
  apply list_eq. intros j. rewrite !list_lookup_imap.
  destruct (l !! j); simpl; [|done]. by rewrite mark_current_idemp.
Qed.

Lemma enable_button_idemp b e :
  enable_button b (enable_button b e) = enable_button b e.
Proof.
  unfold enable_button, removeAttribute, setAttribute, set_disabled.
  destruct b; simpl; f_equal; [by rewrite delete_delete_eq|by rewrite insert_insert_eq].
Qed.

Lemma updateUI_synced c : ui_synced (updateUI c).
Proof.
  unfold ui_synced, updateUI, slideCount, announceSlideChange. simpl.
  rewrite !imap_mark_current_idemp, length_imap.
  split; [done|]. split; [done|].
  split; [|split; [|done]].
  - destruct (prevButton c); simpl; [|done]. by rewrite enable_button_idemp.
  - destruct (nextButton c); simpl; [|done]. by rewrite enable_button_idemp.
Qed.

Lemma same_ui_synced c c' : same_ui c c' → ui_synced c → ui_synced c'.
Proof.
  unfold same_ui, ui_synced, slideCount, announceSlideChange.
  intros (-> & -> & -> & -> & -> & -> & ->). done.
Qed.

Lemma same_ui_refl c : same_ui c c.
Proof. by repeat split. Qed.

Lemma same_ui_trans c1 c2 c3 : same_ui c1 c2 → same_ui c2 c3 → same_ui c1 c3.
Proof.
  unfold same_ui. intros (?&?&?&?&?&?&?) (?&?&?&?&?&?&?). repeat split; congruence.
Qed.

Lemma same_play_refl c : same_play c c.
Proof. by repeat split. Qed.

Lemma same_play_trans c1 c2 c3 : same_play c1 c2 → same_play c2 c3 → same_play c1 c3.
Proof. unfold same_play. intros (?&?&?) (?&?&?). repeat split; congruence. Qed.

Lemma same_play_timer_ok c c' : same_play c c' → timer_ok c → timer_ok c'.
Proof. unfold same_play, timer_ok. intros (-> & -> & ->). done. Qed.

(** The auto-play functions and the handlers built from them leave the
    drawn parts alone. *)
Ltac frame_ui :=
  repeat match goal with
         | |- context [if ?b then _ else _] => destruct b
         | |- context [match ?o with Some _ => _ | None => _ end] => destruct o
         end; simpl; by repeat split.

Lemma startAutoPlay_ui c : same_ui c (startAutoPlay c).
Proof. unfold startAutoPlay. frame_ui. Qed.

Lemma stopAutoPlay_ui c : same_ui c (stopAutoPlay c).
Proof. unfold stopAutoPlay. frame_ui. Qed.

Lemma resetAutoPlay_ui c : same_ui c (resetAutoPlay c).
Proof.
  unfold resetAutoPlay. destruct (isPlaying _); [|apply same_ui_refl].
  eapply same_ui_trans; [apply stopAutoPlay_ui|apply startAutoPlay_ui].
Qed.

Lemma updatePlayPauseButton_ui c : same_ui c (updatePlayPauseButton c).
Proof. unfold updatePlayPauseButton. destruct (playPauseButton c); by repeat split. Qed.

Lemma handlePlayPauseClick_ui c : same_ui c (handlePlayPauseClick c).
Proof.
  unfold handlePlayPauseClick, play, pause. destruct (isPlaying (state c)).
  - eapply same_ui_trans; [|apply updatePlayPauseButton_ui].
    eapply same_ui_trans; [|apply stopAutoPlay_ui]. by repeat split.
  - eapply same_ui_trans; [|apply updatePlayPauseButton_ui].
    eapply same_ui_trans; [|apply startAutoPlay_ui]. by repeat split.
Qed.

Lemma updateSlidePosition_ui animate c c' :
  updateSlidePosition animate c = Some c' → same_ui c c'.
Proof.
  unfold updateSlidePosition. destruct (head (slides c)); simpl; [|done].
  intros [= <-]. destruct animate; by repeat split.
Qed.

Lemma updateSlidePosition_play animate c c' :
  updateSlidePosition animate c = Some c' → same_play c c'.
Proof.
  unfold updateSlidePosition. destruct (head (slides c)); simpl; [|done].
  intros [= <-]. destruct animate; by repeat split.
Qed.

Lemma updateUI_play c : same_play c (updateUI c).
Proof. by repeat split. Qed.

(** What [goToSlide] returns: its argument, or a carousel just redrawn. *)
Lemma goToSlide_result index c c' :
  goToSlide index c = Some c' →
  same_play c c' ∧ (c' = c ∨ ∃ c1, c' = updateUI c1).
Proof.
  unfold goToSlide. destruct (_ || _); [intros [= <-]; split; [apply same_play_refl|by left]|].
  destruct (_ || _); [intros [= <-]; split; [apply same_play_refl|by left]|].
  destruct (updateSlidePosition _ _) as [c1|] eqn:Hpos; simpl; [|done].
  intros [= <-]. split; [|right; by exists c1].
  apply updateSlidePosition_play in Hpos.
  eapply same_play_trans; [|apply updateUI_play].
  eapply same_play_trans; [|exact Hpos]. by repeat split.
Qed.

Lemma goToPrevious_result c c' :
  goToPrevious c = Some c' →
  same_play c c' ∧ (c' = c ∨ ∃ c1, c' = updateUI c1).
Proof.
  unfold goToPrevious. destruct (isTransitioning _);
    [intros [= <-]; split; [apply same_play_refl|by left]|apply goToSlide_result].
Qed.

Lemma goToNext_result c c' :
  goToNext c = Some c' →
  same_play c c' ∧ (c' = c ∨ ∃ c1, c' = updateUI c1).
Proof.
  unfold goToNext. destruct (isTransitioning _);
    [intros [= <-]; split; [apply same_play_refl|by left]|apply goToSlide_result].
Qed.

Lemma result_synced c c' :
  ui_synced c → (c' = c ∨ ∃ c1, c' = updateUI c1) → ui_synced c'.
Proof. intros Hs [->|[c1 ->]]; [done|apply updateUI_synced]. Qed.

Lemma handleTouchStart_ui x c : same_ui c (handleTouchStart x c).
Proof.
  unfold handleTouchStart. destruct (isTransitioning _); [apply same_ui_refl|].
  eapply same_ui_trans; [|apply stopAutoPlay_ui]. by repeat split.
Qed.

Lemma handleTouchMove_ui x c c' : handleTouchMove x c = Some c' → same_ui c c'.
Proof.
  unfold handleTouchMove. destruct (negb _); [intros [= <-]; apply same_ui_refl|].
  destruct (head (slides c)); simpl; [|done]. intros [= <-]. by repeat split.
Qed.

Lemma handleTouchEnd_synced c c' :
  handleTouchEnd c = Some c' → ui_synced c → ui_synced c'.
Proof.
  unfold handleTouchEnd. destruct (negb _); [by intros [= <-]|].
  set (c0 := with_track _ _). intros Hend Hs.
  assert (ui_synced c0) as Hs0 by (eapply same_ui_synced; [|exact Hs]; by repeat split).
  destruct (if (_ <? _)%Z then _ else _) as [c1|] eqn:Hnav; simpl in Hend; [|done].
  injection Hend as <-.
  eapply same_ui_synced; [apply resetAutoPlay_ui|].
  destruct (_ <? _)%Z.
  - destruct (_ <? _)%Z.
    + eapply result_synced; [exact Hs0|]. by eapply goToPrevious_result.
    + eapply result_synced; [exact Hs0|]. by eapply goToNext_result.
  - eapply same_ui_synced; [by eapply updateSlidePosition_ui|done].
Qed.

Lemma fmap_reset_synced (r : option Carousel) c c' :
  resetAutoPlay <$> r = Some c' → ui_synced c →
  (∀ c1, r = Some c1 → c1 = c ∨ ∃ c2, c1 = updateUI c2) →
  ui_synced c'.
Proof.
  destruct r as [c1|]; simpl; [|done]. intros [= <-] Hs Hres.
  eapply same_ui_synced; [apply resetAutoPlay_ui|].
  eapply result_synced; [exact Hs|by apply Hres].
Qed.

Lemma dispatch_synced e c c' :
  dispatch e c = Some c' → ui_synced c → ui_synced c'.
Proof.
  assert (∀ c1, same_ui c c1 → Some c1 = Some c' → ui_synced c → ui_synced c')
    as Hframe.
  { intros c1 Hui [= <-] Hs. by eapply same_ui_synced. }
  destruct e as [index| | | | |index| |key|x|x| | | | |inside| |hidden|i| |]; simpl.
  - intros Hd Hs. eapply result_synced; [done|]. by eapply goToSlide_result.
  - intros Hd Hs. eapply result_synced; [done|]. by eapply goToNext_result.
  - intros Hd Hs. eapply result_synced; [done|]. by eapply goToPrevious_result.
  - destruct (prevButton c) eqn:Hp; [|by intros [= <-]].
    intros Hd Hs. eapply fmap_reset_synced; [exact Hd|done|].
    intros c1 H1. by eapply goToPrevious_result.
  - destruct (nextButton c) eqn:Hp; [|by intros [= <-]].
    intros Hd Hs. eapply fmap_reset_synced; [exact Hd|done|].
    intros c1 H1. by eapply goToNext_result.
  - case_bool_decide; [|by intros [= <-]].
    intros Hd Hs. eapply fmap_reset_synced; [exact Hd|done|].
    intros c1 H1. by eapply goToSlide_result.
  - apply Hframe. destruct (playPauseButton c);
      [apply handlePlayPauseClick_ui|apply same_ui_refl].
  - destruct (enableKeyboard _); [|by intros [= <-]].
    destruct key; simpl; try (by intros [= <-]).
    + intros Hd Hs. eapply fmap_reset_synced; [exact Hd|done|].
      intros c1 H1. by eapply goToPrevious_result.
    + intros Hd Hs. eapply fmap_reset_synced; [exact Hd|done|].
      intros c1 H1. by eapply goToNext_result.
    + intros Hd Hs. eapply fmap_reset_synced; [exact Hd|done|].
      intros c1 H1. by eapply goToSlide_result.
    + intros Hd Hs. eapply fmap_reset_synced; [exact Hd|done|].
      intros c1 H1. by eapply goToSlide_result.
    + apply Hframe, handlePlayPauseClick_ui.
  - apply Hframe. destruct (enableTouch _);
      [apply handleTouchStart_ui|apply same_ui_refl].
  - destruct (enableTouch _); [|by intros [= <-]].
    intros Hd Hs. eapply same_ui_synced; [by eapply handleTouchMove_ui|done].
  - destruct (enableTouch _); [|by intros [= <-]]. apply handleTouchEnd_synced.
  - apply Hframe. unfold handleMouseEnter.
    repeat case_match; try apply same_ui_refl; apply stopAutoPlay_ui.
  - apply Hframe. unfold handleMouseLeave.
    repeat case_match; try apply same_ui_refl; apply startAutoPlay_ui.
  - apply Hframe. unfold handleFocus.
    repeat case_match; try apply same_ui_refl; apply stopAutoPlay_ui.
  - apply Hframe. unfold handleBlur.
    repeat case_match; try apply same_ui_refl; apply startAutoPlay_ui.
  - apply Hframe. by repeat split.
  - apply Hframe. unfold handleVisibilityChange.
    repeat case_match; try apply same_ui_refl;
      [apply stopAutoPlay_ui|apply startAutoPlay_ui].
  - apply Hframe. unfold onIntersection.
    case_match; [apply startAutoPlay_ui|apply stopAutoPlay_ui].
  - unfold onResize. intros Hd Hs.
    eapply same_ui_synced; [by eapply updateSlidePosition_ui|done].
  - unfold autoPlayTick. destruct (autoPlayTimer _); [|by intros [= <-]].
    intros Hd Hs. eapply result_synced; [done|]. by eapply goToNext_result.
Qed.

Lemma run_synced es c c' : run es c = Some c' → ui_synced c → ui_synced c'.
Proof.
  revert c. induction es as [|e es IH]; intros c; simpl; [by intros [= <-]|].
  destruct (dispatch e c) as [c1|] eqn:He; simpl; [|done].
  intros Hrun Hs. eapply IH; [exact Hrun|]. by eapply dispatch_synced.
Qed.


(** No handler writes the configuration. *)
Lemma dispatch_config e c c' : dispatch e c = Some c' → config c' = config c.
Proof.
  assert (∀ c1, same_ui c c1 → Some c1 = Some c' → config c' = config c) as Hframe.
  { intros c1 (Hc & _) [= <-]. done. }
  assert (∀ (r : option Carousel),
            (∀ c1, r = Some c1 → same_play c c1) →
            resetAutoPlay <$> r = Some c' → config c' = config c) as Hreset.
  { intros [c1|] Hr; simpl; [|done]. intros [= <-].
    destruct (resetAutoPlay_ui c1) as (-> & _). by destruct (Hr c1) as (-> & _). }
  destruct e as [index| | | | |index| |key|x|x| | | | |inside| |hidden|i| |]; simpl.
  - intros Hd. by destruct (goToSlide_result _ _ _ Hd) as [(-> & _) _].
  - intros Hd. by destruct (goToNext_result _ _ Hd) as [(-> & _) _].
  - intros Hd. by destruct (goToPrevious_result _ _ Hd) as [(-> & _) _].
  - destruct (prevButton c); [|by intros [= <-]].
    apply Hreset. intros c1 H1. by eapply goToPrevious_result.
  - destruct (nextButton c); [|by intros [= <-]].
    apply Hreset. intros c1 H1. by eapply goToNext_result.
  - case_bool_decide; [|by intros [= <-]].
    apply Hreset. intros c1 H1. by eapply goToSlide_result.
  - apply Hframe. destruct (playPauseButton c);
      [apply handlePlayPauseClick_ui|apply same_ui_refl].
  - destruct (enableKeyboard _); [|by intros [= <-]].
    destruct key; simpl; try (by intros [= <-]).
    + apply Hreset. intros c1 H1. by eapply goToPrevious_result.
    + apply Hreset. intros c1 H1. by eapply goToNext_result.
    + apply Hreset. intros c1 H1. by eapply goToSlide_result.
    + apply Hreset. intros c1 H1. by eapply goToSlide_result.
    + apply Hframe, handlePlayPauseClick_ui.
  - apply Hframe. destruct (enableTouch _);
      [apply handleTouchStart_ui|apply same_ui_refl].
  - destruct (enableTouch _); [|by intros [= <-]].
    intros Hd. by destruct (handleTouchMove_ui _ _ _ Hd) as (-> & _).
  - destruct (enableTouch _); [|by intros [= <-]].
    unfold handleTouchEnd. destruct (negb _); [by intros [= <-]|].
    set (c0 := with_track _ _).
    destruct (if (_ <? _)%Z then _ else _) as [c1|] eqn:Hnav; simpl; [|done].
    intros [= <-]. destruct (resetAutoPlay_ui c1) as (-> & _).
    change (config c) with (config c0).
    destruct (_ <? _)%Z.
    + destruct (_ <? _)%Z.
      * by destruct (goToPrevious_result _ _ Hnav) as [(-> & _) _].
      * by destruct (goToNext_result _ _ Hnav) as [(-> & _) _].
    + by destruct (updateSlidePosition_ui _ _ _ Hnav) as (-> & _).
  - apply Hframe. unfold handleMouseEnter.
    repeat case_match; try apply same_ui_refl; apply stopAutoPlay_ui.
  - apply Hframe. unfold handleMouseLeave.
    repeat case_match; try apply same_ui_refl; apply startAutoPlay_ui.
  - apply Hframe. unfold handleFocus.
    repeat case_match; try apply same_ui_refl; apply stopAutoPlay_ui.
  - apply Hframe. unfold handleBlur.
    repeat case_match; try apply same_ui_refl; apply startAutoPlay_ui.
  - apply Hframe. by repeat split.
  - apply Hframe. unfold handleVisibilityChange.
    repeat case_match; try apply same_ui_refl;
      [apply stopAutoPlay_ui|apply startAutoPlay_ui].
  - apply Hframe. unfold onIntersection.
    case_match; [apply startAutoPlay_ui|apply stopAutoPlay_ui].
  - unfold onResize. intros Hd.
    by destruct (updateSlidePosition_ui _ _ _ Hd) as (-> & _).
  - unfold autoPlayTick. destruct (autoPlayTimer _); [|by intros [= <-]].
    intros Hd. by destruct (goToNext_result _ _ Hd) as [(-> & _) _].
Qed.

Lemma construct_synced o m c :
  construct o m = Some c → ui_synced c ∧ config c = config_of o.
Proof.
  assert (∀ c0, let c1 := updateUI (setupAccessibility c0) in
                let c2 := if isPlaying (state c1) then startAutoPlay c1 else c1 in
                ui_synced c2 ∧ config c2 = config c0) as Hgen.
  { intros c0 c1 c2.
    assert (ui_synced c1) as Hs by apply updateUI_synced.
    assert (config c1 = config c0) as Hc.
    { unfold c1, updateUI, setupAccessibility, updatePlayPauseButton. simpl.
      by destruct (playPauseButton c0). }
    unfold c2. destruct (isPlaying (state c1)); [|split; [exact Hs|exact Hc]].
    split; [by eapply same_ui_synced; [apply startAutoPlay_ui|]|].
    destruct (startAutoPlay_ui c1) as [Hc' _]. congruence. }
  unfold construct. destruct (m_track m) as [t|]; simpl; [|done].
  case_bool_decide; [done|]. intros [= <-].
  exact (Hgen (mkCarousel (config_of o) t (m_slides m) (m_prevButton m)
                 (m_nextButton m) (m_dots m) (m_playPauseButton m)
                 (m_liveRegion m) (initialState (config_of o)))).
Qed.

Lemma synced_slide c j e :
  ui_synced c → slides c !! j = Some e →
  slideIsActive e = bool_decide (Z.of_nat j = currentIndex (state c)) ∧
  slideIsMarked e = bool_decide (Z.of_nat j = currentIndex (state c)).
Proof.
  intros (Hs & _) He. rewrite <- Hs, list_lookup_imap in He.
  destruct (slides c !! j); simpl in He; [|done]. injection He as <-.
  apply mark_current_observed.
Qed.

Lemma synced_dot c j d :
  ui_synced c → dots c !! j = Some d →
  slideIsActive d = bool_decide (Z.of_nat j = currentIndex (state c)).
Proof.
  intros (_ & Hd & _) He. rewrite <- Hd, list_lookup_imap in He.
  destruct (dots c !! j); simpl in He; [|done]. injection He as <-.
  apply mark_current_observed.
Qed.

Lemma synced_count c :
  ui_synced c → index_in_range c →
  length (List.filter slideIsMarked (slides c)) = 1.
Proof.
  intros (Hs & _) Hin. rewrite <- Hs.
  rewrite (imap_ext _ (λ j, mark_current (currentIndex (state c)) (0 + j))) by done.
  rewrite marked_count_from. unfold index_in_range, slideCount in Hin.
  rewrite bool_decide_eq_true_2 by lia. done.
Qed.

Lemma enable_button_fixed en b : enable_button en b = b → disabled b = negb en.
Proof. unfold enable_button. destruct en; intros <-; done. Qed.

(** X1. The drawn carousel always shows its index: from construction on and
    after every sequence of events, the slide at [currentIndex] is the one
    slide marked active (class and [aria-current]), the dot at that position
    is the one dot marked, and the live region announces
    [currentIndex + 1] of the slide count. *)
Theorem ui_always_shows_index (o : Options) (m : Markup) (t : Track) (es : list Event) :
  m_track m = Some t →
  m_slides m ≠ [] →
  ∃ c0 c, construct o m = Some c0 ∧ run es c0 = Some c ∧
    (∀ j e, slides c !! j = Some e →
            slideIsActive e = bool_decide (Z.of_nat j = currentIndex (state c)) ∧
            slideIsMarked e = bool_decide (Z.of_nat j = currentIndex (state c))) ∧
    length (List.filter slideIsMarked (slides c)) = 1 ∧
    (∀ j d, dots c !! j = Some d →
            slideIsActive d = bool_decide (Z.of_nat j = currentIndex (state c))) ∧
    liveRegion c =
      Some (mkLiveText (currentIndex (state c) + 1) (length (slides c))).
Proof.
  intros Ht Hs.
  destruct (construct_initial o m t Ht Hs) as (c0 & Hc0 & Hidx & Hlen).
  assert (index_in_range c0) as Hin0.
  { unfold index_in_range, slideCount. rewrite Hidx, Hlen.
    destruct (m_slides m); [done|]. simpl. lia. }
  destruct (run_keeps es c0 Hin0) as (c & Hrun & _ & Hin).
  destruct (construct_synced o m c0 Hc0) as [Hsync0 _].
  pose proof (run_synced es c0 c Hrun Hsync0) as Hsync.
  exists c0, c. split; [done|]. split; [done|].
  split; [intros j e; by apply synced_slide|].
  split; [by apply synced_count|].
  split; [intros j d; by apply synced_dot|].
  by destruct Hsync as (_ & _ & _ & _ & ->).
Qed.

Lemma ui_always_shows_index_witness :
  ∃ c0 c, construct noOptions threeSlides = Some c0 ∧
    run [GoToSlide 2; TransitionEnd; TouchStart 10; TouchMove 200; TouchEnd] c0 = Some c ∧
    (∀ j e, slides c !! j = Some e →
            slideIsActive e = bool_decide (Z.of_nat j = currentIndex (state c)) ∧
            slideIsMarked e = bool_decide (Z.of_nat j = currentIndex (state c))) ∧
    length (List.filter slideIsMarked (slides c)) = 1 ∧
    (∀ j d, dots c !! j = Some d →
            slideIsActive d = bool_decide (Z.of_nat j = currentIndex (state c))) ∧
    liveRegion c =
      Some (mkLiveText (currentIndex (state c) + 1) (length (slides c))).
Proof.
  apply (ui_always_shows_index noOptions threeSlides threeTrack); by vm_compute.
Defined.

(** X2. Without looping the controls follow the ends: in every state reached
    from construction the previous button is disabled exactly at index 0 and
    the next button exactly at the last index; with looping neither is ever
    disabled.  At rest on an end, the command that would leave the range
    changes nothing. *)
Theorem controls_follow_the_ends (o : Options) (m : Markup) (t : Track) (es : list Event) :
  m_track m = Some t →
  m_slides m ≠ [] →
  ∃ c0 c, construct o m = Some c0 ∧ run es c0 = Some c ∧
    (∀ b, prevButton c = Some b →
          disabled b = negb (loop (config_of o)) && (currentIndex (state c) =? 0)%Z) ∧
    (∀ b, nextButton c = Some b →
          disabled b = negb (loop (config_of o))
                       && (currentIndex (state c) =? slideCount c - 1)%Z) ∧
    (loop (config_of o) = false → isTransitioning (state c) = false →
     (currentIndex (state c) = 0%Z → goToPrevious c = Some c) ∧
     (currentIndex (state c) = (slideCount c - 1)%Z → goToNext c = Some c)).
Proof.
  intros Ht Hs.
  destruct (construct_initial o m t Ht Hs) as (c0 & Hc0 & Hidx & Hlen).
  assert (index_in_range c0) as Hin0.
  { unfold index_in_range, slideCount. rewrite Hidx, Hlen.
    destruct (m_slides m); [done|]. simpl. lia. }
  destruct (run_keeps es c0 Hin0) as (c & Hrun & _ & Hin).
  destruct (construct_synced o m c0 Hc0) as [Hsync0 Hcfg0].
  pose proof (run_synced es c0 c Hrun Hsync0) as Hsync.
  assert (config c = config_of o) as Hcfg.
  { clear -Hrun Hcfg0. revert c0 Hrun Hcfg0.
    induction es as [|e es IH]; intros c0; simpl; [by intros [= <-]|].
    destruct (dispatch e c0) as [c1|] eqn:He; simpl; [|done].
    intros Hrun Hc. eapply IH; [exact Hrun|]. rewrite <- Hc.
    clear -He. apply (dispatch_config e c0 c1 He). }
  exists c0, c. split; [done|]. split; [done|].
  destruct Hsync as (_ & _ & Hp & Hn & _). rewrite Hcfg in Hp, Hn.
  unfold index_in_range in Hin.
  split; [|split].
  - intros b Hb. rewrite Hb in Hp. simpl in Hp. injection Hp as Hp.
    rewrite (enable_button_fixed _ _ Hp). rewrite negb_orb. f_equal. lia.
  - intros b Hb. rewrite Hb in Hn. simpl in Hn. injection Hn as Hn.
    rewrite (enable_button_fixed _ _ Hn). rewrite negb_orb. f_equal. lia.
  - intros Hloop Hrest. split; intros Hcur.
    + unfold goToPrevious. rewrite Hrest, Hcfg, Hloop, Hcur. simpl.
      unfold goToSlide. rewrite Hcur. done.
    + unfold goToNext. rewrite Hrest, Hcfg, Hloop.
      replace (slideCount c <=? currentIndex (state c) + 1)%Z with true by lia.
      unfold goToSlide. rewrite Hcur, Z.eqb_refl. done.
Qed.

Lemma controls_follow_the_ends_witness :
  ∃ c0 c, construct noLoop threeSlides = Some c0 ∧
    run [NextClick; TransitionEnd; NextClick; TransitionEnd] c0 = Some c ∧
    (∀ b, prevButton c = Some b →
          disabled b = negb (loop (config_of noLoop)) && (currentIndex (state c) =? 0)%Z) ∧
    (∀ b, nextButton c = Some b →
          disabled b = negb (loop (config_of noLoop))
                       && (currentIndex (state c) =? slideCount c - 1)%Z) ∧
    (loop (config_of noLoop) = false → isTransitioning (state c) = false →
     (currentIndex (state c) = 0%Z → goToPrevious c = Some c) ∧
     (currentIndex (state c) = (slideCount c - 1)%Z → goToNext c = Some c)).
Proof.
  apply (controls_follow_the_ends noLoop threeSlides threeTrack); by vm_compute.
Defined.

(** *** Auto-play *)

Ltac play_crush :=
  let ape := fresh "ape" in
  let poh := fresh "poh" in
  let pof := fresh "pof" in
  let pp := fresh "pp" in
  let ip := fresh "ip" in
  let apt := fresh "apt" in
  match goal with
  | c : Carousel |- _ =>
      destruct c as [[? ape ? ? poh pof ? ? ?] ? ? ? ? ? pp ? [? ip ? ? ? ? ? apt]]
  end;
  unfold timer_ok; cbn;
  destruct ape, ip, apt; cbn; try (destruct pp; cbn);
  try (destruct poh; cbn); try (destruct pof; cbn); intuition congruence.

Lemma startAutoPlay_timer c :
  isPlaying (state c) = true → timer_ok c → timer_ok (startAutoPlay c).
Proof. unfold startAutoPlay. play_crush. Qed.

Lemma stopAutoPlay_timer c : timer_ok c → timer_ok (stopAutoPlay c).
Proof. unfold stopAutoPlay. play_crush. Qed.

Lemma resetAutoPlay_timer c : timer_ok c → timer_ok (resetAutoPlay c).
Proof. unfold resetAutoPlay, startAutoPlay, stopAutoPlay. play_crush. Qed.

Lemma handlePlayPauseClick_timer c : timer_ok c → timer_ok (handlePlayPauseClick c).
Proof.
  unfold handlePlayPauseClick, play, pause, updatePlayPauseButton,
    startAutoPlay, stopAutoPlay. play_crush.
Qed.

Lemma handleMouseEnter_timer c : timer_ok c → timer_ok (handleMouseEnter c).
Proof. unfold handleMouseEnter, stopAutoPlay. play_crush. Qed.

Lemma handleMouseLeave_timer c : timer_ok c → timer_ok (handleMouseLeave c).
Proof. unfold handleMouseLeave, startAutoPlay. play_crush. Qed.

Lemma handleFocus_timer c : timer_ok c → timer_ok (handleFocus c).
Proof. unfold handleFocus, stopAutoPlay. play_crush. Qed.

Lemma handleBlur_timer inside c : timer_ok c → timer_ok (handleBlur inside c).
Proof. unfold handleBlur, startAutoPlay. destruct inside; play_crush. Qed.

Lemma handleVisibilityChange_timer hidden c :
  timer_ok c → timer_ok (handleVisibilityChange hidden c).
Proof.
  unfold handleVisibilityChange, startAutoPlay, stopAutoPlay.
  destruct hidden; play_crush.
Qed.

Lemma onIntersection_timer i c : timer_ok c → timer_ok (onIntersection i c).
Proof. unfold onIntersection, startAutoPlay, stopAutoPlay. destruct i; play_crush. Qed.

Lemma handleTouchStart_timer x c : timer_ok c → timer_ok (handleTouchStart x c).
Proof.
  unfold handleTouchStart. destruct (isTransitioning (state c)); [done|].
  intros Hok. apply stopAutoPlay_timer. exact Hok.
Qed.

Lemma handleTouchMove_play x c c' : handleTouchMove x c = Some c' → same_play c c'.
Proof.
  unfold handleTouchMove. destruct (negb _); [intros [= <-]; apply same_play_refl|].
  destruct (head (slides c)); simpl; [|done]. intros [= <-]. by repeat split.
Qed.

Lemma handleTouchEnd_timer c c' : handleTouchEnd c = Some c' → timer_ok c → timer_ok c'.
Proof.
  unfold handleTouchEnd. destruct (negb _); [by intros [= <-]|].
  set (c0 := with_track _ _).
  destruct (if (_ <? _)%Z then _ else _) as [c1|] eqn:Hnav; simpl; [|done].
  intros [= <-] Hok. apply resetAutoPlay_timer.
  assert (same_play c0 c1) as Hp.
  { destruct (_ <? _)%Z.
    - destruct (_ <? _)%Z.
      + by destruct (goToPrevious_result _ _ Hnav).
      + by destruct (goToNext_result _ _ Hnav).
    - by eapply updateSlidePosition_play. }
  eapply same_play_timer_ok; [exact Hp|]. exact Hok.
Qed.

Lemma fmap_reset_timer (r : option Carousel) c c' :
  (∀ c1, r = Some c1 → same_play c c1) →
  resetAutoPlay <$> r = Some c' → timer_ok c → timer_ok c'.
Proof.
  intros Hr. destruct r as [c1|]; simpl; [|done]. intros [= <-] Hok.
  apply resetAutoPlay_timer. eapply same_play_timer_ok; [by apply Hr|done].
Qed.

Lemma dispatch_timer e c c' : dispatch e c = Some c' → timer_ok c → timer_ok c'.
Proof.
  destruct e as [index| | | | |index| |key|x|x| | | | |inside| |hidden|i| |]; simpl.
  - intros Hd. apply same_play_timer_ok. by destruct (goToSlide_result _ _ _ Hd).
  - intros Hd. apply same_play_timer_ok. by destruct (goToNext_result _ _ Hd).
  - intros Hd. apply same_play_timer_ok. by destruct (goToPrevious_result _ _ Hd).
  - destruct (prevButton c); [|by intros [= <-]].
    apply fmap_reset_timer. intros c1 H1. by destruct (goToPrevious_result _ _ H1).
  - destruct (nextButton c); [|by intros [= <-]].
    apply fmap_reset_timer. intros c1 H1. by destruct (goToNext_result _ _ H1).
  - case_bool_decide; [|by intros [= <-]].
    apply fmap_reset_timer. intros c1 H1. by destruct (goToSlide_result _ _ _ H1).
  - intros [= <-]. destruct (playPauseButton c); [apply handlePlayPauseClick_timer|done].
  - destruct (enableKeyboard _); [|by intros [= <-]].
    destruct key; simpl; try (by intros [= <-]).
    + apply fmap_reset_timer. intros c1 H1. by destruct (goToPrevious_result _ _ H1).
    + apply fmap_reset_timer. intros c1 H1. by destruct (goToNext_result _ _ H1).
    + apply fmap_reset_timer. intros c1 H1. by destruct (goToSlide_result _ _ _ H1).
    + apply fmap_reset_timer. intros c1 H1. by destruct (goToSlide_result _ _ _ H1).
    + intros [= <-]. apply handlePlayPauseClick_timer.
  - intros [= <-]. destruct (enableTouch _); [apply handleTouchStart_timer|done].
  - destruct (enableTouch _); [|by intros [= <-]].
    intros Hd. apply same_play_timer_ok. by eapply handleTouchMove_play.
  - destruct (enableTouch _); [|by intros [= <-]]. apply handleTouchEnd_timer.
  - intros [= <-]. destruct (pauseOnHover _); [apply handleMouseEnter_timer|done].
  - intros [= <-]. destruct (pauseOnHover _); [apply handleMouseLeave_timer|done].
  - intros [= <-]. destruct (pauseOnFocus _); [apply handleFocus_timer|done].
  - intros [= <-]. destruct (pauseOnFocus _); [apply handleBlur_timer|done].
  - intros [= <-]. done.
  - intros [= <-]. apply handleVisibilityChange_timer.
  - intros [= <-]. apply onIntersection_timer.
  - unfold onResize. intros Hd. apply same_play_timer_ok.
    by eapply updateSlidePosition_play.
  - unfold autoPlayTick. destruct (autoPlayTimer _); [|by intros [= <-]].
    intros Hd. apply same_play_timer_ok. by destruct (goToNext_result _ _ Hd).
Qed.

Lemma run_timer es c c' : run es c = Some c' → timer_ok c → timer_ok c'.
Proof.
  revert c. induction es as [|e es IH]; intros c; simpl; [by intros [= <-]|].
  destruct (dispatch e c) as [c1|] eqn:He; simpl; [|done].
  intros Hrun Hok. eapply IH; [exact Hrun|]. by eapply dispatch_timer.
Qed.

Lemma run_config es c c' : run es c = Some c' → config c' = config c.
Proof.
  revert c. induction es as [|e es IH]; intros c; simpl; [by intros [= <-]|].
  destruct (dispatch e c) as [c1|] eqn:He; simpl; [|done].
  intros Hrun. rewrite (IH _ Hrun). by eapply dispatch_config.
Qed.

Lemma construct_timer o m c : construct o m = Some c → timer_ok c.
Proof.
  assert (∀ c0, autoPlayTimer (state c0) = false →
                let c1 := updateUI (setupAccessibility c0) in
                timer_ok (if isPlaying (state c1) then startAutoPlay c1 else c1)) as Hgen.
  { intros c0 H0 c1.
    assert (autoPlayTimer (state c1) = false) as H1.
    { unfold c1, updateUI, setupAccessibility, updatePlayPauseButton. simpl.
      by destruct (playPauseButton c0). }
    assert (timer_ok c1) as Hok by (unfold timer_ok; rewrite H1; done).
    destruct (isPlaying (state c1)) eqn:Hp; [|done].
    by apply startAutoPlay_timer. }
  unfold construct. destruct (m_track m) as [t|]; simpl; [|done].
  case_bool_decide; [done|]. intros [= <-].
  exact (Hgen (mkCarousel (config_of o) t (m_slides m) (m_prevButton m)
                 (m_nextButton m) (m_dots m) (m_playPauseButton m)
                 (m_liveRegion m) (initialState (config_of o))) eq_refl).
Qed.

(** X3. The interval runs only for a playing carousel: in every state
    reached from construction an armed auto-play timer implies that the
    carousel is playing and that auto-play is enabled in its configuration.
    So a paused carousel, and one configured without auto-play, is never
    moved by a tick of the interval. *)
Theorem autoplay_only_while_playing (o : Options) (m : Markup) (t : Track) (es : list Event) :
  m_track m = Some t →
  m_slides m ≠ [] →
  ∃ c0 c, construct o m = Some c0 ∧ run es c0 = Some c ∧
    (autoPlayTimer (state c) = true →
     isPlaying (state c) = true ∧ autoPlayEnabled (config_of o) = true) ∧
    (isPlaying (state c) = false ∨ autoPlayEnabled (config_of o) = false →
     dispatch AutoPlayTick c = Some c).
Proof.
  intros Ht Hs.
  destruct (construct_initial o m t Ht Hs) as (c0 & Hc0 & Hidx & Hlen).
  assert (index_in_range c0) as Hin0.
  { unfold index_in_range, slideCount. rewrite Hidx, Hlen.
    destruct (m_slides m); [done|]. simpl. lia. }
  destruct (run_keeps es c0 Hin0) as (c & Hrun & _).
  destruct (construct_synced o m c0 Hc0) as [_ Hcfg0].
  pose proof (run_timer es c0 c Hrun (construct_timer o m c0 Hc0)) as Hok.
  pose proof (run_config es c0 c Hrun) as Hcfg. rewrite Hcfg0 in Hcfg.
  exists c0, c. split; [done|]. split; [done|].
  unfold timer_ok in Hok. rewrite Hcfg in Hok. split; [exact Hok|].
  intros Hoff. simpl. unfold autoPlayTick.
  destruct (autoPlayTimer (state c)); [|done].
  destruct Hok as [Hp He]; [done|]. destruct Hoff; congruence.
Qed.

Lemma autoplay_only_while_playing_witness :
  ∃ c0 c, construct noOptions threeSlides = Some c0 ∧
    run [PlayPauseClick; MouseEnter; MouseLeave; FocusOut false] c0 = Some c ∧
    (autoPlayTimer (state c) = true →
     isPlaying (state c) = true ∧ autoPlayEnabled (config_of noOptions) = true) ∧
    (isPlaying (state c) = false ∨ autoPlayEnabled (config_of noOptions) = false →
     dispatch AutoPlayTick c = Some c).
Proof.
  apply (autoplay_only_while_playing noOptions threeSlides threeTrack); by vm_compute.
Defined.

(** *** One step to a neighbour *)

Lemma goToSlide_to index c :
  (0 <= index < slideCount c)%Z →
  isTransitioning (state c) = false →
  ∃ c', goToSlide index c = Some c' ∧ currentIndex (state c') = index ∧
        length (slides c') = length (slides c) ∧ config c' = config c ∧
        isDragging (state c') = isDragging (state c).
Proof.
  intros Hr Ht. unfold goToSlide. rewrite Ht, orb_false_r.
  destruct (Z.eqb_spec index (currentIndex (state c))) as [->|_]; [by exists c|].
  replace (index <? 0)%Z with false by lia.
  replace (slideCount c <=? index)%Z with false by lia. simpl.
  unfold updateSlidePosition. simpl.
  destruct (slides c) eqn:Heq; [unfold slideCount in Hr; rewrite Heq in Hr; simpl in Hr; lia|].
  simpl. eexists. split; [done|]. simpl. by rewrite length_imap, Heq.
Qed.

Lemma goToNext_neighbour c :
  index_in_range c → isTransitioning (state c) = false →
  ∃ c', goToNext c = Some c' ∧ currentIndex (state c') = neighbour c 1 ∧
        length (slides c') = length (slides c) ∧ config c' = config c ∧
        isDragging (state c') = isDragging (state c).
Proof.
  intros Hin Ht. unfold goToNext. rewrite Ht. unfold index_in_range in Hin.
  match goal with |- context [goToSlide ?i c] => set (target := i) end.
  assert (target = neighbour c 1) as Htarget.
  { unfold target, neighbour. destruct (Z.leb_spec (slideCount c) (currentIndex (state c) + 1));
      destruct (loop (config c)); try lia.
    - replace (currentIndex (state c) + 1)%Z with (slideCount c) by lia.
      by rewrite Z_mod_same_full.
    - rewrite Z.mod_small; lia. }
  destruct (goToSlide_to target c) as (c' & Hgo & Hidx & Hrest); [|done|].
  { unfold target. destruct (Z.leb_spec (slideCount c) (currentIndex (state c) + 1));
      destruct (loop (config c)); lia. }
  exists c'. split; [done|]. split; [congruence|done].
Qed.

Lemma goToPrevious_neighbour c :
  index_in_range c → isTransitioning (state c) = false →
  ∃ c', goToPrevious c = Some c' ∧ currentIndex (state c') = neighbour c (-1) ∧
        length (slides c') = length (slides c) ∧ config c' = config c ∧
        isDragging (state c') = isDragging (state c).
Proof.
  intros Hin Ht. unfold goToPrevious. rewrite Ht. unfold index_in_range in Hin.
  match goal with |- context [goToSlide ?i c] => set (target := i) end.
  assert (target = neighbour c (-1)) as Htarget.
  { unfold target, neighbour. destruct (Z.ltb_spec (currentIndex (state c) - 1) 0);
      destruct (loop (config c)); try lia.
    - apply (Z.mod_unique _ _ (-1)); lia.
    - rewrite Z.mod_small; lia. }
  destruct (goToSlide_to target c) as (c' & Hgo & Hidx & Hrest); [|done|].
  { unfold target. destruct (Z.ltb_spec (currentIndex (state c) - 1) 0);
      destruct (loop (config c)); lia. }
  exists c'. split; [done|]. split; [congruence|done].
Qed.

(** *** Touch gestures *)

Lemma touchStart_dragging x0 c :
  enableTouch (config c) = true → isTransitioning (state c) = false →
  ∃ c1, dispatch (TouchStart x0) c = Some c1 ∧ dragging x0 x0 c c1.
Proof.
  intros He Ht. simpl. rewrite He. eexists. split; [done|].
  split; [apply handleTouchStart_ui|].
  unfold handleTouchStart, stopAutoPlay. rewrite Ht. simpl.
  destruct (autoPlayTimer (state c)); simpl; by rewrite ?Ht.
Qed.

Lemma touchMove_dragging x0 x x' c c1 :
  enableTouch (config c) = true → slides c ≠ [] →
  dragging x0 x c c1 →
  ∃ c2, dispatch (TouchMove x') c1 = Some c2 ∧ dragging x0 x' c c2.
Proof.
  intros He Hs (Hui & Hd & Ht & Hx0 & Hx). simpl.
  destruct Hui as (Hcfg & Hsl & Hrest). rewrite Hcfg, He.
  unfold handleTouchMove. rewrite Hd. simpl. rewrite Hsl.
  destruct (slides c) as [|s0 l] eqn:Heq; [done|]. simpl.
  eexists. split; [done|]. split; [|done].
  split; [done|]. split; [simpl; congruence|]. exact Hrest.
Qed.

Lemma touchMoves_dragging x0 moves x c c1 :
  enableTouch (config c) = true → slides c ≠ [] →
  dragging x0 x c c1 →
  ∃ c2, run (TouchMove <$> moves) c1 = Some c2 ∧
        dragging x0 (default x (last moves)) c c2.
Proof.
  intros He Hs. revert x c1.
  induction moves as [|x' moves IH]; intros x c1 Hdrag; [by exists c1|].
  destruct (touchMove_dragging x0 x x' c c1 He Hs Hdrag) as (c2 & Hmove & Hdrag2).
  destruct (IH x' c2 Hdrag2) as (c3 & Hrun & Hdrag3).
  exists c3. rewrite fmap_cons. cbn [run]. rewrite Hmove. simpl. split; [done|].
  rewrite last_cons. by destruct (last moves).
Qed.

Lemma run_app es1 es2 c : run (es1 ++ es2) c = run es1 c ≫= run es2.
Proof.
  revert c. induction es1 as [|e es1 IH]; intros c; simpl; [done|].
  destruct (dispatch e c); simpl; [apply IH|done].
Qed.

Lemma gesture_dragging x0 moves c :
  enableTouch (config c) = true → isTransitioning (state c) = false →
  slides c ≠ [] →
  ∃ c2, run (gesture x0 moves) c = handleTouchEnd c2 ∧
        dragging x0 (default x0 (last moves)) c c2.
Proof.
  intros He Ht Hs.
  destruct (touchStart_dragging x0 c He Ht) as (c1 & Hstart & Hdrag1).
  destruct (touchMoves_dragging x0 moves x0 c c1 He Hs Hdrag1) as (c2 & Hrun & Hdrag2).
  exists c2. split; [|done]. unfold gesture. cbn [run]. rewrite Hstart. simpl.
  rewrite run_app, Hrun. simpl.
  destruct Hdrag2 as ((Hcfg & _) & _). rewrite Hcfg, He.
  by destruct (handleTouchEnd c2).
Qed.

(** X4. A swipe that ends within the threshold snaps back: whatever path
    the finger takes, if it is lifted no further than [swipeThreshold] from
    where it went down, the carousel shows the same slide as before, no
    transition is pending, and the track is animated back to the resting
    position of that slide. *)
Theorem short_swipe_snaps_back (x0 : Z) (moves : list Z) (c : Carousel) :
  enableTouch (config c) = true →
  isTransitioning (state c) = false →
  slides c ≠ [] →
  (Z.abs (displacement x0 moves) <= swipeThreshold (config c))%Z →
  ∃ c', run (gesture x0 moves) c = Some c' ∧
        same_ui c c' ∧ at_rest c' ∧
        style_transform (track c') = restingTransform c ∧
        style_transition (track c') = TransitionEase (transitionDuration (config c)).
Proof.
  intros He Ht Hs Hshort.
  destruct (gesture_dragging x0 moves c He Ht Hs)
    as (c2 & -> & (Hcfg & Hsl & Hui) & Hd & Ht2 & Hx0 & Hx).
  unfold handleTouchEnd. rewrite Hd. simpl. rewrite Hx, Hx0, Hcfg.
  unfold displacement in Hshort.
  replace (_ <? _)%Z with false by lia.
  unfold updateSlidePosition. simpl. rewrite Hsl.
  destruct (slides c) as [|s0 l] eqn:Heq; [done|]. simpl.
  eexists. split; [done|].
  match goal with |- context [resetAutoPlay ?c0] =>
    pose proof (resetAutoPlay_ui c0) as Hr; set (c3 := c0) in *
  end.
  assert (same_ui c c3) as Hui3.
  { unfold c3. split; [done|]. split; [simpl; congruence|]. exact Hui. }
  split; [by eapply same_ui_trans|].
  assert (isTransitioning (state (resetAutoPlay c3)) = false
          ∧ isDragging (state (resetAutoPlay c3)) = false
          ∧ track (resetAutoPlay c3) = track c3) as (Ht3 & Hd3 & Htr).
  { unfold resetAutoPlay, startAutoPlay, stopAutoPlay.
    assert (isTransitioning (state c3) = false) as Ha by done.
    assert (isDragging (state c3) = false) as Hb by done.
    repeat case_match; simpl; done. }
  split; [by split|]. rewrite Htr. unfold c3, restingTransform. simpl.
  rewrite Heq. simpl. destruct Hui as (_ & _ & _ & _ & ->). by rewrite Hcfg.
Qed.

Lemma short_swipe_snaps_back_witness :
  ∃ c', run (gesture 100 [130; 180; 140]%Z) threeAtLast = Some c' ∧
        same_ui threeAtLast c' ∧ at_rest c' ∧
        style_transform (track c') = restingTransform threeAtLast ∧
        style_transition (track c')
          = TransitionEase (transitionDuration (config threeAtLast)).
Proof.
  apply (short_swipe_snaps_back 100 [130; 180; 140]%Z threeAtLast); by vm_compute.
Defined.

(** X5. A swipe that ends beyond the threshold turns one slide: lifted more
    than [swipeThreshold] to the right of where it went down, the finger
    brings the previous slide, to the left the next one; around the ends
    when looping, held at the ends otherwise.  The path in between does not
    matter. *)
Theorem long_swipe_turns_one_slide (x0 : Z) (moves : list Z) (c : Carousel) :
  enableTouch (config c) = true →
  isTransitioning (state c) = false →
  index_in_range c →
  (swipeThreshold (config c) < Z.abs (displacement x0 moves))%Z →
  ∃ c', run (gesture x0 moves) c = Some c' ∧
        currentIndex (state c')
          = neighbour c (if (0 <? displacement x0 moves)%Z then -1 else 1) ∧
        index_in_range c' ∧ isDragging (state c') = false.
Proof.
  intros He Ht Hin Hlong.
  destruct (gesture_dragging x0 moves c He Ht (in_range_nonempty c Hin))
    as (c2 & -> & (Hcfg & Hsl & Hui) & Hd & Ht2 & Hx0 & Hx).
  unfold handleTouchEnd. rewrite Hd. simpl. rewrite Hx, Hx0, Hcfg.
  unfold displacement in *.
  replace (swipeThreshold (config c) <? _)%Z with true by lia.
  match goal with |- context [goToPrevious ?c0] => set (c3 := c0) end.
  assert (index_in_range c3 ∧ ∀ dir, neighbour c3 dir = neighbour c dir) as [Hin3 Hnb].
  { destruct Hui as (_ & _ & _ & _ & Hidx).
    unfold index_in_range, neighbour, slideCount, c3 in *. simpl.
    rewrite Hsl, Hidx, Hcfg. done. }
  assert (∀ r dir, (∃ c', r = Some c' ∧ currentIndex (state c') = neighbour c3 dir ∧
                     length (slides c') = length (slides c3) ∧ config c' = config c3 ∧
                     isDragging (state c') = isDragging (state c3)) →
          ∃ c', (r ≫= λ c4, Some (resetAutoPlay c4)) = Some c' ∧
                currentIndex (state c') = neighbour c dir ∧
                index_in_range c' ∧ isDragging (state c') = false) as Hfin.
  { intros r dir (c4 & -> & Hidx & Hlen & _ & Hdr). simpl. eexists. split; [done|].
    destruct (resetAutoPlay_position c4) as [Hl Hi].
    assert (isDragging (state (resetAutoPlay c4)) = isDragging (state c4)) as Hdd.
    { unfold resetAutoPlay, startAutoPlay, stopAutoPlay. repeat case_match; done. }
    rewrite Hi, Hidx, Hnb, Hdd, Hdr. split; [done|]. split; [|done].
    unfold index_in_range, slideCount. rewrite Hi, Hl, Hlen, Hidx.
    clear -Hin3. unfold index_in_range, neighbour, slideCount in *.
    destruct (loop (config c3)); [|lia].
    apply Z.mod_pos_bound. lia. }
  destruct (0 <? _)%Z.
  - apply Hfin. by apply goToPrevious_neighbour.
  - apply Hfin. by apply goToNext_neighbour.
Qed.

Lemma long_swipe_turns_one_slide_witness :
  ∃ c', run (gesture 300 [250; 120]%Z) threeAtLast = Some c' ∧
        currentIndex (state c')
          = neighbour threeAtLast (if (0 <? displacement 300 [250; 120]%Z)%Z then -1 else 1) ∧
        index_in_range c' ∧ isDragging (state c') = false.
Proof.
  apply (long_swipe_turns_one_slide 300 [250; 120]%Z threeAtLast); by vm_compute.
Defined.

(** X6. Going forward [k] times, each transition allowed to end, from a
    carousel at index [i] with [n] slides: a looping carousel stands at
    [(i + k) mod n], one that does not loop at [min (n - 1) (i + k)]. *)
Theorem advance_counts_modulo (k : nat) (c : Carousel) :
  index_in_range c →
  isTransitioning (state c) = false →
  ∃ c', run (advance k) c = Some c' ∧
        isTransitioning (state c') = false ∧
        currentIndex (state c')
          = (if loop (config c)
             then (currentIndex (state c) + Z.of_nat k) mod slideCount c
             else Z.min (slideCount c - 1) (currentIndex (state c) + Z.of_nat k))%Z.
Proof.
  revert c. induction k as [|k IH]; intros c Hin Ht.
  - exists c. split; [done|]. split; [done|]. unfold index_in_range in Hin.
    rewrite Z.add_0_r. destruct (loop (config c)); [|lia].
    by rewrite Z.mod_small.
  - destruct (goToNext_neighbour c Hin Ht) as (c1 & Hgo & Hidx & Hlen & Hcfg & _).
    set (c2 := handleTransitionEnd c1).
    assert (slideCount c2 = slideCount c) as Hn by (unfold slideCount; simpl; by rewrite Hlen).
    assert (index_in_range c2) as Hin2.
    { unfold index_in_range. rewrite Hn. simpl. rewrite Hidx.
      unfold index_in_range, neighbour in *.
      destruct (loop (config c)); [apply Z.mod_pos_bound|]; lia. }
    destruct (IH c2 Hin2 eq_refl) as (c' & Hrun & Ht' & Hidx').
    exists c'. change (advance (S k)) with (GoToNext :: TransitionEnd :: advance k).
    cbn [run dispatch]. rewrite Hgo. simpl. fold c2. split; [done|]. split; [done|].
    rewrite Hidx', Hn. simpl. rewrite Hcfg, Hidx. unfold neighbour.
    unfold index_in_range in Hin.
    destruct (loop (config c)).
    + rewrite Zplus_mod_idemp_l. f_equal. lia.
    + lia.
Qed.

Lemma advance_counts_modulo_witness :
  ∃ c', run (advance 7) threeBuilt = Some c' ∧
        isTransitioning (state c') = false ∧
        currentIndex (state c')
          = (if loop (config threeBuilt)
             then (currentIndex (state threeBuilt) + Z.of_nat 7) mod slideCount threeBuilt
             else Z.min (slideCount threeBuilt - 1)
                        (currentIndex (state threeBuilt) + Z.of_nat 7))%Z.
Proof.
  apply (advance_counts_modulo 7 threeBuilt); by vm_compute.
Defined.

End CarouselMore.

(** ** Analytics client: consent and delivery *)

Module AnalyticsMore.
Import Analytics AnalyticsSpec.

Lemma same_outbox_refl w : same_outbox w w.
Proof. by repeat split. Qed.

Lemma same_outbox_trans w1 w2 w3 :
  same_outbox w1 w2 → same_outbox w2 w3 → same_outbox w1 w3.
Proof.
  unfold same_outbox. intros (?&?&?&?&?) (?&?&?&?&?). repeat split; congruence.
Qed.

Lemma same_outbox_unconsented w w' : same_outbox w w' → unconsented w → unconsented w'.
Proof. unfold same_outbox, unconsented. intros (_&_&->&->&->). done. Qed.

Lemma same_outbox_quiet w w' : same_outbox w w' → quiet_step w w'.
Proof.
  intros (Hdl & Hb & _). split; [|done]. exists []. rewrite Hdl, app_nil_r. done.
Qed.

Lemma quiet_step_trans w1 w2 w3 : quiet_step w1 w2 → quiet_step w2 w3 → quiet_step w1 w3.
Proof.
  intros [(x1 & H1 & Hq1) Hb1] [(x2 & H2 & Hq2) Hb2]. split; [|congruence].
  exists (x1 ++ x2). rewrite H2, H1, <- app_assoc. split; [done|].
  rewrite forallb_app, Hq1, Hq2. done.
Qed.

Lemma quiet_step_sent w w' : quiet_step w w' → sentEvents w' = sentEvents w.
Proof.
  intros [(extra & Hdl & Hq) _]. unfold sentEvents. rewrite Hdl, omap_app.
  rewrite <- (app_nil_r (omap _ (default [] (dataLayer w)))) at 2. f_equal.
  clear Hdl. induction extra as [|call extra IH]; [done|].
  simpl in Hq. apply andb_true_iff in Hq as [Hc Hq].
  destruct call; simpl in *; try done; by apply IH.
Qed.

(** While consent is withheld every path of the client queues. *)
Lemma trackEvent_withheld now name params immediate w :
  consentGiven (state w) = false →
  same_outbox w (trackEvent now name params immediate w).
Proof.
  intros Hc. unfold trackEvent. case_bool_decide; [apply same_outbox_refl|].
  rewrite Hc. simpl. by repeat split.
Qed.

Lemma processQueuedEvents_withheld now w :
  consentGiven (state w) = false →
  same_outbox w (processQueuedEvents now w).
Proof.
  intros Hc. rewrite processQueuedEvents_requeues by (by rewrite Hc).
  by repeat split.
Qed.

Lemma loadGtagScript_withheld cfg now w :
  consentGiven (state w) = false →
  same_outbox w (loadGtagScript cfg now w).
Proof.
  intros Hc. unfold loadGtagScript. case_bool_decide; [|by repeat split].
  eapply same_outbox_trans; [|by apply processQueuedEvents_withheld].
  by repeat split.
Qed.

Lemma script_onerror_withheld cfg now w :
  consentGiven (state w) = false →
  same_outbox w (script_onerror cfg now w).
Proof.
  intros Hc. unfold script_onerror. case_bool_decide; [by repeat split|].
  eapply same_outbox_trans; [|by apply processQueuedEvents_withheld].
  by repeat split.
Qed.

Lemma script_onload_withheld i now w :
  consentGiven (state w) = false →
  same_outbox w (script_onload i now w).
Proof.
  intros Hc. unfold script_onload.
  eapply same_outbox_trans; [|by apply processQueuedEvents_withheld].
  by repeat split.
Qed.

Lemma script_timeout_withheld cfg now w :
  consentGiven (state w) = false →
  same_outbox w (script_timeout cfg now w).
Proof.
  intros Hc. unfold script_timeout.
  destruct (_ && _); [by apply script_onerror_withheld|apply same_outbox_refl].
Qed.

Lemma updateConsent_denied cfg now w :
  unconsented (updateConsent cfg false now w) ∧
  quiet_step w (updateConsent cfg false now w).
Proof.
  unfold updateConsent, storeConsent, gtag, unconsented, quiet_step. simpl.
  destruct (storageAvailable w) eqn:Hav; simpl;
    destruct (dataLayer w) as [dl|] eqn:Hdl; simpl; rewrite ?Hav, ?Hdl; simpl;
    (split; [by split|]); (split; [|done]).
  - by exists [ConsentUpdate false].
  - by exists nil.
  - by exists [ConsentUpdate false].
  - by exists nil.
Qed.

Ltac withheld_finish :=
  unfold unconsented, quiet_step, initializeDataLayer; simpl;
  repeat match goal with H : consentGiven _ = _ |- _ => rewrite H end; simpl;
  repeat split; simpl; try done;
  try (intros _; repeat match goal with H : storedConsent _ = _ |- _ => rewrite H end; done);
  try (eexists; split; [reflexivity|done]);
  try (intros ?; congruence).

Lemma init_withheld cfg now w :
  unconsented w →
  unconsented (init cfg now w) ∧ quiet_step w (init cfg now w) ∧
  scripts (init cfg now w) = scripts w ∧ retryTimers (init cfg now w) = retryTimers w.
Proof.
  intros [Hc Hst]. unfold init.
  destruct (initialized (state w)) eqn:Hi.
  { split; [by split|]. split; [by apply same_outbox_quiet, same_outbox_refl|done]. }
  unfold getStoredConsent.
  destruct (storageAvailable w) eqn:Hav; simpl; [|solve [withheld_finish]].
  specialize (Hst eq_refl).
  destruct (storedConsent w) as [[|consent [e|]]|] eqn:Hsc; simpl;
    try (solve [withheld_finish]).
  destruct (now <? e)%Z; [|solve [withheld_finish]].
  destruct consent; [done|]. try clear Hst. withheld_finish.
Qed.

Lemma handle_withheld cfg now e w :
  unconsented w → is_grant e = false →
  unconsented (handle cfg now e w) ∧ quiet_step w (handle cfg now e w).
Proof.
  intros Hu Hng.
  assert (∀ w', same_outbox w w' → unconsented w' ∧ quiet_step w w') as Hframe.
  { intros w' Hs. split; [by eapply same_outbox_unconsented|by apply same_outbox_quiet]. }
  pose proof Hu as [Hc _].
  destruct e as [|name params immediate|granted|i|i|i|j]; simpl.
  - destruct (init_withheld cfg now w Hu) as (? & ? & _). done.
  - by apply Hframe, trackEvent_withheld.
  - destruct granted; [done|]. apply updateConsent_denied.
  - destruct (scripts w !! i) as [s|]; [|apply Hframe, same_outbox_refl].
    destruct (settled s); [apply Hframe, same_outbox_refl|].
    apply Hframe. eapply same_outbox_trans; [|by apply script_onload_withheld].
    by repeat split.
  - destruct (scripts w !! i) as [s|]; [|apply Hframe, same_outbox_refl].
    destruct (settled s); [apply Hframe, same_outbox_refl|].
    apply Hframe. eapply same_outbox_trans; [|by apply script_onerror_withheld].
    by repeat split.
  - destruct (scripts w !! i) as [s|]; [|apply Hframe, same_outbox_refl].
    destruct (timeoutArmed s); [|apply Hframe, same_outbox_refl].
    apply Hframe. eapply same_outbox_trans; [|by apply script_timeout_withheld].
    by repeat split.
  - destruct (retryTimers w !! j); [|apply Hframe, same_outbox_refl].
    apply Hframe. eapply same_outbox_trans; [|by apply loadGtagScript_withheld].
    by repeat split.
Qed.

Lemma quiet_step_refl w : quiet_step w w.
Proof. apply same_outbox_quiet, same_outbox_refl. Qed.

Lemma run_withheld cfg trace w :
  unconsented w → no_grant trace →
  unconsented (run cfg trace w) ∧ quiet_step w (run cfg trace w).
Proof.
  revert w. induction trace as [|[now e] trace IH]; intros w Hu Hng; simpl.
  - split; [done|apply quiet_step_refl].
  - apply Forall_cons in Hng as [He Hng]. simpl in He.
    destruct (handle_withheld cfg now e w Hu He) as [Hu1 Hq1].
    destruct (IH _ Hu1 Hng) as [Hu2 Hq2].
    split; [done|]. by eapply quiet_step_trans.
Qed.

(** While consent is withheld and nothing was loaded, nothing is loaded. *)
Lemma handle_idle cfg now e w :
  unconsented w → is_grant e = false →
  scripts w = [] → retryTimers w = [] →
  scripts (handle cfg now e w) = [] ∧ retryTimers (handle cfg now e w) = [].
Proof.
  intros Hu Hng Hs Ht.
  destruct e as [|name params immediate|granted|i|i|i|j]; simpl.
  - destruct (init_withheld cfg now w Hu) as (_ & _ & -> & ->). done.
  - destruct (trackEvent_loader now name params immediate w) as (-> & -> & _). done.
  - destruct granted; [done|].
    unfold updateConsent, storeConsent, gtag. simpl.
    destruct (storageAvailable w); simpl; destruct (dataLayer w); simpl; by split.
  - rewrite Hs. done.
  - rewrite Hs. done.
  - rewrite Hs. done.
  - rewrite Ht. done.
Qed.

Lemma run_idle cfg trace w :
  unconsented w → no_grant trace →
  scripts w = [] → retryTimers w = [] →
  scripts (run cfg trace w) = [] ∧ retryTimers (run cfg trace w) = [].
Proof.
  revert w. induction trace as [|[now e] trace IH]; intros w Hu Hng Hs Ht; simpl.
  - done.
  - apply Forall_cons in Hng as [He Hng]. simpl in He.
    destruct (handle_withheld cfg now e w Hu He) as [Hu1 _].
    destruct (handle_idle cfg now e w Hu He Hs Ht) as [Hs1 Ht1].
    by apply IH.
Qed.

(** X7. Nothing leaves the page before consent.  On a page where consent
    is not given, no readable storage records a grant, and no script load was
    started, every trace without [updateConsent(true)] sends no event, neither
    through the data layer nor as a beacon, appends no script and schedules no
    retry; all it pushes on the data layer are the denied consent entries and
    the js and config entries. *)
Theorem nothing_sent_without_consent (cfg : Config) (w : World)
    (trace : list (Z * Event)) :
  unconsented w →
  scripts w = [] → retryTimers w = [] →
  no_grant trace →
  let w' := run cfg trace w in
  sentEvents w' = sentEvents w ∧ beacons w' = beacons w ∧
  scripts w' = [] ∧ retryTimers w' = [] ∧
  consentGiven (state w') = false ∧
  ∃ extra, default [] (dataLayer w') = default [] (dataLayer w) ++ extra ∧
           forallb quietCall extra = true.
Proof.
  intros Hu Hs Ht Hng w'.
  destruct (run_withheld cfg trace w Hu Hng) as [[Hc _] Hq].
  destruct (run_idle cfg trace w Hu Hng Hs Ht) as [Hs' Ht'].
  split; [by apply quiet_step_sent|].
  destruct Hq as [Hex Hb]. done.
Qed.

Lemma nothing_sent_without_consent_witness :
  let w' := run CONFIG quietTrace deniedVisit in
  sentEvents w' = sentEvents deniedVisit ∧ beacons w' = beacons deniedVisit ∧
  scripts w' = [] ∧ retryTimers w' = [] ∧
  consentGiven (state w') = false ∧
  ∃ extra, default [] (dataLayer w') = default [] (dataLayer deniedVisit) ++ extra ∧
           forallb quietCall extra = true.
Proof.
  apply (nothing_sent_without_consent CONFIG deniedVisit quietTrace);
    try (by vm_compute).
  unfold quietTrace, no_grant. repeat constructor.
Defined.



(** *** Stored consent across visits *)





(** Across the start of summer time the expiry is one hour short of 365
    days of 24 hours. *)
Lemma expiry_across_summer_time :
  addLocalDays awaitingInZone (consentExpiryDays CONFIG) 5000
  = (5000 + consentExpiryDays CONFIG * msPerDay - 3600000)%Z.
Proof. by vm_compute. Qed.

(** *** No event is lost *)

Lemma payload_stamped now name params :
  payload (stamped now name params) = (name, delete "timestamp" params).
Proof. unfold payload, stamped. simpl. by rewrite delete_insert_eq. Qed.

Lemma sentEvents_push w dl call :
  dataLayer w = Some dl →
  sentEvents (set_dataLayer (Some (dl ++ [call])) w) =
  sentEvents w ++ match call with
                  | EventCall name params => [mkItem name params]
                  | _ => []
                  end.
Proof.
  intros Hdl. unfold sentEvents. simpl. rewrite Hdl, omap_app. simpl.
  by destruct call.
Qed.

Lemma conserves_refl w : ready w → conserves w w.
Proof. by split. Qed.

Lemma conserves_trans w1 w2 w3 : conserves w1 w2 → conserves w2 w3 → conserves w1 w3.
Proof. intros [_ H1] [Hr H2]. split; [done|]. by rewrite H2. Qed.

(** A step that touches neither the data layer nor the beacons nor the
    queue. *)
Lemma conserves_frame w w' :
  ready w → dataLayer w' = dataLayer w → beacons w' = beacons w →
  eventQueue (state w') = eventQueue (state w) → conserves w w'.
Proof.
  intros [Hdl Hq] H1 H2 H3. unfold conserves, ready, held, sentEvents.
  rewrite H1, H2, H3. done.
Qed.

Lemma conserves_step (f : World → World) :
  (∀ w, ready w → conserves w (f w)) →
  ∀ w w1, conserves w w1 → conserves w (f w1).
Proof. intros Hf w w1 H1. eapply conserves_trans; [exact H1|]. apply Hf, H1. Qed.

Lemma trackEvent_tracked now name params immediate w :
  ready w → name ≠ "" →
  ready (trackEvent now name params immediate w) ∧
  payload <$> held (trackEvent now name params immediate w)
    ≡ₚ (payload <$> held w) ++ [(name, delete "timestamp" params)].
Proof.
  intros [[dl Hdl] Hq] Hname. unfold trackEvent, gtag.
  rewrite bool_decide_eq_false_2 by done.
  change (mkItem name (<["timestamp":=VISOTime now]> params))
    with (stamped now name params).
  rewrite <- (payload_stamped now name params).
  destruct (_ || _); [|destruct (_ && _)].
  - split.
    { split; [by exists dl|]. simpl. apply Forall_app. split; [done|].
      by constructor. }
    unfold held, sentEvents. simpl. by rewrite !app_assoc, fmap_app.
  - split; [by split; [exists dl|]|].
    unfold held, sentEvents. simpl. rewrite !fmap_app. simpl.
    rewrite <- !app_assoc. do 2 f_equiv. simpl.
    apply Permutation_cons_append.
  - rewrite Hdl. simpl. split; [by split; [eexists|]|].
    unfold held. rewrite (sentEvents_push w dl) by done. simpl.
    rewrite !fmap_app. simpl. rewrite <- !app_assoc. f_equiv. simpl.
    rewrite app_assoc. apply Permutation_cons_append.
Qed.

Lemma replay_conserves now (q : list QueueItem) w :
  ready w → Forall validName q →
  let w' := foldl (λ w item, trackEvent now (eventName item) (eventParams item) false w)
                  w q in
  ready w' ∧ payload <$> held w' ≡ₚ (payload <$> held w) ++ (payload <$> q).
Proof.
  revert w. induction q as [|item q IH]; intros w Hr Hq; simpl.
  - by rewrite app_nil_r.
  - apply Forall_cons in Hq as [Hitem Hq].
    destruct (trackEvent_tracked now (eventName item) (eventParams item) false w Hr Hitem)
      as [Hr1 Hp1].
    destruct (IH _ Hr1 Hq) as [Hr2 Hp2]. split; [done|].
    rewrite Hp2, Hp1, <- app_assoc. done.
Qed.

Lemma processQueuedEvents_conserves now w :
  ready w → conserves w (processQueuedEvents now w).
Proof.
  intros Hr. unfold processQueuedEvents. case_bool_decide; [by apply conserves_refl|].
  destruct Hr as [Hdl Hq].
  destruct (replay_conserves now (eventQueue (state w)) (set_eventQueue [] w))
    as [Hr' Hp]; [by split; [|constructor]|done|].
  split; [done|]. rewrite Hp. unfold held, sentEvents. simpl.
  by rewrite app_nil_r, !fmap_app, <- !app_assoc.
Qed.

Lemma loadGtagScript_conserves cfg now w :
  ready w → conserves w (loadGtagScript cfg now w).
Proof.
  intros Hr. unfold loadGtagScript. case_bool_decide.
  - apply (conserves_step _ (processQueuedEvents_conserves now)).
    by apply conserves_frame.
  - by apply conserves_frame.
Qed.

Lemma script_onerror_conserves cfg now w :
  ready w → conserves w (script_onerror cfg now w).
Proof.
  intros Hr. unfold script_onerror. case_bool_decide.
  - by apply conserves_frame.
  - apply (conserves_step _ (processQueuedEvents_conserves now)).
    by apply conserves_frame.
Qed.

Lemma init_conserves cfg now w : ready w → conserves w (init cfg now w).
Proof.
  intros Hr. unfold init. destruct (initialized (state w)); [by apply conserves_refl|].
  destruct (getStoredConsent now w) as [stored w1] eqn:Hget.
  assert (conserves w w1) as H1.
  { unfold getStoredConsent in Hget.
    destruct (negb _); [injection Hget as <- <-; by apply conserves_refl|].
    destruct (storedConsent w) as [[|consent expiry]|];
      try (injection Hget as <- <-; by apply conserves_refl).
    destruct (match expiry with Some _ => _ | None => _ end);
      injection Hget as <- <-; by apply conserves_frame. }
  set (w2 := match stored with Some b => set_consentGiven b w1 | None => w1 end).
  assert (conserves w1 w2) as H2.
  { unfold w2. destruct stored;
      [apply conserves_frame; [apply H1|done..]|apply conserves_refl, H1]. }
  set (w3 := initializeDataLayer cfg now w2).
  assert (conserves w2 w3) as H3.
  { destruct H2 as [[[dl Hdl] Hq] _]. split.
    - split; [by eexists|done].
    - unfold w3, initializeDataLayer, held, sentEvents. simpl.
      rewrite Hdl. simpl. rewrite omap_app. simpl. by rewrite app_nil_r. }
  assert (∀ w4, conserves w3 w4 → conserves w (set_initialized true (setupEventListeners w4)))
    as Hfin.
  { intros w4 H4.
    eapply conserves_trans; [exact H1|]. eapply conserves_trans; [exact H2|].
    eapply conserves_trans; [exact H3|]. eapply conserves_trans; [exact H4|].
    apply conserves_frame; [apply H4|done..]. }
  destruct (_ || _); apply Hfin.
  - apply loadGtagScript_conserves, H3.
  - apply conserves_refl, H3.
Qed.

Lemma updateConsent_conserves cfg granted now w :
  ready w → conserves w (updateConsent cfg granted now w).
Proof.
  intros Hr. unfold updateConsent.
  set (w1 := storeConsent cfg granted now (set_consentGiven granted w)).
  assert (conserves w w1) as H1.
  { unfold w1, storeConsent. simpl. destruct (storageAvailable w); by apply conserves_frame. }
  destruct H1 as [[[dl Hdl] Hq] Hp1]. unfold gtag. rewrite Hdl. simpl.
  set (w2 := set_dataLayer _ w1).
  assert (conserves w w2) as H2.
  { split; [by split; [eexists|]|]. rewrite <- Hp1.
    unfold w2, held. rewrite (sentEvents_push w1 dl) by done. simpl.
    by rewrite app_nil_r. }
  set (w3 := if _ && _ then _ else w2).
  assert (conserves w w3) as H3.
  { unfold w3. destruct (_ && _); [|done].
    eapply conserves_trans; [exact H2|]. apply loadGtagScript_conserves, H2. }
  destruct granted; [|done].
  eapply conserves_trans; [exact H3|]. apply processQueuedEvents_conserves, H3.
Qed.

Lemma handle_conserves cfg now e w :
  ready w →
  ready (handle cfg now e w) ∧
  payload <$> held (handle cfg now e w)
    ≡ₚ (payload <$> held w) ++ trackedIn [(now, e)].
Proof.
  intros Hr.
  assert (∀ w', conserves w w' →
                ready w' ∧ payload <$> held w' ≡ₚ (payload <$> held w) ++ []) as Hsame.
  { intros w' [? ?]. by rewrite app_nil_r. }
  destruct e as [|name params immediate|granted|i|i|i|j]; simpl.
  - by apply Hsame, init_conserves.
  - unfold trackedIn. simpl. case_bool_decide as Hname.
    + rewrite Hname, trackEvent_invalid. by apply Hsame, conserves_refl.
    + by apply trackEvent_tracked.
  - by apply Hsame, updateConsent_conserves.
  - apply Hsame. destruct (scripts w !! i) as [s|]; [|by apply conserves_refl].
    destruct (settled s); [by apply conserves_refl|].
    unfold script_onload.
    apply (conserves_step _ (processQueuedEvents_conserves now)).
    by apply conserves_frame.
  - apply Hsame. destruct (scripts w !! i) as [s|]; [|by apply conserves_refl].
    destruct (settled s); [by apply conserves_refl|].
    apply (conserves_step _ (script_onerror_conserves cfg now)).
    by apply conserves_frame.
  - apply Hsame. destruct (scripts w !! i) as [s|]; [|by apply conserves_refl].
    destruct (timeoutArmed s); [|by apply conserves_refl].
    unfold script_timeout. destruct (_ && _); [|by apply conserves_frame].
    apply (conserves_step _ (script_onerror_conserves cfg now)).
    by apply conserves_frame.
  - apply Hsame. destruct (retryTimers w !! j); [|by apply conserves_refl].
    apply (conserves_step _ (loadGtagScript_conserves cfg now)).
    by apply conserves_frame.
Qed.

(** X9. No event is lost and none is sent twice.  Once the data layer
    exists, after any trace every call of [trackEvent] with a valid name
    made during the trace is held exactly once: pushed on the data layer,
    given to sendBeacon, or waiting in the queue, with its name and its
    parameters unchanged apart from the time stamp.  Failing loads, retries,
    consent given and withdrawn, and replays of the queue move events between
    the three places and neither drop nor duplicate them. *)
Theorem tracked_events_are_conserved (cfg : Config) (w : World)
    (trace : list (Z * Event)) :
  is_Some (dataLayer w) →
  Forall validName (eventQueue (state w)) →
  payload <$> held (run cfg trace w) ≡ₚ (payload <$> held w) ++ trackedIn trace.
Proof.
  intros Hdl Hq. assert (ready w) as Hr by done. clear Hdl Hq.
  revert w Hr. induction trace as [|[now e] trace IH]; intros w Hr.
  - simpl. by rewrite app_nil_r.
  - destruct (handle_conserves cfg now e w Hr) as [Hr1 Hp1]. cbn [run].
    rewrite (IH _ Hr1), Hp1, <- app_assoc. f_equiv.
    unfold trackedIn. simpl. by destruct e; try case_bool_decide.
Qed.

Lemma tracked_events_are_conserved_witness :
  payload <$> held (run CONFIG busyTrace awaitingConsent)
    ≡ₚ (payload <$> held awaitingConsent) ++ trackedIn busyTrace.
Proof.
  apply (tracked_events_are_conserved CONFIG awaitingConsent busyTrace).
  - eexists. vm_compute. reflexivity.
  - vm_compute. constructor.
Defined.

(** *** Engagement time *)

(** What the listeners maintain while the clock does not run backwards:
    the time counted so far fits between the set-up and the start of the
    running spell, or the last change when no spell is running. *)
Lemma engagement_invariant t0 (changes : list (Z * bool)) prev e :
  monotone prev (changes.*1) = true →
  (t0 <= prev)%Z →
  (0 <= totalEngagementTime e)%Z →
  (if isActive e
   then (totalEngagementTime e <= startTime e - t0 ∧ startTime e <= prev)%Z
   else (totalEngagementTime e <= prev - t0)%Z) →
  let e' := foldl (λ e c, onActivityChange c.2 c.1 e) e changes in
  let prev' := default prev (last (changes.*1)) in
  (prev <= prev')%Z ∧
  (0 <= totalEngagementTime e')%Z ∧
  (if isActive e'
   then (totalEngagementTime e' <= startTime e' - t0 ∧ startTime e' <= prev')%Z
   else (totalEngagementTime e' <= prev' - t0)%Z).
Proof.
  revert prev e. induction changes as [|[t away] changes IH]; intros prev e Hmono Ht0 H0 Hinv.
  - simpl. split; [lia|done].
  - simpl in Hmono. apply andb_prop in Hmono as [Hle Hmono]. apply Z.leb_le in Hle.
    cbn [foldl fst snd]. rewrite fmap_cons, last_cons. cbn [fst].
    destruct (IH t (onActivityChange away t e) Hmono) as (Hl & H0' & Hinv').
    + lia.
    + unfold onActivityChange. destruct away, (isActive e); simpl in *; lia.
    + unfold onActivityChange.
      destruct away, (isActive e) eqn:Ha; simpl in *; rewrite ?Ha; simpl; lia.
    + destruct (last (changes.*1)) as [tl|]; simpl in *; (split; [lia|done]).
Qed.

Lemma never_away (changes : list (Z * bool)) e :
  Forall (λ c, c.2 = false) changes → isActive e = true →
  foldl (λ e c, onActivityChange c.2 c.1 e) e changes = e.
Proof.
  induction changes as [|[t away] changes IH]; intros Hnever Ha; [done|].
  apply Forall_cons in Hnever as [Haway Hnever]. simpl in Haway. subst away.
  cbn [foldl snd fst].
  replace (onActivityChange false t e) with e
    by (unfold onActivityChange; by rewrite Ha).
  by apply IH.
Qed.

(** X19. The engagement time reported at unload is time spent on the
    page.  While the clock does not run backwards, the time reported for a
    visit is never negative and never more than the time between set-up and
    unload; it is exactly that time when the page was never left; the
    [user_engagement] event is tracked, as an immediate event carrying that
    time, exactly when the time is positive. *)
Theorem engagement_time_is_time_on_page (t0 tEnd : Z) (changes : list (Z * bool)) :
  monotone t0 (changes.*1 ++ [tEnd]) = true →
  let total := totalEngagementTime (engagementOf t0 changes tEnd).1 in
  (0 <= total <= tEnd - t0)%Z ∧
  (Forall (λ c, c.2 = false) changes → total = (tEnd - t0)%Z) ∧
  (engagementOf t0 changes tEnd).2 =
    (if (0 <? total)%Z
     then Some (TrackEvent "user_engagement"
                  {[ "engagement_time_msec" := VNumber total ]} true)
     else None).
Proof.
  intros Hmono total.
  assert (monotone t0 (changes.*1) = true ∧
          (default t0 (last (changes.*1)) <= tEnd)%Z) as [Hm Hend].
  { clear total. revert t0 Hmono. induction changes as [|[t away] changes IH];
      intros t0 Hmono; simpl in *.
    - apply andb_prop in Hmono as [Hle _]. apply Z.leb_le in Hle. done.
    - apply andb_prop in Hmono as [Hle Hmono]. rewrite Hle. simpl.
      destruct (IH t Hmono) as [Hm Hend]. split; [done|].
      change (list_fmap _ _ fst changes) with (changes.*1).
      rewrite last_cons. destruct (last (changes.*1)); simpl in *; lia. }
  destruct (engagement_invariant t0 changes t0 (setupEngagementTracking t0) Hm)
    as (Hl & H0 & Hinv); [lia|simpl; lia|simpl; lia|].
  unfold total, engagementOf, onBeforeUnload. simpl.
  set (e := foldl _ _ _) in *.
  split; [destruct (isActive e); lia|]. split; [|done].
  intros Hnever. unfold e. rewrite never_away by done. simpl. lia.
Qed.

Lemma engagement_time_is_time_on_page_witness :
  let total := totalEngagementTime (engagementOf 1000 twoSpells 30000).1 in
  (0 <= total <= 30000 - 1000)%Z ∧
  (Forall (λ c, c.2 = false) twoSpells → total = (30000 - 1000)%Z) ∧
  (engagementOf 1000 twoSpells 30000).2 =
    (if (0 <? total)%Z
     then Some (TrackEvent "user_engagement"
                  {[ "engagement_time_msec" := VNumber total ]} true)
     else None).
Proof.
  apply (engagement_time_is_time_on_page 1000 30000 twoSpells). by vm_compute.
Defined.

End AnalyticsMore.

(** ** Lazy image loading: outcomes of a load *)

Module LazyLoadingMore.
Import LazyLoading LazyLoadingSpec.

Section Outcome.

Variable cfg : Config.
Variable img : nat.

(** Where a load that is left to itself stands. *)
Lemma running_settles src w0 r ph w :
  pendingFor img w0 = 0 →
  Running cfg img src w0 r ph w →
  pendingFor img w ≤ 1 ∧
  ∃ i', images w !! img = Some i' ∧
    (pendingFor img w = 1 →
       attributes (node i') !! "data-src" = Some src ∧
       attributes (node i') !! "aria-busy" = Some "true") ∧
    (pendingFor img w = 0 →
       (loaded cfg src i' = true ∨ errored cfg i' = true) ∧
       attributes (node i') !! "data-src" = None ∧
       attributes (node i') !! "aria-busy" = None ∧
       img ∉ loadingImages (state w)).
Proof.
  intros Hnone Hrun.
  destruct (running_observed cfg img src w0 r ph w Hrun) as (_ & _ & _ & Hpend).
  destruct Hrun as (Hr & Hcalls & i' & Hi' & Hph).
  rewrite Hpend, Hnone.
  destruct ph as [| |[|]]; simpl.
  - destruct Hph as (Hws & Hsrc & Hbusy & Hl).
    split; [lia|]. exists i'. split; [done|]. split; [done|]. lia.
  - destruct Hph as (Hlt & Hws & Hsrc & Hbusy & Hrc' & Hl).
    split; [lia|]. exists i'. split; [done|]. split; [done|]. lia.
  - destruct Hph as (Hws & Hld & Hbusy & Hrc' & Hl).
    split; [lia|]. exists i'. split; [done|]. split; [lia|]. intros _.
    split; [by left|]. split; [by eapply loaded_no_data_src|done].
  - destruct Hph as (-> & Hws & Her & Hbusy & Hl).
    split; [lia|]. exists i'. split; [done|]. split; [lia|]. intros _.
    split; [by right|]. split; [by eapply errored_no_data_src|done].
Qed.

(** *** Every load can be brought to its end *)

Lemma running_index src w0 r ph w :
  Running cfg img src w0 r ph w → ∃ k, calls w !! k = Some (mkCall img src r ph).
Proof.
  intros (_ & Hcalls & _). apply list_elem_of_lookup_1.
  assert (mkCall img src r ph ∈ callsFor img w) as Hin.
  { rewrite Hcalls. unfold chain. rewrite !elem_of_app, list_elem_of_singleton. auto. }
  by apply list_elem_of_filter in Hin as [_ ?].
Qed.

Lemma progress src w0 (outcome : nat → bool) (d : nat) : ∀ r ph w,
  pendingFor img w0 = 0 →
  maxRetries cfg - r ≤ d →
  Running cfg img src w0 r ph w →
  ∃ es', length es' ≤ 2 * d + 1 ∧ Forall (settles outcome) es' ∧
         pendingFor img (run cfg es' w) = 0.
Proof.
  induction d as [|d IH]; intros r ph w Hnone Hd Hrun.
  - destruct ph as [| |ok].
    + destruct (running_index src w0 r _ w Hrun) as [k Hk].
      exists [PreloadSettles k (outcome k)]. split; [simpl; lia|].
      split; [by apply Forall_singleton|]. simpl. rewrite Hk. simpl.
      destruct (outcome k).
      * pose proof (running_resolved cfg img src w0 r k _ w Hnone Hrun Hk eq_refl eq_refl)
          as Hnext.
        destruct (running_observed cfg img src w0 _ _ _ Hnext) as (_ & _ & _ & ->).
        simpl. lia.
      * pose proof (running_rejected cfg img src w0 r k _ w Hnone Hrun Hk eq_refl eq_refl)
          as Hnext.
        destruct Hrun as (Hr & _).
        rewrite bool_decide_eq_false_2 in Hnext by lia.
        destruct (running_observed cfg img src w0 _ _ _ Hnext) as (_ & _ & _ & ->).
        simpl. lia.
    + destruct Hrun as (_ & _ & i & _ & Hlt & _). lia.
    + exists []. split; [simpl; lia|]. split; [done|]. simpl.
      destruct (running_observed cfg img src w0 _ _ _ Hrun) as (_ & _ & _ & ->).
      simpl. lia.
  - assert (∀ w1, Running cfg img src w0 r AwaitsDelay w1 →
              ∃ es', length es' ≤ 2 * d + 2 ∧ Forall (settles outcome) es' ∧
                     pendingFor img (run cfg es' w1) = 0) as Hdelay.
    { intros w1 Hrun1.
      destruct (running_index src w0 r _ w1 Hrun1) as [k Hk].
      pose proof (running_delayed cfg img src w0 r k _ w1 Hnone Hrun1 Hk eq_refl eq_refl)
        as Hnext.
      destruct (IH (S r) AwaitsPreload _ Hnone ltac:(lia) Hnext)
        as (es' & Hlen & Hset & Hend).
      exists (DelayElapses k :: es'). split; [simpl; lia|].
      split; [by apply Forall_cons|]. simpl. by rewrite Hk. }
    destruct ph as [| |ok].
    + destruct (running_index src w0 r _ w Hrun) as [k Hk].
      destruct (outcome k) eqn:Hok.
      * exists [PreloadSettles k (outcome k)]. split; [simpl; lia|].
        split; [by apply Forall_singleton|]. simpl. rewrite Hk, Hok. simpl.
        pose proof (running_resolved cfg img src w0 r k _ w Hnone Hrun Hk eq_refl eq_refl)
          as Hnext.
        destruct (running_observed cfg img src w0 _ _ _ Hnext) as (_ & _ & _ & ->).
        simpl. lia.
      * pose proof (running_rejected cfg img src w0 r k _ w Hnone Hrun Hk eq_refl eq_refl)
          as Hnext.
        case_bool_decide as Hlt.
        -- destruct (Hdelay _ Hnext) as (es' & Hlen & Hset & Hend).
           exists (PreloadSettles k (outcome k) :: es'). split; [simpl; lia|].
           split; [by apply Forall_cons|]. simpl. by rewrite Hk, Hok.
        -- exists [PreloadSettles k (outcome k)]. split; [simpl; lia|].
           split; [by apply Forall_singleton|]. simpl. rewrite Hk, Hok. simpl.
           destruct (running_observed cfg img src w0 _ _ _ Hnext) as (_ & _ & _ & ->).
           simpl. lia.
    + destruct (Hdelay w Hrun) as (es' & Hlen & Hset & Hend).
      exists es'. split; [lia|]. done.
    + exists []. split; [simpl; lia|]. split; [done|]. simpl.
      destruct (running_observed cfg img src w0 _ _ _ Hrun) as (_ & _ & _ & ->).
      simpl. lia.
Qed.

(** X11. An image that loads at the [k + 1]-th try.  For an element
    waiting to be loaded whose load is left to itself (no [cleanup] or
    [reinitialize], no further intersecting entry for it), once one of its
    preloads has loaded: [k] preloads have failed before, [k] at most
    [maxRetries], exactly [k + 1] preloads of the URL were made, the delays
    [retryDelay * 2 ^ r] were awaited before the retries, and no call is
    pending; the element shows the image, carries the loaded class, has lost
    [data-src] and [aria-busy], its retry count is cleared, it is no longer
    marked as loading, and whatever events follow, no further preload is
    made for it and the element stays as it is. *)
Theorem image_loads_after_failures (src : string) (w : World) (es : list Event) :
  waiting img src w →
  retryCount (state w) !! img = None →
  pendingFor img w = 0 →
  forallb (undisturbing img) es = true →
  let w' := run cfg es (processImage img w) in
  loadsFor img w < loadsFor img w' →
  ∃ k i',
    k ≤ maxRetries cfg ∧
    failuresFor img w' = failuresFor img w + k ∧
    requestsFor img w' = requestsFor img w ++ replicate (S k) (img, src) ∧
    waitsFor img w' = waitsFor img w ++ backoff cfg k ∧
    pendingFor img w' = 0 ∧
    images w' !! img = Some i' ∧ loaded cfg src i' = true ∧
    attributes (node i') !! "aria-busy" = None ∧
    retryCount (state w') !! img = None ∧
    ¬ (img ∈ loadingImages (state w')) ∧
    ∀ es', requestsFor img (run cfg es' w') = requestsFor img w' ∧
           images (run cfg es' w') !! img = Some i'.
Proof.
  intros Hwait Hrc Hnone Hes w' Hloads.
  destruct (run_running cfg img src w es 0 AwaitsPreload (processImage img w))
    as (r & ph & Hrun); [done|by apply running_start|done|].
  fold w' in Hrun.
  destruct (running_observed cfg img src w r ph w' Hrun)
    as (Hreq & Hfail & Hld & Hpend).
  destruct Hrun as (Hr & Hcalls & i' & Hi' & Hph).
  destruct ph as [| |[|]]; simpl in Hld; try lia.
  destruct Hph as (Hws & Hloaded & Hbusy & Hrc' & Hl).
  simpl in Hfail, Hpend.
  exists r, i'. split; [done|]. split; [by rewrite Hfail, Nat.add_0_r|].
  split; [done|]. split; [done|]. split; [lia|]. split; [done|].
  split; [done|]. split; [done|]. split; [done|]. split; [done|].
  intros es'.
  destruct (run_still cfg img es' w') as (Hc & _ & Hi).
  - exists i'. split; [done|]. by eapply loaded_no_data_src.
  - lia.
  - unfold requestsFor. by rewrite Hc, Hi.
Qed.

(** X12. Every load comes to an end.  For an element waiting to be
    loaded whose load is left to itself, at every moment at most one call
    for it is pending.  While one is, the element carries [data-src] and is
    marked busy; when none is, the element shows either the image or the
    error image, has lost [data-src] and [aria-busy] and is not marked as
    loading.  And whatever the outcomes of the preloads, the load ends when
    at most [2 * maxRetries + 1] further preloads and delays have
    settled. *)
Theorem every_load_settles (src : string) (w : World) (es : list Event)
    (outcome : nat → bool) :
  waiting img src w →
  retryCount (state w) !! img = None →
  pendingFor img w = 0 →
  forallb (undisturbing img) es = true →
  let w' := run cfg es (processImage img w) in
  pendingFor img w' ≤ 1 ∧
  (∃ i', images w' !! img = Some i' ∧
     (pendingFor img w' = 1 →
        attributes (node i') !! "data-src" = Some src ∧
        attributes (node i') !! "aria-busy" = Some "true") ∧
     (pendingFor img w' = 0 →
        (loaded cfg src i' = true ∨ errored cfg i' = true) ∧
        attributes (node i') !! "data-src" = None ∧
        attributes (node i') !! "aria-busy" = None ∧
        img ∉ loadingImages (state w'))) ∧
  ∃ es', length es' ≤ 2 * maxRetries cfg + 1 ∧
         Forall (settles outcome) es' ∧
         pendingFor img (run cfg es' w') = 0.
Proof.
  intros Hwait Hrc Hnone Hes w'.
  destruct (run_running cfg img src w es 0 AwaitsPreload (processImage img w))
    as (r & ph & Hrun); [done|by apply running_start|done|].
  fold w' in Hrun.
  destruct (running_settles src w r ph w' Hnone Hrun) as [Hle Himg].
  split; [done|]. split; [done|].
  apply (progress src w outcome (maxRetries cfg) r ph w' Hnone); [lia|done].
Qed.

(** *** The page without IntersectionObserver *)

Lemma processImage_loading w :
  img ∈ loadingImages (state w) → processImage img w = w.
Proof.
  intros Hl. unfold processImage. destruct (images w !! img); [|done].
  by rewrite (bool_decide_eq_true_2 (_ ∈ _)) by done.
Qed.

Lemma loadAll_running src w0 (l : list nat) : ∀ w,
  Running cfg img src w0 0 AwaitsPreload w →
  Running cfg img src w0 0 AwaitsPreload (foldl (λ w x, processImage x w) w l).
Proof.
  induction l as [|x l IH]; intros w Hrun; [done|].
  simpl. apply IH. destruct (decide (x = img)) as [->|Hne].
  - rewrite processImage_loading; [done|].
    destruct Hrun as (_ & _ & i & _ & _ & _ & _ & Hl). by apply Hl.
  - eapply running_frame; [done|]. by apply processImage_other.
Qed.

Lemma loadAll_starts src w0 (l : list nat) : ∀ w,
  waiting img src w → retryCount (state w) !! img = None →
  callsFor img w = callsFor img w0 → waitsFor img w = waitsFor img w0 →
  img ∈ l →
  Running cfg img src w0 0 AwaitsPreload (foldl (λ w x, processImage x w) w l).
Proof.
  induction l as [|x l IH]; intros w Hwait Hrc Hc Hw Hin.
  { by apply elem_of_nil in Hin. }
  simpl. destruct (decide (x = img)) as [->|Hne].
  - apply loadAll_running. eapply running_base; [| |by apply running_start]; done.
  - apply elem_of_cons in Hin as [->|Hin]; [done|].
    destruct (processImage_other img x w Hne) as (Hc' & Hw' & Hrc' & Hl' & Himg').
    apply IH; [|congruence|congruence|congruence|done].
    destruct Hwait as ((i & Hi & Hsrc) & Hne' & Hidle).
    destruct (Himg' i Hi) as (i' & Hi' & Hd & _).
    split; [exists i'; split; [done|congruence]|]. split; [done|]. by rewrite Hl'.
Qed.

Lemma processImage_classes x w y i :
  images w !! y = Some i →
  ∃ i', images (processImage x w) !! y = Some i' ∧
        classList (node i') = classList (node i).
Proof.
  intros Hi. unfold processImage.
  destruct (images w !! x) as [i0|]; [|by exists i].
  destruct (_ || _); [by exists i|].
  case_bool_decide; [by exists i|]. simpl.
  destruct (decide (x = y)) as [->|Hne].
  - rewrite lookup_alter_eq, Hi. by eexists.
  - rewrite lookup_alter_ne by done. by exists i.
Qed.

Lemma loadAll_classes (l : list nat) y : ∀ w i,
  images w !! y = Some i →
  ∃ i', images (foldl (λ w x, processImage x w) w l) !! y = Some i' ∧
        classList (node i') = classList (node i).
Proof.
  induction l as [|x l IH]; intros w i Hi; [by exists i|].
  simpl. destruct (processImage_classes x w y i Hi) as (i1 & Hi1 & Hc1).
  destruct (IH _ _ Hi1) as (i' & Hi' & Hc'). exists i'. split; [done|congruence].
Qed.

(** [observeImages] marks the elements it selects. *)
Lemma observe_fold_marks (l : list nat) : ∀ w i,
  images w !! img = Some i →
  img ∈ l ∨ (attributes (node i) !! "loading" = Some "lazy" ∧
             hasClass (placeholderClass cfg) (node i) = true) →
  ∃ i', images
          (foldl (λ w x,
                    let w := update_image (prepare cfg) x w in
                    match observer (state w) with
                    | Some observed => set_observer (Some ({[ x ]} ∪ observed)) w
                    | None => w
                    end) w l) !! img = Some i' ∧
        attributes (node i') !! "loading" = Some "lazy" ∧
        hasClass (placeholderClass cfg) (node i') = true.
Proof.
  induction l as [|x l IH]; intros w i Hi Hcase.
  { destruct Hcase as [Hin|Hm]; [by apply elem_of_nil in Hin|]. by exists i. }
  simpl.
  destruct (decide (x = img)) as [->|Hne].
  - apply (IH _ (prepare cfg i)).
    + destruct (observer (state w)); simpl; by rewrite lookup_alter_eq, Hi.
    + right. unfold prepare, hasClass. case_bool_decide; simpl;
        (split; [by rewrite lookup_insert_eq|]);
        by apply bool_decide_eq_true_2, elem_of_union_l, elem_of_singleton.
  - apply (IH _ i).
    + destruct (observer (state w)); simpl; by rewrite lookup_alter_ne.
    + destruct Hcase as [Hin|Hm]; [|by right].
      apply elem_of_cons in Hin as [->|Hin]; [done|by left].
Qed.

Lemma observeImages_marks w i :
  images w !! img = Some i → img ∈ selectImages cfg w →
  ∃ i', images (observeImages cfg w) !! img = Some i' ∧
        attributes (node i') !! "loading" = Some "lazy" ∧
        hasClass (placeholderClass cfg) (node i') = true.
Proof.
  intros Hi Hsel. unfold observeImages. eapply observe_fold_marks; [done|by left].
Qed.

Lemma selectImages_elem i w :
  images w !! img = Some i →
  hasClass (imageClass cfg) (node i) = true →
  hasAttribute "data-src" (node i) = true →
  img ∈ selectImages cfg w.
Proof.
  intros Hi Hclass Hattr. unfold selectImages.
  apply list_elem_of_In, List.filter_In. split.
  - apply list_elem_of_In, list_elem_of_fmap. exists (img, i).
    split; [done|]. by apply elem_of_map_to_list.
  - by rewrite Hi, Hclass, Hattr.
Qed.

(** X13. Without IntersectionObserver every lazy image is requested at
    once.  In a browser that lacks the observer, [init] returns with one
    preload made and pending for every element selected for lazy loading
    that carries a URL in [data-src] and was not loading: the element is
    marked as loading and busy, still carries [data-src], and
    [observeImages] has given it the placeholder class and
    [loading = lazy].  Left to itself, that load makes at most
    [maxRetries + 1] preloads of the URL, never has more than one call
    pending, and when none is pending the element shows its image or the
    error image. *)
Theorem fallback_loads_every_image (w : World) (i : Image) (src : string)
    (es : list Event) :
  supportsIntersectionObserver w = false →
  images w !! img = Some i →
  hasClass (imageClass cfg) (node i) = true →
  attributes (node i) !! "data-src" = Some src →
  src ≠ "" →
  img ∉ loadingImages (state w) →
  retryCount (state w) !! img = None →
  pendingFor img w = 0 →
  forallb (undisturbing img) es = true →
  let w1 := init cfg w in
  let w' := run cfg es w1 in
  (requestsFor img w1 = requestsFor img w ++ [(img, src)] ∧
   pendingFor img w1 = 1 ∧
   img ∈ loadingImages (state w1) ∧
   ∃ i1, images w1 !! img = Some i1 ∧
         attributes (node i1) !! "data-src" = Some src ∧
         attributes (node i1) !! "aria-busy" = Some "true" ∧
         attributes (node i1) !! "loading" = Some "lazy" ∧
         hasClass (placeholderClass cfg) (node i1) = true) ∧
  ∃ n i', 1 ≤ n ≤ maxRetries cfg + 1 ∧
          requestsFor img w' = requestsFor img w ++ replicate n (img, src) ∧
          pendingFor img w' ≤ 1 ∧
          images w' !! img = Some i' ∧
          (pendingFor img w' = 0 →
             (loaded cfg src i' = true ∨ errored cfg i' = true) ∧
             attributes (node i') !! "data-src" = None ∧
             attributes (node i') !! "aria-busy" = None ∧
             img ∉ loadingImages (state w')).
Proof.
  intros Hno Hi Hclass Hsrc Hne Hidle Hrc Hnone Hes w1 w'.
  assert (img ∈ selectImages cfg w) as Hsel.
  { eapply selectImages_elem; [done|done|].
    unfold hasAttribute. rewrite Hsrc. by apply bool_decide_eq_true_2. }
  set (w0 := loadAllImagesImmediately cfg w).
  assert (Running cfg img src w 0 AwaitsPreload w0) as Hrun0.
  { apply loadAll_starts; try done. split; [by exists i|done]. }
  assert (w1 = observeImages cfg w0) as Hw1.
  { unfold w1, init, initIntersectionObserver. by rewrite Hno. }
  assert (Running cfg img src w 0 AwaitsPreload w1) as Hrun1.
  { rewrite Hw1. eapply running_frame; [done|apply observeImages_frame]. }
  split.
  - destruct (running_observed cfg img src w 0 _ w1 Hrun1) as (Hreq & _ & _ & Hpend).
    split; [done|]. split; [by rewrite Hpend, Hnone|].
    destruct Hrun1 as (_ & _ & i1 & Hi1 & _ & Hsrc1 & Hbusy1 & Hl1).
    split; [by apply Hl1|].
    exists i1. split; [done|]. split; [done|]. split; [done|].
    destruct Hrun0 as (_ & _ & i0 & Hi0 & _ & Hsrc0 & _).
    destruct (loadAll_classes (selectImages cfg w) img w i Hi) as (i0' & Hi0' & Hc0).
    fold (loadAllImagesImmediately cfg w) in Hi0'. fold w0 in Hi0'.
    rewrite Hi0 in Hi0'. injection Hi0' as <-.
    destruct (observeImages_marks w0 i0 Hi0) as (i1' & Hi1' & Hm).
    { eapply selectImages_elem; [done| |].
      - unfold hasClass in *. by rewrite Hc0.
      - unfold hasAttribute. rewrite Hsrc0. by apply bool_decide_eq_true_2. }
    rewrite <- Hw1, Hi1 in Hi1'.
    by injection Hi1' as <-.
  - destruct (run_running cfg img src w es 0 AwaitsPreload w1) as (r & ph & Hrun);
      [done|done|done|].
    fold w' in Hrun.
    destruct (running_observed cfg img src w r ph w' Hrun) as (Hreq & _).
    destruct (running_settles src w r ph w' Hnone Hrun) as (Hle & i' & Hi' & _ & Hend).
    destruct Hrun as (Hr & _).
    exists (S r), i'. split; [lia|]. done.
Qed.

(** X21. [cleanup] does not stop the loads under way.  It forgets the
    observer, the loading marks and the retry counts, and leaves the calls,
    their delays and the elements as they are: a call that waits for its
    delay makes its retry all the same when the delay has run out, a new
    call that starts with retry count 0 again; and an intersecting entry
    that is delivered afterwards for an element that carries a URL in
    [data-src] starts a preload of it. *)
Theorem cleanup_leaves_loads_running (w : World) (k : nat) (c : Call) :
  calls w !! k = Some c →
  phase c = AwaitsDelay →
  let w' := cleanup w in
  calls w' = calls w ∧ waits w' = waits w ∧ images w' = images w ∧
  observer (state w') = None ∧
  loadingImages (state w') = ∅ ∧
  retryCount (state w') = ∅ ∧
  calls (handle cfg (DelayElapses k) w')
  = alter (set_phase (Returned false)) k (calls w)
    ++ [mkCall (target c) (url c) 0 AwaitsPreload] ∧
  ∀ i src, images w !! img = Some i →
           attributes (node i) !! "data-src" = Some src → src ≠ "" →
           requests (handle cfg (Intersect img true) w')
           = requests w ++ [(img, src)].
Proof.
  intros Hk Hph w'.
  assert (calls w' = calls w ∧ waits w' = waits w ∧ images w' = images w ∧
          observer (state w') = None ∧ loadingImages (state w') = ∅ ∧
          retryCount (state w') = ∅) as (Hc & Hw & Hi & Ho & Hl & Hr).
  { unfold w', cleanup. destruct (observer (state w)) eqn:Hobs; simpl;
      rewrite ?Hobs; repeat split. }
  clearbody w'.
  split; [done|]. split; [done|]. split; [done|]. split; [done|].
  split; [done|]. split; [done|]. split.
  - simpl. rewrite Hc, Hk, Hph. unfold delayElapsed. simpl.
    rewrite Hr, Hc, lookup_empty. simpl.
    by rewrite alter_app_l by (by eapply lookup_lt_Some).
  - intros i src Hi' Hsrc Hne. simpl.
    rewrite (processImage_starts img src w').
    + unfold requests. destruct (observer _); simpl; by rewrite Hc, fmap_app.
    + split; [exists i; by rewrite Hi|]. split; [done|]. rewrite Hl. apply not_elem_of_empty.
Qed.

End Outcome.

Lemma image_loads_after_failures_witness :
  let w' := run CONFIG fourthLoads (processImage 7 onePhoto) in
  loadsFor 7 onePhoto < loadsFor 7 w' ∧
  ∃ k i',
    k ≤ maxRetries CONFIG ∧
    failuresFor 7 w' = failuresFor 7 onePhoto + k ∧
    requestsFor 7 w' = requestsFor 7 onePhoto ++ replicate (S k) (7, photo) ∧
    waitsFor 7 w' = waitsFor 7 onePhoto ++ backoff CONFIG k ∧
    pendingFor 7 w' = 0 ∧
    images w' !! 7 = Some i' ∧ loaded CONFIG photo i' = true ∧
    attributes (node i') !! "aria-busy" = None ∧
    retryCount (state w') !! 7 = None ∧
    ¬ (7 ∈ loadingImages (state w')) ∧
    ∀ es', requestsFor 7 (run CONFIG es' w') = requestsFor 7 w' ∧
           images (run CONFIG es' w') !! 7 = Some i'.
Proof.
  assert (loadsFor 7 onePhoto
          < loadsFor 7 (run CONFIG fourthLoads (processImage 7 onePhoto))) as Hloads.
  { vm_compute. lia. }
  split; [exact Hloads|].
  apply (image_loads_after_failures CONFIG 7 photo onePhoto fourthLoads).
  - split; [by exists waitingImage|]. split; by vm_compute.
  - by vm_compute.
  - by vm_compute.
  - by vm_compute.
  - exact Hloads.
Defined.

Lemma every_load_settles_witness :
  let w' := run CONFIG threeFailures (processImage 7 onePhoto) in
  pendingFor 7 w' ≤ 1 ∧
  (∃ i', images w' !! 7 = Some i' ∧
     (pendingFor 7 w' = 1 →
        attributes (node i') !! "data-src" = Some photo ∧
        attributes (node i') !! "aria-busy" = Some "true") ∧
     (pendingFor 7 w' = 0 →
        (loaded CONFIG photo i' = true ∨ errored CONFIG i' = true) ∧
        attributes (node i') !! "data-src" = None ∧
        attributes (node i') !! "aria-busy" = None ∧
        7 ∉ loadingImages (state w'))) ∧
  ∃ es', length es' ≤ 2 * maxRetries CONFIG + 1 ∧
         Forall (settles flaky) es' ∧
         pendingFor 7 (run CONFIG es' w') = 0.
Proof.
  apply (every_load_settles CONFIG 7 photo onePhoto threeFailures flaky).
  - split; [by exists waitingImage|]. split; by vm_compute.
  - by vm_compute.
  - by vm_compute.
  - by vm_compute.
Defined.

Lemma fallback_loads_every_image_witness :
  let w1 := init CONFIG oldBrowser in
  let w' := run CONFIG [PreloadSettles 1 false; PreloadSettles 0 true; DelayElapses 1;
                        PreloadSettles 2 true] w1 in
  (requestsFor 7 w1 = requestsFor 7 oldBrowser ++ [(7, photo)] ∧
   pendingFor 7 w1 = 1 ∧
   7 ∈ loadingImages (state w1) ∧
   ∃ i1, images w1 !! 7 = Some i1 ∧
         attributes (node i1) !! "data-src" = Some photo ∧
         attributes (node i1) !! "aria-busy" = Some "true" ∧
         attributes (node i1) !! "loading" = Some "lazy" ∧
         hasClass (placeholderClass CONFIG) (node i1) = true) ∧
  ∃ n i', 1 ≤ n ≤ maxRetries CONFIG + 1 ∧
          requestsFor 7 w' = requestsFor 7 oldBrowser ++ replicate n (7, photo) ∧
          pendingFor 7 w' ≤ 1 ∧
          images w' !! 7 = Some i' ∧
          (pendingFor 7 w' = 0 →
             (loaded CONFIG photo i' = true ∨ errored CONFIG i' = true) ∧
             attributes (node i') !! "data-src" = None ∧
             attributes (node i') !! "aria-busy" = None ∧
             7 ∉ loadingImages (state w')).
Proof.
  apply (fallback_loads_every_image CONFIG 7 oldBrowser waitingImage photo);
    by vm_compute.
Defined.

Lemma cleanup_leaves_loads_running_witness :
  let w := handle CONFIG (PreloadSettles 0 false) (processImage 7 onePhoto) in
  let w' := cleanup w in
  calls w' = calls w ∧ waits w' = waits w ∧ images w' = images w ∧
  observer (state w') = None ∧
  loadingImages (state w') = ∅ ∧
  retryCount (state w') = ∅ ∧
  calls (handle CONFIG (DelayElapses 0) w')
  = alter (set_phase (Returned false)) 0 (calls w)
    ++ [mkCall 7 photo 0 AwaitsPreload] ∧
  ∀ i src, images w !! 7 = Some i →
           attributes (node i) !! "data-src" = Some src → src ≠ "" →
           requests (handle CONFIG (Intersect 7 true) w')
           = requests w ++ [(7, src)].
Proof.
  apply (cleanup_leaves_loads_running CONFIG 7
           (handle CONFIG (PreloadSettles 0 false) (processImage 7 onePhoto))
           0 (mkCall 7 photo 0 AwaitsDelay)); by vm_compute.
Defined.

End LazyLoadingMore.

(** ** Mobile navigation: the menu and the links over whole visits *)

Module NavigationMore.
Import Navigation NavigationSpec.

(** *** The menu *)

Ltac attr_lookup :=
  repeat (rewrite lookup_insert_eq || rewrite lookup_insert_ne by done).

Lemma same_menu_refl p : same_menu p p.
Proof. by repeat split. Qed.

Lemma same_menu_consistent p p' : same_menu p p' → menu_consistent p → menu_consistent p'.
Proof.
  unfold same_menu, menu_consistent. intros (-> & -> & -> & -> & -> & ->). done.
Qed.

Lemma focus_menu e p : same_menu p (focus e p).
Proof. unfold focus. case_bool_decide; by repeat split. Qed.

Lemma trapFocus_menu shiftKey p : same_menu p (trapFocus shiftKey p).
Proof.
  unfold trapFocus. destruct (head _); [|apply same_menu_refl].
  destruct (last _); [|apply same_menu_refl].
  repeat case_match; try apply same_menu_refl; apply focus_menu.
Qed.

Lemma use_menu p u : same_menu p (use p u).
Proof.
  destruct u as [|e|shiftKey]; simpl.
  - destruct (focusTimers p); [apply same_menu_refl|]. unfold focusFirst. simpl.
    destruct (head _); [|by repeat split].
    apply (focus_menu _ (set_focusTimers _ p)).
  - apply focus_menu.
  - destruct (isMenuOpen (state p)); [apply trapFocus_menu|apply same_menu_refl].
Qed.

Lemma openMenu_consistent p : menu_consistent p → menu_consistent (openMenu p).
Proof.
  intros Hc. unfold openMenu. destruct (isMenuOpen (state p)) eqn:Hopen; [done|].
  assert (menu_consistent
            (with_state (set_focusableElements (menuFocusable p)
               (set_lastFocusedElement (activeElement p) (set_isMenuOpen true (state p))))
               (show_menu true p))) as Hopened.
  { unfold menu_consistent. simpl. attr_lookup. by repeat split. }
  simpl. case_bool_decide; [|exact Hopened].
  eapply same_menu_consistent; [|exact Hopened]. by repeat split.
Qed.

Lemma closeMenu_consistent p : menu_consistent p → menu_consistent (closeMenu p).
Proof.
  intros Hc. unfold closeMenu. destruct (isMenuOpen (state p)) eqn:Hopen; [|done].
  simpl.
  assert (∀ q, same_menu (show_menu false (with_state (set_isMenuOpen false (state p)) p)) q →
               menu_consistent (with_state (set_focusableElements [] (state q)) q)) as Hfin.
  { intros q (Ho & Ht & Hm & Hv & Hb & Hf). unfold menu_consistent. simpl.
    rewrite Ho, Ht, Hm, Hv. simpl. attr_lookup. by repeat split. }
  destruct (lastFocusedElement (state p)); apply Hfin;
    [apply focus_menu|apply same_menu_refl].
Qed.

Lemma initializeAriaAttributes_consistent p :
  isMenuOpen (state p) = false → focusableElements (state p) = [] →
  menu_consistent (initializeAriaAttributes p).
Proof.
  intros Hopen Hf. unfold menu_consistent. simpl. rewrite Hopen.
  attr_lookup. by repeat split.
Qed.

Lemma updateActiveNavOnScroll_menu d :
  same_menu (page d) (page (updateActiveNavOnScroll d)).
Proof.
  unfold updateActiveNavOnScroll. destruct (getCurrentSection d); [|apply same_menu_refl].
  case_bool_decide; [apply same_menu_refl|]. simpl.
  case_bool_decide; [by repeat split|].
  destruct (list_find _ _) as [[k l]|]; by repeat split.
Qed.

Lemma handle_consistent e d :
  menu_consistent (page d) → menu_consistent (page (handle e d)).
Proof.
  intros Hc. destruct e as [| |k|y|key shiftKey|width| |e|matches]; simpl.
  - unfold toggleMenu. destruct (isMenuOpen (state (page d)));
      [by apply closeMenu_consistent|by apply openMenu_consistent].
  - by apply closeMenu_consistent.
  - unfold handleNavLinkClick. destruct (navLinks d !! k) as [l|]; [|done].
    destruct (_ ≫= _); [|done]. simpl.
    destruct (isMenuOpen (state (page d))); [|done]. simpl.
    by apply closeMenu_consistent.
  - unfold handleScroll. simpl.
    match goal with |- context [updateActiveNavOnScroll ?d0] =>
      pose proof (updateActiveNavOnScroll_menu d0) as Hm;
      destruct (updateActiveNavOnScroll d0) as [p1 ? ? ? ? ? ? ?]
    end.
    simpl in *. eapply same_menu_consistent; [|exact Hc].
    destruct Hm as (? & ? & ? & ? & ? & ?). by repeat split.
  - destruct key; simpl; [| |done].
    + destruct (isMenuOpen (state (page d))); [by apply closeMenu_consistent|done].
    + destruct (isMenuOpen (state (page d))); [|done].
      eapply same_menu_consistent; [apply trapFocus_menu|done].
  - unfold handleResize. simpl.
    assert (menu_consistent (set_innerWidth width (page d))) as Hw by done.
    destruct (_ && _); [by apply closeMenu_consistent|done].
  - eapply same_menu_consistent; [apply (use_menu (page d) TimerFires)|done].
  - eapply same_menu_consistent; [apply (use_menu (page d) (FocusMoves e))|done].
  - done.
Qed.

Lemma run_consistent es d :
  menu_consistent (page d) → menu_consistent (page (run es d)).
Proof.
  unfold run. revert d. induction es as [|e es IH]; intros d Hc; simpl; [done|].
  by apply IH, handle_consistent.
Qed.

(** X14. What assistive technology is told about the menu is always what
    the module holds.  From a closed menu initialised by
    [initializeAriaAttributes], after any sequence of clicks on the toggle,
    the overlay and the links, key presses, scrolls, resizes, focus changes
    and timers: [aria-expanded] on the toggle and [data-visible] on the menu
    and the overlay are ["true"] exactly when [isMenuOpen] holds,
    [aria-hidden] on the menu and the overlay is ["false"] exactly then, the
    body cannot scroll while the menu is open, and the focus list is empty
    while it is closed. *)
Theorem menu_state_matches_aria (d : Document) (p : Page) (es : list Event) :
  isMenuOpen (state p) = false →
  focusableElements (state p) = [] →
  page d = initializeAriaAttributes p →
  menu_consistent (page (run es d)).
Proof.
  intros Hopen Hf Hp. apply run_consistent. rewrite Hp.
  by apply initializeAriaAttributes_consistent.
Qed.

Lemma menu_state_matches_aria_witness :
  menu_consistent (page (run visit landing)).
Proof.
  apply (menu_state_matches_aria landing withLinks visit); by vm_compute.
Defined.

(** *** The links *)

Lemma unmark_link_shows l :
  linkIsActive (unmark_link l) = false ∧
  attributes (anchor (unmark_link l)) !! "aria-label" = Some (textContent l) ∧
  href (unmark_link l) = href l ∧ textContent (unmark_link l) = textContent l.
Proof.
  unfold linkIsActive, unmark_link, hasClass. simpl. rewrite lookup_insert_eq.
  split; [|done]. apply bool_decide_eq_false_2.
  intros [_ Hin]%elem_of_difference. apply Hin. by apply elem_of_singleton.
Qed.

Lemma mark_link_shows l :
  linkIsActive (mark_link l) = true ∧
  attributes (anchor (mark_link l)) !! "aria-label"
    = Some (textContent l +:+ " (current section)") ∧
  href (mark_link l) = href l ∧ textContent (mark_link l) = textContent l.
Proof.
  unfold linkIsActive, mark_link, hasClass. simpl. rewrite lookup_insert_eq.
  split; [|done]. apply bool_decide_eq_true_2.
  by apply elem_of_union_l, elem_of_singleton.
Qed.

(** [updateActiveNavLink] on a link of the list leaves that link, and no
    other, marked; it changes neither targets nor texts. *)
Lemma updateActiveNavLink_shows k d :
  k < length (navLinks d) →
  links_show (Some k) (updateActiveNavLink k d) ∧
  linkTexts (updateActiveNavLink k d) = linkTexts d.
Proof.
  intros Hk. split.
  - intros j l. unfold updateActiveNavLink. simpl.
    destruct (decide (j = k)) as [->|Hne].
    + rewrite list_lookup_alter_eq, list_lookup_fmap.
      destruct (navLinks d !! k) as [l0|]; simpl; [|done]. intros [= <-].
      rewrite !bool_decide_eq_true_2 by done.
      destruct (mark_link_shows (unmark_link l0)) as (-> & -> & _). done.
    + rewrite list_lookup_alter_ne by done. rewrite list_lookup_fmap.
      destruct (navLinks d !! j) as [l0|]; simpl; [|done]. intros [= <-].
      rewrite !bool_decide_eq_false_2 by congruence.
      destruct (unmark_link_shows l0) as (-> & -> & _). done.
  - unfold linkTexts, updateActiveNavLink. simpl.
    apply list_eq. intros j. rewrite !list_lookup_fmap.
    destruct (decide (j = k)) as [->|Hne].
    + rewrite list_lookup_alter_eq, list_lookup_fmap.
      by destruct (navLinks d !! k).
    + rewrite list_lookup_alter_ne by done. rewrite list_lookup_fmap.
      by destruct (navLinks d !! j).
Qed.

Lemma list_find_bound {A} (P : A → Prop) `{∀ x, Decision (P x)} (l : list A) k x :
  list_find P l = Some (k, x) → k < length l ∧ l !! k = Some x ∧ P x.
Proof.
  intros (Hk & HP & _)%list_find_Some. split; [by eapply lookup_lt_Some|done].
Qed.

Lemma handle_links e d cur :
  links_show cur d →
  (∃ cur', links_show cur' (handle e d)) ∧ linkTexts (handle e d) = linkTexts d.
Proof.
  intros Hshow.
  assert (∀ d', navLinks d' = navLinks d →
                (∃ cur', links_show cur' d') ∧ linkTexts d' = linkTexts d) as Hframe.
  { intros d' Hl. split; [exists cur|]; unfold links_show, linkTexts; by rewrite Hl. }
  assert (∀ k d0, navLinks d0 = navLinks d → k < length (navLinks d) →
                  ∀ d', navLinks d' = navLinks (updateActiveNavLink k d0) →
                  (∃ cur', links_show cur' d') ∧ linkTexts d' = linkTexts d) as Hupdate.
  { intros k d0 Hl Hk d' Hd'.
    destruct (updateActiveNavLink_shows k d0) as [Hs Ht]; [by rewrite Hl|].
    split; [exists (Some k)|]; unfold links_show, linkTexts in *; rewrite Hd'.
    - exact Hs.
    - by rewrite Ht, Hl. }
  destruct e as [| |k|y|key shiftKey|width| |e|matches]; simpl;
    try (by apply Hframe).
  - unfold handleNavLinkClick. destruct (navLinks d !! k) as [l|] eqn:Hk; [|by apply Hframe].
    destruct (_ ≫= _); [|by apply Hframe].
    eapply (Hupdate k); [| by eapply lookup_lt_Some |done].
    by destruct (isMenuOpen _).
  - unfold handleScroll, updateActiveNavOnScroll.
    destruct (getCurrentSection _); [|by apply Hframe].
    case_bool_decide; [by apply Hframe|].
    case_bool_decide; [by apply Hframe|].
    destruct (list_find _ _) as [[k l]|] eqn:Hfind; [|by apply Hframe].
    apply list_find_bound in Hfind as (Hk & _).
    by eapply (Hupdate k).
Qed.

Lemma run_links es d cur :
  links_show cur d →
  (∃ cur', links_show cur' (run es d)) ∧ linkTexts (run es d) = linkTexts d.
Proof.
  unfold run. revert d cur. induction es as [|e es IH]; intros d cur Hshow; simpl.
  - split; [by exists cur|done].
  - destruct (handle_links e d cur Hshow) as [[cur1 H1] Ht1].
    destruct (IH _ _ H1) as [H2 Ht2]. split; [done|congruence].
Qed.

(** X15. One current link at a time.  Once the links show a current one
    (or none), then after any sequence of events at most one link carries
    the active class; that link is labelled with its text followed by
    "(current section)", every other link with its text alone; and no event
    changes the target or the text of a link.  A click on an internal link
    whose target exists makes that link the current one. *)
Theorem one_current_link_at_a_time (d : Document) (cur : option nat) (es : list Event) :
  links_show cur d →
  let d' := run es d in
  (∃ cur', links_show cur' d') ∧
  linkTexts d' = linkTexts d ∧
  (∀ k l top, navLinks d' !! k = Some l →
              fragment (href l) ≫= (λ targetId, getElementById targetId d') = Some top →
              links_show (Some k) (handle (LinkClick k) d')).
Proof.
  intros Hshow d'. destruct (run_links es d cur Hshow) as [Hex Ht].
  split; [done|]. split; [done|].
  intros k l top Hk Htarget. simpl. unfold handleNavLinkClick. rewrite Hk, Htarget.
  match goal with |- links_show _ (set_locationHash _ (updateActiveNavLink k ?d0)) =>
    destruct (updateActiveNavLink_shows k d0) as [Hs _]
  end.
  - destruct (isMenuOpen _); simpl; by eapply lookup_lt_Some.
  - exact Hs.
Qed.

Lemma one_current_link_at_a_time_witness :
  let d' := run visit browsing in
  (∃ cur', links_show cur' d') ∧
  linkTexts d' = linkTexts browsing ∧
  (∀ k l top, navLinks d' !! k = Some l →
              fragment (href l) ≫= (λ targetId, getElementById targetId d') = Some top →
              links_show (Some k) (handle (LinkClick k) d')).
Proof.
  apply (one_current_link_at_a_time browsing (Some 0) visit).
  intros j l Hl.
  assert (j < 4) as Hj by (apply lookup_lt_Some in Hl; exact Hl).
  destruct j as [|[|[|[|j]]]]; [| | | |simpl in Hj; lia];
    injection Hl as <-; by vm_compute.
Defined.

(** *** The current section *)

Lemma lastReached_Some secs pos n i :
  lastReached secs pos n = Some i →
  i < n ∧ (∃ s, secs !! i = Some s ∧ (offsetTop s <= pos)%Z) ∧
  ∀ j s, i < j < n → secs !! j = Some s → (pos < offsetTop s)%Z.
Proof.
  induction n as [|n IH]; [done|]. simpl.
  assert (lastReached secs pos n = Some i →
          (∀ s, secs !! n = Some s → (pos < offsetTop s)%Z) →
          i < S n ∧ (∃ s, secs !! i = Some s ∧ (offsetTop s <= pos)%Z) ∧
          ∀ j s, i < j < S n → secs !! j = Some s → (pos < offsetTop s)%Z) as Hrest.
  { intros Hi Hn. destruct (IH Hi) as (Hlt & Hs & Hafter).
    split; [lia|]. split; [done|]. intros j s Hj Hjs.
    destruct (decide (j = n)) as [->|]; [by apply Hn|]. apply (Hafter j); [lia|done]. }
  destruct (secs !! n) as [s|] eqn:Hn.
  - destruct (Z.leb_spec (offsetTop s) pos).
    + intros [= <-]. split; [lia|]. split; [by exists s|]. intros j s' Hj. lia.
    + intros Hi. apply Hrest; [done|]. by intros s' [= <-].
  - intros Hi. by apply Hrest.
Qed.

Lemma lastReached_None secs pos n :
  lastReached secs pos n = None →
  ∀ j s, j < n → secs !! j = Some s → (pos < offsetTop s)%Z.
Proof.
  induction n as [|n IH]; [intros _ j s Hj; lia|]. simpl.
  destruct (secs !! n) as [s|] eqn:Hn.
  - destruct (Z.leb_spec (offsetTop s) pos); [done|].
    intros Hnone j s' Hj Hjs. destruct (decide (j = n)) as [->|].
    + rewrite Hn in Hjs. by injection Hjs as <-.
    + apply (IH Hnone j); [lia|done].
  - intros Hnone j s' Hj Hjs. destruct (decide (j = n)) as [->|]; [congruence|].
    apply (IH Hnone j); [lia|done].
Qed.

(** X16. The current section is the last one the reading line has
    reached.  With the reading line at [pageYOffset + SCROLL_OFFSET + 100],
    180 pixels below the top of the window,
    [getCurrentSection] returns nothing exactly when the page has no
    section; otherwise it returns a section of the page such that every
    later section starts below the line, and which itself starts at or above
    the line, or else is the first section of a page on which every section
    starts below the line. *)
Theorem current_section_is_last_reached (d : Document) :
  let line := (pageYOffset d + SCROLL_OFFSET + 100)%Z in
  match getCurrentSection d with
  | None => sections d = []
  | Some i =>
      ∃ s, sections d !! i = Some s ∧
           (∀ j s', i < j → sections d !! j = Some s' → (line < offsetTop s')%Z) ∧
           ((offsetTop s <= line)%Z ∨
            (i = 0 ∧ ∀ j s', sections d !! j = Some s' → (line < offsetTop s')%Z))
  end.
Proof.
  intros line. unfold getCurrentSection.
  change (pageYOffset d + SCROLL_OFFSET + 100)%Z with line.
  destruct (lastReached _ _ _) as [i|] eqn:Hscan.
  - apply lastReached_Some in Hscan as (Hi & (s & Hs & Htop) & Hafter).
    exists s. split; [done|]. split; [|by left].
    intros j s' Hj Hjs. apply (Hafter j); [|done].
    split; [done|]. by eapply lookup_lt_Some.
  - pose proof (lastReached_None _ _ _ Hscan) as Hall.
    destruct (sections d) as [|s0 rest] eqn:Hsecs; [done|].
    exists s0. split; [done|].
    assert (∀ j s', (s0 :: rest) !! j = Some s' → (line < offsetTop s')%Z) as Hbelow.
    { intros j s' Hjs. apply (Hall j); [by eapply lookup_lt_Some|done]. }
    split; [|by right]. intros j s' _. apply Hbelow.
Qed.

(** X17. Scrolling keeps the header, the section and the links in step.
    After the scroll handler has run at offset [y]: the header carries the
    class [scrolled] exactly when [y] exceeds 50, [lastScrollPosition] is
    [y], and when the page has sections [activeSection] is the current
    section.  If that section is the one already active, the links are
    untouched; if it is another one whose id is not empty and a link leads to
    it, the first such link becomes the one current link. *)
Theorem scroll_tracks_section (d : Document) (y : Z) (cur : nat) (s : PageSection) :
  let d0 := set_pageYOffset y d in
  let d' := handle (Scroll y) d in
  getCurrentSection d0 = Some cur →
  sections d !! cur = Some s →
  hasClass "scrolled" (header d') = (50 <? y)%Z ∧
  lastScrollPosition (state (page d')) = y ∧
  activeSection (state (page d')) = Some cur ∧
  (activeSection (state (page d)) = Some cur → navLinks d' = navLinks d) ∧
  (∀ k l, activeSection (state (page d)) ≠ Some cur →
          sectionId s ≠ "" →
          list_find (λ l, href l = "#" +:+ sectionId s) (navLinks d) = Some (k, l) →
          links_show (Some k) d').
Proof.
  intros d0 d' Hcur Hs. unfold d'. simpl. fold d0. unfold handleScroll.
  set (d1 := set_header _ d0).
  assert (hasClass "scrolled" (header d1) = (50 <? y)%Z) as Hheader.
  { unfold d1, hasClass. simpl. change SCROLL_THRESHOLD with 50%Z.
    destruct (50 <? y)%Z; simpl.
    - apply bool_decide_eq_true_2. by apply elem_of_union_l, elem_of_singleton.
    - apply bool_decide_eq_false_2. intros [_ Hin]%elem_of_difference.
      apply Hin. by apply elem_of_singleton. }
  assert (getCurrentSection d1 = Some cur) as Hcur1 by exact Hcur.
  unfold updateActiveNavOnScroll. rewrite Hcur1.
  change (activeSection (state (page d1))) with (activeSection (state (page d))).
  case_bool_decide as Hsame.
  - simpl. split; [exact Hheader|]. split; [done|]. split; [done|].
    split; [done|]. intros k l Hne. done.
  - cbn zeta.
    match goal with |- context [on_page ?f d1] => set (d2 := on_page f d1) end.
    assert (sections d2 !! cur = Some s) as Hs2 by exact Hs.
    rewrite Hs2. cbn [fmap option_fmap option_map default].
    case_bool_decide as Hid.
    + simpl. split; [exact Hheader|]. split; [done|]. split; [done|].
      split; [done|]. intros k l _ Hne. done.
    + change (navLinks d2) with (navLinks d).
      destruct (list_find _ (navLinks d)) as [[k l]|] eqn:Hfind.
      * simpl. split; [exact Hheader|]. split; [done|]. split; [done|].
        split; [done|]. intros k' l' _ _ [= <- <-].
        apply list_find_bound in Hfind as (Hk & _).
        destruct (updateActiveNavLink_shows k d2 Hk) as [Hshow _]. exact Hshow.
      * simpl. split; [exact Hheader|]. split; [done|]. split; [done|].
        split; [done|]. intros k l _ _ Hfalse. done.
Qed.

Lemma scroll_tracks_section_witness :
  let d0 := set_pageYOffset 1400 landing in
  let d' := handle (Scroll 1400) landing in
  hasClass "scrolled" (header d') = (50 <? 1400)%Z ∧
  lastScrollPosition (state (page d')) = 1400%Z ∧
  activeSection (state (page d')) = Some 2 ∧
  (activeSection (state (page landing)) = Some 2 → navLinks d' = navLinks landing) ∧
  (∀ k l, activeSection (state (page landing)) ≠ Some 2 →
          sectionId (mkPageSection "pricing" 1500) ≠ "" →
          list_find (λ l, href l = "#" +:+ sectionId (mkPageSection "pricing" 1500))
                    (navLinks landing) = Some (k, l) →
          links_show (Some k) d').
Proof.
  apply (scroll_tracks_section landing 1400 2 (mkPageSection "pricing" 1500));
    by vm_compute.
Defined.

(** *** [throttle] *)

Lemma tick_executed {A} delay (s : @Throttle A) t :
  length (executed s) ≤ length (executed (tick delay s t)) ∧
  (is_Some (pending s) → pending (tick delay s t) = None →
   length (executed s) < length (executed (tick delay s t))).
Proof.
  destruct t as [now args|]; simpl.
  - unfold throttled. destruct (_ <=? _)%Z; simpl.
    + rewrite length_app. simpl. split; [lia|]. intros _ _. lia.
    + split; [done|]. intros _ [=].
  - unfold timeoutFires. destruct (pending s) as [[c args]|]; simpl.
    + rewrite length_app. simpl. split; [lia|]. intros _ _. lia.
    + split; [done|]. by intros [? [=]].
Qed.

Lemma ticks_executed {A} delay (ts : list (@Tick A)) s :
  length (executed s) ≤ length (executed (foldl (tick delay) s ts)) ∧
  (is_Some (pending s) → pending (foldl (tick delay) s ts) = None →
   length (executed s) < length (executed (foldl (tick delay) s ts))).
Proof.
  revert s. induction ts as [|t ts IH]; intros s; simpl.
  - split; [done|]. intros [? Hp] Hn. congruence.
  - destruct (tick_executed delay s t) as [Hle Hlt].
    destruct (IH (tick delay s t)) as [Hle' Hlt']. split; [lia|].
    intros Hp Hn. destruct (pending (tick delay s t)) eqn:Hp1.
    + specialize (Hlt' (ltac:(by eexists)) Hn). lia.
    + specialize (Hlt Hp eq_refl). lia.
Qed.

(** X20. No call of a throttled function goes unanswered.  Whatever the
    clock readings, and whenever the timeouts fire, once no timeout is
    pending the function has been executed at least once at or after every
    call: a call that is not executed at once leaves a timeout, and that
    timeout or a later execution answers it. *)
Theorem throttled_call_is_answered {A : Type} (delay : Z)
    (before rest : list (@Tick A)) (now : Z) (args : A) :
  let s0 := foldl (tick delay) throttle before in
  let s := foldl (tick delay) s0 (Call now args :: rest) in
  pending s = None →
  length (executed s0) < length (executed s).
Proof.
  intros s0 s Hnone. unfold s in *. simpl in *.
  destruct (ticks_executed delay rest (throttled delay now args s0)) as [Hle Hlt].
  unfold throttled in *. destruct (_ <=? _)%Z; simpl in *.
  - rewrite length_app in Hle. simpl in Hle. lia.
  - apply Hlt; [by eexists|done].
Qed.

Lemma throttled_call_is_answered_witness :
  let s0 := foldl (tick 100) throttle (take 4 scrolling) in
  let s := foldl (tick 100) s0 (Call 5120 410%Z :: drop 5 scrolling) in
  pending s = None ∧ length (executed s0) < length (executed s).
Proof.
  split; [by vm_compute|].
  apply (throttled_call_is_answered 100 (take 4 scrolling) (drop 5 scrolling) 5120 410%Z).
  by vm_compute.
Defined.

End NavigationMore.

(** ** Link tracking: duplicate clicks *)

Module LinkTrackingMore.
Import LinkTracking.

Lemma isDuplicateClick_cases key now m :
  (∃ lastClick, m !! key = Some lastClick ∧ lastClick ≠ 0%Z ∧
                (now - lastClick < DEBOUNCE_DELAY)%Z ∧
                isDuplicateClick key now m = (true, m)) ∨
  ((∀ lastClick, m !! key = Some lastClick → lastClick ≠ 0%Z →
                 (lastClick + DEBOUNCE_DELAY <= now)%Z) ∧
   isDuplicateClick key now m = (false, <[key := now]> m)).
Proof.
  unfold isDuplicateClick. destruct (m !! key) as [lastClick|] eqn:Hm.
  - destruct (Z.eqb_spec lastClick 0) as [->|Hne]; simpl.
    + right. split; [|done]. intros l [= <-] Hl. done.
    + destruct (Z.ltb_spec (now - lastClick) DEBOUNCE_DELAY).
      * left. exists lastClick. done.
      * right. split; [|done]. intros l [= <-] _. lia.
  - right. split; [|done]. intros l Hl. done.
Qed.

Lemma trackedAt_spaced key (clicks : list (string * Z)) m :
  Forall (λ c, c.2 ≠ 0%Z) clicks →
  (∀ k v, m !! k = Some v → v ≠ 0%Z) →
  spaced DEBOUNCE_DELAY (trackedAt key clicks m) ∧
  ∀ lastClick t, m !! key = Some lastClick →
                 head (trackedAt key clicks m) = Some t →
                 (lastClick + DEBOUNCE_DELAY <= t)%Z.
Proof.
  revert m. induction clicks as [|[k now] clicks IH]; intros m Hnz Hm.
  - split; [intros i t1 t2 Hi; by destruct i|done].
  - apply Forall_cons in Hnz as [Hnow Hnz]. simpl in Hnow. simpl.
    destruct (isDuplicateClick_cases k now m)
      as [(lastClick & Hk & Hne & Hnear & ->)|[Hfar ->]]; simpl.
    + by apply IH.
    + assert (∀ k' v, <[k := now]> m !! k' = Some v → v ≠ 0%Z) as Hm'.
      { intros k' v. destruct (decide (k' = k)) as [->|Hkk].
        - rewrite lookup_insert_eq. by intros [= <-].
        - rewrite lookup_insert_ne by done. apply Hm. }
      destruct (IH (<[k := now]> m) Hnz Hm') as [Hsp Hhead].
      case_bool_decide as Hkey.
      * subst k. split.
        -- intros [|i] t1 t2; simpl.
           ++ intros [= <-] Ht2. apply (Hhead now t2); [by rewrite lookup_insert_eq|].
              by destruct (trackedAt _ _ _).
           ++ apply Hsp.
        -- intros lastClick t Hl [= <-]. apply Hfar; [done|by eapply Hm].
      * split; [done|]. intros lastClick t Hl. apply Hhead.
        by rewrite lookup_insert_ne.
Qed.

Lemma duplicates_explained (clicks : list (string * Z)) m i key now :
  clicks !! i = Some (key, now) →
  duplicates clicks m !! i = Some true →
  (∃ j t, j < i ∧ clicks !! j = Some (key, t) ∧ duplicates clicks m !! j = Some false ∧
          (now - t < DEBOUNCE_DELAY)%Z) ∨
  (∃ lastClick, m !! key = Some lastClick ∧ (now - lastClick < DEBOUNCE_DELAY)%Z).
Proof.
  revert m i. induction clicks as [|[k t0] clicks IH]; intros m i; [done|].
  simpl.
  destruct (isDuplicateClick_cases k t0 m)
    as [(lastClick & Hk & Hne & Hnear & ->)|[Hfar ->]]; destruct i as [|i]; simpl.
  - intros [= -> ->] _. right. by exists lastClick.
  - intros Hi Hdup. destruct (IH m i Hi Hdup) as [(j & t & Hj & Hcj & Hdj & Hnear')|Hm].
    + left. exists (S j), t. split; [lia|done].
    + by right.
  - intros _ [=].
  - intros Hi Hdup.
    destruct (IH _ i Hi Hdup) as [(j & t & Hj & Hcj & Hdj & Hnear')|(l & Hl & Hnear')].
    + left. exists (S j), t. split; [lia|done].
    + destruct (decide (key = k)) as [->|Hkk].
      * rewrite lookup_insert_eq in Hl. injection Hl as <-.
        left. exists 0, t0. split; [lia|done].
      * rewrite lookup_insert_ne in Hl by done. right. by exists l.
Qed.

(** X18. Tracked clicks on one link are at least 300 ms apart, and only
    duplicates are dropped.  For any sequence of clicks handled from an empty
    record, with clock readings other than 0: two consecutive tracked clicks
    with the same key are at least [DEBOUNCE_DELAY] apart; and every click
    that is dropped comes less than [DEBOUNCE_DELAY] after an earlier
    tracked click with the same key. *)
Theorem tracked_clicks_are_spaced (clicks : list (string * Z)) :
  Forall (λ c, c.2 ≠ 0%Z) clicks →
  (∀ key, spaced DEBOUNCE_DELAY (trackedAt key clicks ∅)) ∧
  (∀ i key now,
     clicks !! i = Some (key, now) → duplicates clicks ∅ !! i = Some true →
     ∃ j t, j < i ∧ clicks !! j = Some (key, t) ∧
            duplicates clicks ∅ !! j = Some false ∧ (now - t < DEBOUNCE_DELAY)%Z).
Proof.
  intros Hnz. split.
  - intros key. by apply trackedAt_spaced.
  - intros i key now Hi Hdup.
    destruct (duplicates_explained clicks ∅ i key now Hi Hdup) as [Hj|(l & Hl & _)];
      [done|by rewrite lookup_empty in Hl].
Qed.

Lemma tracked_clicks_are_spaced_witness :
  (∀ key, spaced DEBOUNCE_DELAY (trackedAt key impatient ∅)) ∧
  (∀ i key now,
     impatient !! i = Some (key, now) → duplicates impatient ∅ !! i = Some true →
     ∃ j t, j < i ∧ impatient !! j = Some (key, t) ∧
            duplicates impatient ∅ !! j = Some false ∧ (now - t < DEBOUNCE_DELAY)%Z).
Proof.
  apply (tracked_clicks_are_spaced impatient).
  unfold impatient. repeat constructor; simpl; lia.
Defined.

End LinkTrackingMore.
